(** * Milvus segcore: tiered cache slot and unary range filter executor

    A shallow embedding of
    - [internal/core/src/cachinglayer/CacheSlot.h] (module [CachingLayer]),
    - [internal/core/src/exec/expression/UnaryExpr.cpp] (module [UnaryExpr]),
    - the checked helper of [internal/core/src/mmap/ChunkedColumnInterface.h]
      (module [ChunkedColumn]),
    together with the properties of the design document that concern them.

    Collaborators whose code lives outside these files (the Translator, the
    DList budget, ListNode, the SegmentExpr cursor, the indexes) appear as
    type classes.  Calls that cross such an interface are recorded in a
    trace, so that "is never invoked" and "happens before" are statements
    about the trace. *)

From Stdlib Require Import ZArith List Bool Lia String.
From stdpp Require Import base list.
Import ListNotations.

Local Open Scope Z_scope.

(** Error kinds ([common/EasyAssert.h], stable identifiers). *)
Inductive ErrorCode :=
| OutOfRange
| InsufficientResource
| DataTypeInvalid
| OpTypeInvalid
| Unsupported
| FileReadFailed
| InvalidParameter
| UnknownError.

#[global] Instance ErrorCode_eq_dec : EqDecision ErrorCode.
Proof. solve_decision. Defined.

(* ===================================================================== *)
Module CachingLayer.

(** [cid_t] and [uid_t] are 64-bit integers; a comparison against a
    [size_t] converts them to unsigned 64 bits first. *)
Definition cid_t := Z.
Definition uid_t := Z.

Definition to_size_t (x : Z) : Z := x mod 2 ^ 64.

(** [cells_[cid]]: [operator[]] takes a [size_t]. *)
Definition idx (cid : Z) : nat := Z.to_nat (to_size_t cid).

Definition cid_t_range (cid : cid_t) : Prop := - 2 ^ 63 <= cid < 2 ^ 63.

Record ResourceUsage := mkResourceUsage {
  memory_bytes : Z;
  file_bytes : Z
}.

Definition ru_zero : ResourceUsage := mkResourceUsage 0 0.

(** [ResourceUsage::operator+=] *)
Definition ru_add (a b : ResourceUsage) : ResourceUsage :=
  mkResourceUsage (memory_bytes a + memory_bytes b) (file_bytes a + file_bytes b).

Definition ru_sum (l : list ResourceUsage) : ResourceUsage :=
  fold_left ru_add l ru_zero.

Inductive State := NOT_LOADED | LOADING | LOADED | ERROR.

#[global] Instance State_eq_dec : EqDecision State.
Proof. solve_decision. Defined.

Inductive CellIdMappingMode := IDENTICAL | ALWAYS_ZERO | CUSTOM.

(** Modelled from the spec: the enumeration [CacheWarmupPolicy] of
    [common/type_c.h] (a C enum): the two named values of the design
    document, and any other integer a configuration may carry. *)
Inductive CacheWarmupPolicy :=
| CacheWarmupPolicy_Disable
| CacheWarmupPolicy_Sync
| CacheWarmupPolicy_Unrecognized (raw : Z).

#[global] Instance CacheWarmupPolicy_eq_dec : EqDecision CacheWarmupPolicy.
Proof. solve_decision. Defined.

(** Calls that leave [CacheSlot]: into a cell's [ListNode], the [DList]
    budget and the [Translator]. *)
Inductive Event :=
| EvPin (cid : cid_t) (need_load : bool)
| EvUnpin (cid : cid_t)
| EvReserve (amount : ResourceUsage) (success : bool)
| EvRelease (amount : ResourceUsage)
| EvGetCells (cids : list cid_t)
| EvSetCell (cid : cid_t) (requesting_thread : bool)
| EvSetError (cid : cid_t) (error : ErrorCode).

Definition is_pin (e : Event) : bool :=
  match e with EvPin _ _ => true | _ => false end.
Definition is_reserve (e : Event) : bool :=
  match e with EvReserve _ _ => true | _ => false end.
Definition is_release (e : Event) : bool :=
  match e with EvRelease _ => true | _ => false end.
Definition is_get_cells (e : Event) : bool :=
  match e with EvGetCells _ => true | _ => false end.
Definition is_set_cell (e : Event) : bool :=
  match e with EvSetCell _ _ => true | _ => false end.

(** The [Translator<CellT>] interface ([cachinglayer/Translator.h]);
    [get_cells] may throw. *)
Class Translator (CellT : Type) := {
  num_cells : nat;
  cell_id_mapping_mode : CellIdMappingMode;
  cache_warmup_policy : CacheWarmupPolicy;
  estimated_byte_size_of_cell : cid_t -> ResourceUsage;
  translator_cell_id_of : uid_t -> cid_t;
  get_cells : list cid_t -> ErrorCode + list (cid_t * CellT)
}.

(** The part of [internal::DList] that [CacheSlot] calls. *)
Class DList (D : Type) := {
  reserveMemoryWithTimeout : D -> ResourceUsage -> Z -> bool * D;
  releaseMemory : D -> ResourceUsage -> D
}.

Section Slot.
Context {CellT D : Type} {Tr : Translator CellT} {DL : DList D}.

Record CacheCell := mkCell {
  state_ : State;
  pin_count : nat;
  size_ : ResourceUsage;
  cell_ : option CellT;
  error_ : option ErrorCode
}.

(** ** ListNode *)

(** Modelled from the spec: [ListNode::pin] of
    [cachinglayer/lrucache/ListNode.h].  The first pin of a NOT_LOADED
    cell takes the NOT_LOADED -> LOADING edge and is the requester; an
    ERROR cell is reset to NOT_LOADED by the next pin attempt. *)
Definition pin (c : CacheCell) : bool * CacheCell :=
  match state_ c with
  | NOT_LOADED =>
      (true, mkCell LOADING (S (pin_count c)) (size_ c) (cell_ c) None)
  | ERROR =>
      (true, mkCell LOADING 1 (size_ c) (cell_ c) None)
  | LOADING | LOADED =>
      (false, mkCell (state_ c) (S (pin_count c)) (size_ c) (cell_ c) (error_ c))
  end.

(** Modelled from the spec: [NodePin]'s destructor ([ListNode::unpin]). *)
Definition unpin (c : CacheCell) : CacheCell :=
  mkCell (state_ c) (Nat.pred (pin_count c)) (size_ c) (cell_ c) (error_ c).

(** Modelled from the spec: [ListNode::mark_loaded], reached through
    [CacheCell::set_cell].  The first writer wins: on a LOADED cell the
    call changes nothing. *)
Definition set_cell (payload : CellT) (requesting_thread : bool)
    (c : CacheCell) : CacheCell :=
  match state_ c with
  | LOADED => c
  | _ => mkCell LOADED (pin_count c) (size_ c) (Some payload) None
  end.

(** Modelled from the spec: [ListNode::set_error]:
    LOADING -> ERROR, the error is broadcast and the pin count reset. *)
Definition set_error (e : ErrorCode) (c : CacheCell) : CacheCell :=
  match state_ c with
  | LOADING => mkCell ERROR 0 (size_ c) (cell_ c) (Some e)
  | _ => c
  end.

(** ** CacheSlot *)

Record CacheSlot := mkSlot {
  cells_ : list CacheCell;
  dlist_ : option D;
  trace : list Event
}.

Definition with_cells (s : CacheSlot) (cs : list CacheCell) : CacheSlot :=
  mkSlot cs (dlist_ s) (trace s).
Definition with_dlist (s : CacheSlot) (d : option D) : CacheSlot :=
  mkSlot (cells_ s) d (trace s).
Definition log (s : CacheSlot) (e : Event) : CacheSlot :=
  mkSlot (cells_ s) (dlist_ s) (trace s ++ [e]).

(** [cells_[cid].f(...)] for an index the vector has. *)
Definition update_cell (cid : cid_t) (f : CacheCell -> CacheCell)
    (s : CacheSlot) : CacheSlot :=
  match cells_ s !! idx cid with
  | Some c => with_cells s (<[idx cid := f c]> (cells_ s))
  | None => s
  end.

(** The constructor: one NOT_LOADED cell per cid, sized by the
    translator's estimate. *)
Definition new_slot (dlist : option D) : CacheSlot :=
  mkSlot
    (map (fun i => mkCell NOT_LOADED 0
                     (estimated_byte_size_of_cell (Z.of_nat i)) None None)
         (seq 0 num_cells))
    dlist [].

(** [ska::flat_hash_set::insert] / [std::unordered_set::insert]; the
    iteration order of the set is taken to be the insertion order. *)
Definition set_insert (x : cid_t) (l : list cid_t) : list cid_t :=
  if decide (x ∈ l) then l else l ++ [x].

Definition set_of_list (l : list cid_t) : list cid_t :=
  fold_left (fun acc x => set_insert x acc) l [].

(** [cell_id_of] *)
Definition cell_id_of (uid : uid_t) : cid_t :=
  match cell_id_mapping_mode with
  | IDENTICAL => uid
  | ALWAYS_ZERO => 0
  | CUSTOM => translator_cell_id_of uid
  end.

(** The set [involved_cids] built by [PinCells]. *)
Definition involved_cids (uids : list uid_t) : list cid_t :=
  match cell_id_mapping_mode with
  | IDENTICAL => set_of_list uids
  | ALWAYS_ZERO => if (0 <? length uids)%nat then set_insert 0 [] else []
  | CUSTOM => set_of_list (map cell_id_of uids)
  end.

(** [RunLoad]'s try block ends normally or in an exception; the flag is
    [reserve_resource_failure]. *)
Inductive TryOutcome :=
| Completed
| Caught (e : ErrorCode) (reserve_resource_failure : bool).

(** the loop over [results] *)
Fixpoint publish (cids : list cid_t) (results : list (cid_t * CellT))
    (s : CacheSlot) : CacheSlot :=
  match results with
  | [] => s
  | (cid, payload) :: rest =>
      let requesting := bool_decide (cid ∈ cids) in
      publish cids rest
        (log (update_cell cid (set_cell payload requesting) s)
             (EvSetCell cid requesting))
  end.

Definition load_cells (cids : list cid_t) (s : CacheSlot)
    : TryOutcome * CacheSlot :=
  let s := log s (EvGetCells cids) in
  match get_cells cids with
  | inl e => (Caught e false, s)
  | inr results => (Completed, publish cids results s)
  end.

Definition try_block (cids : list cid_t) (resource_needed : ResourceUsage)
    (timeout : Z) (s : CacheSlot) : TryOutcome * CacheSlot :=
  match dlist_ s with
  | Some d =>
      let '(reservation_success, d') :=
        reserveMemoryWithTimeout d resource_needed timeout in
      let s := log (with_dlist s (Some d'))
                   (EvReserve resource_needed reservation_success) in
      if reservation_success then load_cells cids s
      else (Caught InsufficientResource true, s)
  | None => load_cells cids s
  end.

(** the loop of the catch block *)
Fixpoint fail_cells (cids : list cid_t) (ew : ErrorCode) (s : CacheSlot)
    : CacheSlot :=
  match cids with
  | [] => s
  | cid :: rest =>
      fail_cells rest ew (log (update_cell cid (set_error ew) s) (EvSetError cid ew))
  end.

Definition RunLoad (cids : list cid_t) (resource_needed : ResourceUsage)
    (timeout : Z) (s : CacheSlot) : CacheSlot :=
  match try_block cids resource_needed timeout s with
  | (Completed, s) => s
  | (Caught ew reserve_resource_failure, s) =>
      let s := fail_cells cids ew s in
      match dlist_ s with
      | Some d =>
          if negb reserve_resource_failure
          then log (with_dlist s (Some (releaseMemory d resource_needed)))
                   (EvRelease resource_needed)
          else s
      | None => s
      end
  end.

(** The second loop of [PinInternal]: pin every cid, collect the cids
    whose pin asked for a load and add up their sizes. *)
Fixpoint pin_all (cids : list cid_t) (need_load_cids : list cid_t)
    (resource_needed : ResourceUsage) (s : CacheSlot)
    : list cid_t * ResourceUsage * CacheSlot :=
  match cids with
  | [] => (need_load_cids, resource_needed, s)
  | cid :: rest =>
      match cells_ s !! idx cid with
      | Some c =>
          let '(need_load, c') := pin c in
          let s := log (with_cells s (<[idx cid := c']> (cells_ s)))
                       (EvPin cid need_load) in
          if need_load
          then pin_all rest (set_insert cid need_load_cids)
                       (ru_add resource_needed (size_ c')) s
          else pin_all rest need_load_cids resource_needed s
      | None => pin_all rest need_load_cids resource_needed s
      end
  end.

(** What [SemiInlineGet(folly::collect(futures))] yields. *)
Inductive PinResult :=
| Accessor (pins : list cid_t)
| Throws (e : ErrorCode)
| Blocks.

Definition cell_state (s : CacheSlot) (cid : cid_t) : option State :=
  state_ <$> (cells_ s !! idx cid).

Definition first_error (cids : list cid_t) (s : CacheSlot) : option ErrorCode :=
  list_find (fun cid => cell_state s cid = Some ERROR) cids
    ≫= fun '(_, cid) => (cells_ s !! idx cid) ≫= error_.

Definition collect (cids : list cid_t) (s : CacheSlot) : PinResult :=
  if bool_decide (Exists (fun cid => cell_state s cid = Some ERROR) cids)
  then Throws (default UnknownError (first_error cids s))
  else if bool_decide (Forall (fun cid => cell_state s cid = Some LOADED) cids)
  then Accessor cids
  else Blocks.

(** Destruction of pin handles: every pin is released. *)
Fixpoint drop_pins (pins : list cid_t) (s : CacheSlot) : CacheSlot :=
  match pins with
  | [] => s
  | cid :: rest => drop_pins rest (log (update_cell cid unpin s) (EvUnpin cid))
  end.

(** The pins the futures still own when [collect] fails: those of the
    cells that did not end in ERROR (whose pin count was reset). *)
Definition held_pins (cids : list cid_t) (s : CacheSlot) : list cid_t :=
  filter (fun cid => cell_state s cid <> Some ERROR) cids.

(** the validation loop: [cid >= cells_.size()] *)
Definition cid_out_of_range (s : CacheSlot) (cid : cid_t) : bool :=
  Z.of_nat (length (cells_ s)) <=? to_size_t cid.

Definition PinInternal (cids : list cid_t) (timeout : Z) (s : CacheSlot)
    : PinResult * CacheSlot :=
  if existsb (cid_out_of_range s) cids then (Throws OutOfRange, s)
  else
    let '(need_load_cids, resource_needed, s) := pin_all cids [] ru_zero s in
    let s := match need_load_cids with
             | [] => s
             | _ => RunLoad need_load_cids resource_needed timeout s
             end in
    match collect cids s with
    | Throws e => (Throws e, drop_pins (held_pins cids s) s)
    | r => (r, s)
    end.

Definition PinCells (uids : list uid_t) (timeout : Z) (s : CacheSlot)
    : PinResult * CacheSlot :=
  PinInternal (involved_cids uids) timeout s.

Definition iota (n : nat) : list cid_t := map Z.of_nat (seq 0 n).

Definition PinAllCells (timeout : Z) (s : CacheSlot) : PinResult * CacheSlot :=
  PinInternal (iota (length (cells_ s))) timeout s.

Definition default_timeout : Z := 100000.

(** How a [void] member function ends. *)
Inductive Completion :=
| Returns
| Raises (e : ErrorCode)
| Hangs.

(** The statement [SemiInlineGet(PinCells(std::move(cids)));]: the
    accessor it yields is a temporary, destroyed (with its pins) at the
    end of the statement. *)
Definition pin_and_drop (uids : list uid_t) (s : CacheSlot)
    : Completion * CacheSlot :=
  match PinCells uids default_timeout s with
  | (Accessor pins, s) => (Returns, drop_pins pins s)
  | (Throws e, s) => (Raises e, s)
  | (Blocks, s) => (Hangs, s)
  end.

Definition Warmup (s : CacheSlot) : Completion * CacheSlot :=
  if decide (cache_warmup_policy = CacheWarmupPolicy_Disable)
  then (Returns, s)
  else pin_and_drop (iota num_cells) s.

(** ** Invariant and observations used by the properties *)

(** What the constructor establishes and no operation changes: one cell
    per cid, fewer than 2^63 of them (a [std::vector] cannot hold more),
    each sized by the translator's estimate. *)
Definition slot_wf (s : CacheSlot) : Prop :=
  length (cells_ s) = num_cells /\
  Z.of_nat num_cells < 2 ^ 63 /\
  forall i c, cells_ s !! i = Some c ->
              size_ c = estimated_byte_size_of_cell (Z.of_nat i).

(** The pin of [cid] in slot [s] would observe the NOT_LOADED -> LOADING
    edge. *)
Definition needs_load (s : CacheSlot) (cid : cid_t) : bool :=
  match cells_ s !! idx cid with
  | Some c => fst (pin c)
  | None => false
  end.

Definition need_load_subset (s : CacheSlot) (cids : list cid_t) : list cid_t :=
  filter (fun cid => needs_load s cid = true) cids.

(** [cells_[cid].size()] *)
Definition cell_size (s : CacheSlot) (cid : cid_t) : ResourceUsage :=
  match cells_ s !! idx cid with
  | Some c => size_ c
  | None => ru_zero
  end.

Definition cell_error (s : CacheSlot) (cid : cid_t) : option ErrorCode :=
  (cells_ s !! idx cid) ≫= error_.

(** What an event of a load for [cids] with [resource_needed] may be: no
    pin, a reservation of exactly [resource_needed], a [get_cells] over
    exactly [cids]. *)
Definition load_event_ok (resource_needed : ResourceUsage)
    (cids : list cid_t) (ev : Event) : Prop :=
  match ev with
  | EvPin _ _ => False
  | EvReserve amount _ => amount = resource_needed
  | EvGetCells l => l = cids
  | _ => True
  end.

Definition count_get_cells (evs : list Event) : nat :=
  length (filter (fun ev => is_get_cells ev = true) evs).

(** The events a call appended to the trace. *)
Definition events_since (s s' : CacheSlot) : list Event :=
  drop (length (trace s)) (trace s').

(** ** Manual eviction *)

(** [CacheCell::unload]: the payload is released. *)
Definition unload (c : CacheCell) : CacheCell :=
  mkCell (state_ c) (pin_count c) (size_ c) None (error_ c).

(** Modelled from the spec: [ListNode::manual_evict]: the cell is
    unloaded iff it is LOADED and not pinned, and is NOT_LOADED
    afterwards; the answer tells whether the eviction happened.  What
    [ListNode] tells the budget about the freed bytes is not part of this
    model. *)
Definition manual_evict (c : CacheCell) : bool * CacheCell :=
  if bool_decide (state_ c = LOADED) && (pin_count c =? 0)%nat
  then
    let c' := unload c in
    (true, mkCell NOT_LOADED (pin_count c') (size_ c') (cell_ c') (error_ c'))
  else (false, c).

(** [ManualEvict]: [cells_[cid]] is not bounds-checked; the call is
    defined ([Some]) for an index the vector has. *)
Definition ManualEvict (cid : cid_t) (s : CacheSlot) : option (bool * CacheSlot) :=
  match cells_ s !! idx cid with
  | Some c =>
      let '(evicted, c') := manual_evict c in
      Some (evicted, with_cells s (<[idx cid := c']> (cells_ s)))
  | None => None
  end.

(** the loop of [ManualEvictAll], carrying the flag [evicted] *)
Fixpoint evict_loop (cids : list cid_t) (evicted : bool) (s : CacheSlot)
    : bool * CacheSlot :=
  match cids with
  | [] => (evicted, s)
  | cid :: rest =>
      match ManualEvict cid s with
      | Some (true, s) => evict_loop rest true s
      | Some (false, s) => evict_loop rest evicted s
      | None => evict_loop rest evicted s
      end
  end.

Definition ManualEvictAll (s : CacheSlot) : bool * CacheSlot :=
  evict_loop (iota (length (cells_ s))) false s.

(** ** CellAccessor *)

(** [CellAccessor::get_ith_cell]: the pointer [cells_[cid].cell()], null
    ([None]) for a cell without payload. *)
Definition get_ith_cell (cid : cid_t) (s : CacheSlot) : option CellT :=
  (cells_ s !! idx cid) ≫= cell_.


(** ** Further observations *)

(** A LOADED cell has its payload. *)
Definition loaded_has_payload (s : CacheSlot) : Prop :=
  forall i c, cells_ s !! i = Some c -> state_ c = LOADED -> is_Some (cell_ c).

(** A cell [manual_evict] would unload. *)
Definition evictable (c : CacheCell) : bool :=
  bool_decide (state_ c = LOADED) && (pin_count c =? 0)%nat.

(** The pin count of the cell at index [i]. *)
Definition pin_count_at (s : CacheSlot) (i : nat) : option nat :=
  pin_count <$> (cells_ s !! i).

(** What no operation on a cell changes: its size, and that it has a
    payload when it is LOADED. *)
Definition same_shape (c c' : CacheCell) : Prop :=
  size_ c' = size_ c /\
  ((state_ c = LOADED -> is_Some (cell_ c)) ->
   state_ c' = LOADED -> is_Some (cell_ c')).

End Slot.

Arguments CacheCell : clear implicits.
Arguments CacheSlot : clear implicits.

(** ** A three-cell slot under a small budget *)
Module Scenario.

(** Modelled from the spec: [reserve_with_timeout] and [release] of the
    ResourceBudget, for a budget with an empty LRU whose waiters time
    out: the debit succeeds when both dimensions fit under the limit, and
    fails without debit otherwise. *)
Record Budget := mkBudget { used : ResourceUsage; limit : ResourceUsage }.

Definition fits (b : Budget) (need : ResourceUsage) : bool :=
  (memory_bytes (used b) + memory_bytes need <=? memory_bytes (limit b))
  && (file_bytes (used b) + file_bytes need <=? file_bytes (limit b)).

#[export] Instance budget_dlist : DList Budget := {|
  reserveMemoryWithTimeout b need _ :=
    if fits b need then (true, mkBudget (ru_add (used b) need) (limit b))
    else (false, b);
  releaseMemory b amount :=
    mkBudget (mkResourceUsage (memory_bytes (used b) - memory_bytes amount)
                              (file_bytes (used b) - file_bytes amount))
             (limit b)
|}.

Definition estimate (cid : cid_t) : ResourceUsage :=
  mkResourceUsage (100 * (cid + 1)) 0.

(** Cells carry their cid as payload. *)
Definition loader (policy : CacheWarmupPolicy) (mode : CellIdMappingMode)
    (fetch : list cid_t -> ErrorCode + list (cid_t * Z)) : Translator Z := {|
  num_cells := 3;
  cell_id_mapping_mode := mode;
  cache_warmup_policy := policy;
  estimated_byte_size_of_cell := estimate;
  translator_cell_id_of uid := uid mod 3;
  get_cells := fetch
|}.

Definition fetch_ok (cids : list cid_t) : ErrorCode + list (cid_t * Z) :=
  inr (map (fun cid => (cid, cid)) cids).
Definition fetch_fails (cids : list cid_t) : ErrorCode + list (cid_t * Z) :=
  inl FileReadFailed.

Definition tr_sync : Translator Z := loader CacheWarmupPolicy_Sync IDENTICAL fetch_ok.
Definition tr_broken : Translator Z :=
  loader CacheWarmupPolicy_Sync IDENTICAL fetch_fails.
Definition tr_unrecognized : Translator Z :=
  loader (CacheWarmupPolicy_Unrecognized 2) IDENTICAL fetch_ok.
Definition tr_zero : Translator Z :=
  loader CacheWarmupPolicy_Disable ALWAYS_ZERO fetch_ok.

Definition roomy : Budget := mkBudget ru_zero (mkResourceUsage 1000 0).
Definition tight : Budget := mkBudget ru_zero (mkResourceUsage 150 0).

Definition fresh (Tr : Translator Z) (b : Budget) : CacheSlot Z Budget :=
  @new_slot Z Budget Tr (Some b).

(** Cell 1 has been loaded by an earlier call and is unpinned. *)
Definition warm (Tr : Translator Z) (b : Budget) : CacheSlot Z Budget :=
  mkSlot (<[1%nat := mkCell LOADED 0 (estimate 1) (Some 1) None]>
            (cells_ (fresh Tr b)))
         (Some b) [].

(** Cells 0 and 2 are LOADING on behalf of the caller of [RunLoad]. *)
Definition loading (Tr : Translator Z) (b : Budget) : CacheSlot Z Budget :=
  mkSlot (cells_ (snd (@pin_all Z Budget [0; 2] [] ru_zero (warm Tr b))))
         (Some b) [].

End Scenario.

End CachingLayer.

(* ===================================================================== *)
Module UnaryExpr.

(** A [TargetBitmap] is its sequence of bits. *)
Abbreviation TargetBitmap := (list bool).

(** [TargetBitmap(n)] (all bits clear) and [TargetBitmap(n, v)]. *)
Definition bitmap_n (n : Z) (v : bool) : TargetBitmap := replicate (Z.to_nat n) v.

(** [result.append(src, pos, size)] into an empty [result]. *)
Definition slice (src : TargetBitmap) (pos size : Z) : TargetBitmap :=
  take (Z.to_nat size) (drop (Z.to_nat pos) src).

(** [res &= valid_res] on views of the same length: bit [i] of [res] is
    combined with bit [i] of the storage [valid_res] looks at. *)
Definition bitmap_and (res valid_res : TargetBitmap) : TargetBitmap :=
  imap (fun i b => b && default false (valid_res !! i)) res.

(** A [ColumnVector] of booleans: data bits and validity bits; a null
    [VectorPtr] is [None]. *)
Record ColumnVector := mkColumnVector {
  cv_data : TargetBitmap;
  cv_valid : TargetBitmap
}.
Definition VectorPtr := option ColumnVector.

Inductive OpType :=
| GreaterThan | GreaterEqual | LessThan | LessEqual | Equal | NotEqual
| PrefixMatch | PostfixMatch | InnerMatch | Match
| TextMatch | PhraseMatch.

#[global] Instance OpType_eq_dec : EqDecision OpType.
Proof. solve_decision. Defined.

Inductive DataType :=
| BOOL | INT8 | INT16 | INT32 | INT64 | FLOAT | DOUBLE
| VARCHAR | STRING | JSON | ARRAY | VECTOR_ARRAY.

#[global] Instance DataType_eq_dec : EqDecision DataType.
Proof. solve_decision. Defined.

(** The C++ types the executor templates are instantiated at. *)
Inductive CppType :=
| t_bool | t_int8 | t_int16 | t_int32 | t_int64 | t_float | t_double
| t_string | t_string_view | t_array.

#[global] Instance CppType_eq_dec : EqDecision CppType.
Proof. solve_decision. Defined.

Inductive SegmentType := Growing | Sealed.

#[global] Instance SegmentType_eq_dec : EqDecision SegmentType.
Proof. solve_decision. Defined.

(** [std::is_integral_v<T> && !std::is_same_v<T, bool>] *)
Definition integral_not_bool (T : CppType) : bool :=
  match T with
  | t_int8 | t_int16 | t_int32 | t_int64 => true
  | _ => false
  end.

(** [std::numeric_limits<T>::min()] and [max()] of the integral types. *)
Definition numeric_min (T : CppType) : Z :=
  match T with
  | t_int8 => - 2 ^ 7
  | t_int16 => - 2 ^ 15
  | t_int32 => - 2 ^ 31
  | t_int64 => - 2 ^ 63
  | _ => 0
  end.

Definition numeric_max (T : CppType) : Z :=
  match T with
  | t_bool => 1
  | t_int8 => 2 ^ 7 - 1
  | t_int16 => 2 ^ 15 - 1
  | t_int32 => 2 ^ 31 - 1
  | t_int64 => 2 ^ 63 - 1
  | _ => 0
  end.

(** Modelled from the spec: [milvus::query::gt_ub], [lt_lb] and
    [out_of_range] of [query/Utils.h]: the literal lies above the maximum,
    below the minimum, outside the representable range of [T]. *)
Definition gt_ub (T : CppType) (t : Z) : bool := numeric_max T <? t.
Definition lt_lb (T : CppType) (t : Z) : bool := t <? numeric_min T.
Definition out_of_range (T : CppType) (t : Z) : bool := gt_ub T t || lt_lb T t.

Definition int64_range (z : Z) : Prop := - 2 ^ 63 <= z < 2 ^ 63.

Definition UINT32_MAX : Z := 2 ^ 32 - 1.

(** [proto::plan::GenericValue]; a double is carried as its 64 bits. *)
#[local] Set Warnings "-register-all".
Inductive GenericValue :=
| BoolVal (b : bool)
| Int64Val (z : Z)
| FloatVal (bits : Z)
| StringVal (s : string)
| ArrayVal (elems : list GenericValue)
| ValNotSet.

Inductive ValCase :=
| kBoolVal | kInt64Val | kFloatVal | kStringVal | kArrayVal | VAL_NOT_SET.

Definition val_case (v : GenericValue) : ValCase :=
  match v with
  | BoolVal _ => kBoolVal
  | Int64Val _ => kInt64Val
  | FloatVal _ => kFloatVal
  | StringVal _ => kStringVal
  | ArrayVal _ => kArrayVal
  | ValNotSet => VAL_NOT_SET
  end.

Record ColumnInfo := mkColumnInfo {
  data_type_ : DataType;
  element_type_ : DataType;
  nested_path_ : list string
}.

(** The plan node [expr_]. *)
Record UnaryRangeFilterExpr := mkExpr {
  column_ : ColumnInfo;
  op_type_ : OpType;
  val_ : GenericValue;
  extra_values_ : list GenericValue
}.

Abbreviation OffsetVector := (list Z).

Record EvalCtx := mkEvalCtx {
  get_offset_input : option OffsetVector;
  get_bitmap_input : TargetBitmap
}.

(** What a data scan is instantiated at. *)
Inductive ScanKind :=
| ScalarScan (T : CppType)
| JsonScan (ExprValueType : CppType)
| ArrayScan (ValueType : CppType).

(** Calls that leave the executor: into the indexes and into the chunk
    iteration of [SegmentExpr]. *)
Inductive Call :=
| CallMatchQuery (query : string)
| CallPhraseMatchQuery (query : string) (slop : Z)
| CallNgramExecuteQuery (literal : string) (op : OpType)
| CallProcessIndexChunks (T : CppType) (op : OpType)
| CallJsonKeyIndex (ExprValueType : CppType)
| CallArrayIndex (T : CppType) (reverse : bool)
| CallProcessDataChunks (k : ScanKind)
| CallProcessDataByOffsets (k : ScanKind)
| CallProcessChunksForValid (T : CppType)
| CallProcessChunksForValidByOffsets (T : CppType).

(** The data-scan calls, as opposed to the text, n-gram and index ones. *)
Definition is_scan (c : Call) : bool :=
  match c with
  | CallProcessDataChunks _ | CallProcessDataByOffsets _
  | CallProcessIndexChunks _ _ | CallJsonKeyIndex _ | CallArrayIndex _ _ => true
  | _ => false
  end.

Definition is_fast_path (c : Call) : bool :=
  match c with
  | CallMatchQuery _ | CallPhraseMatchQuery _ _ | CallNgramExecuteQuery _ _
  | CallProcessIndexChunks _ _ | CallJsonKeyIndex _ | CallArrayIndex _ _ => true
  | _ => false
  end.

Definition is_text_query (c : Call) : bool :=
  match c with
  | CallMatchQuery _ | CallPhraseMatchQuery _ _ => true
  | _ => false
  end.

(** A computation returns or throws. *)
Inductive Res (A : Type) :=
| Ok (a : A)
| Throw (e : ErrorCode).
Arguments Ok {A} a.
Arguments Throw {A} e.

(** [ValueArg]: [SetValue<T>(v)] remembers the proto value read as a [T]. *)
Definition ValueArg := option (CppType * GenericValue).

Inductive ScalarIndexType := HYBRID | BITMAP | OTHER_INDEX.

(** What the executor consumes from [SegmentExpr], the segment and the
    indexes of the field.  [Cur] is the cursor state of [SegmentExpr]
    (chunk positions and [current_data_global_pos_]). *)
Class Segment (Cur : Type) := {
  GetNextBatchSize : Cur -> bool -> Z;
  MoveCursor : Cur -> bool -> Cur;
  current_data_global_pos_ : Cur -> Z;
  segment_type : SegmentType;
  growing_enable_mmap : bool;
  (* availability of indexes *)
  SegmentExpr_CanUseIndex : CppType -> OpType -> bool;
  CanUseNgramIndex : bool;
  CanUseNgramIndexForJson : bool;
  HasIndex : DataType -> bool;
  CanUseJsonKeyIndex : bool;
  (* [GetIndexType()] of the scalar index chunks from the current one on *)
  IndexTypesFromCursor : CppType -> Cur -> list ScalarIndexType;
  (* proto accessors *)
  GetValueFromProto_int64 : GenericValue -> Z;
  FromValCase : ValCase -> DataType;
  int64_to_double : Z -> Z;
  stoi : string -> Res Z;
  (* chunk iteration *)
  ProcessChunksForValid : CppType -> bool -> Cur -> TargetBitmap * Cur;
  ProcessChunksForValidByOffsets :
    CppType -> bool -> OffsetVector -> Cur -> TargetBitmap * Cur;
  ProcessDataChunks :
    ScanKind -> OpType -> ValueArg -> list string -> TargetBitmap -> Z ->
    Cur -> Res (Z * ColumnVector) * Cur;
  ProcessDataByOffsets :
    ScanKind -> OpType -> ValueArg -> list string -> TargetBitmap ->
    OffsetVector -> Cur -> Res (Z * ColumnVector) * Cur;
  ProcessIndexChunks :
    CppType -> OpType -> ValueArg -> Cur -> Res ColumnVector * Cur;
  JsonKeyIndexFilter :
    CppType -> OpType -> GenericValue -> list string -> Z -> Cur ->
    Res VectorPtr * Cur;
  ArrayIndexFilter :
    CppType -> bool -> GenericValue -> Cur -> Res VectorPtr * Cur;
  (* the text index of the field *)
  MatchQuery : string -> TargetBitmap;
  PhraseMatchQuery : string -> Z -> TargetBitmap;
  TextIsNotNull : TargetBitmap;
  (* the n-gram index of the field; the caller argument [this] of
     [ExecuteQuery] is left out: an index that declines answers before it
     calls back *)
  ExecuteQuery : string -> OpType -> option TargetBitmap;
  NgramIsNotNull : TargetBitmap
}.

Section Executor.
Context {Cur : Type} {Seg : Segment Cur}.

(** The members of [PhyUnaryRangeFilterExpr] the code reads and writes,
    with the calls made so far. *)
Record Phy := mkPhy {
  expr_ : UnaryRangeFilterExpr;
  is_index_mode_ : bool;
  active_count_ : Z;
  batch_size_ : Z;
  cur : Cur;
  has_offset_input_ : bool;
  use_index_ : bool;
  arg_inited_ : bool;
  value_arg_ : ValueArg;
  overflow_check_pos_ : Z;
  cached_match_res_ : option TargetBitmap;
  cached_ngram_match_res_ : option TargetBitmap;
  cached_index_chunk_valid_res_ : TargetBitmap;
  calls : list Call
}.

Definition M (A : Type) : Type := Phy -> Res A * Phy.

Definition ret {A} (a : A) : M A := fun st => (Ok a, st).
Definition throw {A} (e : ErrorCode) : M A := fun st => (Throw e, st).
Definition bind {A B} (m : M A) (k : A -> M B) : M B :=
  fun st => match m st with
            | (Ok a, st) => k a st
            | (Throw e, st) => (Throw e, st)
            end.
Definition get {A} (f : Phy -> A) : M A := fun st => (Ok (f st), st).
Definition modify (f : Phy -> Phy) : M unit := fun st => (Ok tt, f st).

Notation "x <- m ;; k" := (bind m (fun x => k))
  (at level 100, m at next level, right associativity).
Notation "m ;;; k" := (bind m (fun _ => k))
  (at level 100, right associativity).

(** Setters for the members that change. *)
Definition set_cur (c : Cur) (st : Phy) : Phy :=
  mkPhy (expr_ st) (is_index_mode_ st) (active_count_ st) (batch_size_ st)
    c (has_offset_input_ st) (use_index_ st) (arg_inited_ st)
    (value_arg_ st) (overflow_check_pos_ st) (cached_match_res_ st)
    (cached_ngram_match_res_ st) (cached_index_chunk_valid_res_ st) (calls st).
Definition SetHasOffsetInput (b : bool) (st : Phy) : Phy :=
  mkPhy (expr_ st) (is_index_mode_ st) (active_count_ st) (batch_size_ st)
    (cur st) b (use_index_ st) (arg_inited_ st)
    (value_arg_ st) (overflow_check_pos_ st) (cached_match_res_ st)
    (cached_ngram_match_res_ st) (cached_index_chunk_valid_res_ st) (calls st).
Definition set_use_index (b : bool) (st : Phy) : Phy :=
  mkPhy (expr_ st) (is_index_mode_ st) (active_count_ st) (batch_size_ st)
    (cur st) (has_offset_input_ st) b (arg_inited_ st)
    (value_arg_ st) (overflow_check_pos_ st) (cached_match_res_ st)
    (cached_ngram_match_res_ st) (cached_index_chunk_valid_res_ st) (calls st).
(** [value_arg_.SetValue<T>(v); arg_inited_ = true;] *)
Definition set_value_arg (T : CppType) (v : GenericValue) (st : Phy) : Phy :=
  mkPhy (expr_ st) (is_index_mode_ st) (active_count_ st) (batch_size_ st)
    (cur st) (has_offset_input_ st) (use_index_ st) true
    (Some (T, v)) (overflow_check_pos_ st) (cached_match_res_ st)
    (cached_ngram_match_res_ st) (cached_index_chunk_valid_res_ st) (calls st).
Definition set_overflow_check_pos (z : Z) (st : Phy) : Phy :=
  mkPhy (expr_ st) (is_index_mode_ st) (active_count_ st) (batch_size_ st)
    (cur st) (has_offset_input_ st) (use_index_ st) (arg_inited_ st)
    (value_arg_ st) z (cached_match_res_ st)
    (cached_ngram_match_res_ st) (cached_index_chunk_valid_res_ st) (calls st).
Definition set_cached_match (res valid : TargetBitmap) (st : Phy) : Phy :=
  mkPhy (expr_ st) (is_index_mode_ st) (active_count_ st) (batch_size_ st)
    (cur st) (has_offset_input_ st) (use_index_ st) (arg_inited_ st)
    (value_arg_ st) (overflow_check_pos_ st) (Some res)
    (cached_ngram_match_res_ st) valid (calls st).
Definition set_cached_ngram (res valid : TargetBitmap) (st : Phy) : Phy :=
  mkPhy (expr_ st) (is_index_mode_ st) (active_count_ st) (batch_size_ st)
    (cur st) (has_offset_input_ st) (use_index_ st) (arg_inited_ st)
    (value_arg_ st) (overflow_check_pos_ st) (cached_match_res_ st)
    (Some res) valid (calls st).
Definition record_call (c : Call) (st : Phy) : Phy :=
  mkPhy (expr_ st) (is_index_mode_ st) (active_count_ st) (batch_size_ st)
    (cur st) (has_offset_input_ st) (use_index_ st) (arg_inited_ st)
    (value_arg_ st) (overflow_check_pos_ st) (cached_match_res_ st)
    (cached_ngram_match_res_ st) (cached_index_chunk_valid_res_ st)
    (calls st ++ [c]).

(** A call into [SegmentExpr] that moves the cursor. *)
Definition on_cursor {A} (c : Call) (f : Cur -> A * Cur) : M A :=
  fun st =>
    let st := record_call c st in
    let '(a, cur') := f (cur st) in (Ok a, set_cur cur' st).

Definition on_cursor_res {A} (c : Call) (f : Cur -> Res A * Cur) : M A :=
  fun st =>
    let st := record_call c st in
    let '(r, cur') := f (cur st) in (r, set_cur cur' st).

(** [if (!arg_inited_) { value_arg_.SetValue<T>(expr_->val_); arg_inited_ = true; }] *)
Definition init_arg (T : CppType) : M unit :=
  fun st =>
    if arg_inited_ st then (Ok tt, st)
    else (Ok tt, set_value_arg T (val_ (expr_ st)) st).

(** [value_arg_.GetValue<std::string>()]: the string the proto carries
    (empty when it carries none). *)
Definition GetValue_string (a : ValueArg) : string :=
  match a with
  | Some (_, StringVal s) => s
  | _ => EmptyString
  end.

Definition next_batch_size : M Z :=
  get (fun st => GetNextBatchSize (cur st) (use_index_ st)).

Definition move_cursor : M unit :=
  modify (fun st => set_cur (MoveCursor (cur st) (use_index_ st)) st).

(** [AssertInfo(cond, ...)] *)
Definition AssertInfo (cond : bool) : M unit :=
  if cond then ret tt else throw UnknownError.

(** [conditional_t<is_same_v<T, string_view>, string, T>] *)
Definition IndexInnerType (T : CppType) : CppType :=
  match T with t_string_view => t_string | _ => T end.

(** ** PreCheckOverflow *)

Definition PreCheckOverflow (T : CppType) (input : option OffsetVector)
    : M (option ColumnVector) :=
  if integral_not_bool T then
    expr <- get expr_ ;;
    let val := GetValueFromProto_int64 (val_ expr) in
    if out_of_range T val then
      batch_size <-
        match input with
        | Some offsets => ret (Z.of_nat (length offsets))
        | None =>
            pos <- get overflow_check_pos_ ;;
            bs <- get batch_size_ ;;
            active <- get active_count_ ;;
            let batch_size :=
              if active <=? pos + bs then active - pos else bs in
            modify (set_overflow_check_pos (pos + batch_size)) ;;;
            ret batch_size
        end ;;
      index_mode <- get is_index_mode_ ;;
      valid <-
        match input with
        | Some offsets =>
            on_cursor (CallProcessChunksForValidByOffsets T)
              (ProcessChunksForValidByOffsets T index_mode offsets)
        | None =>
            on_cursor (CallProcessChunksForValid T)
              (ProcessChunksForValid T index_mode)
        end ;;
      let res := bitmap_n batch_size false in
      let all_set := bitmap_n batch_size true in
      match op_type_ expr with
      | GreaterThan | GreaterEqual =>
          if lt_lb T val
          then ret (Some (mkColumnVector (bitmap_and all_set valid) valid))
          else ret (Some (mkColumnVector res valid))
      | LessThan | LessEqual =>
          if gt_ub T val
          then ret (Some (mkColumnVector (bitmap_and all_set valid) valid))
          else ret (Some (mkColumnVector res valid))
      | Equal =>
          ret (Some (mkColumnVector (bitmap_n batch_size false) valid))
      | NotEqual =>
          ret (Some (mkColumnVector (bitmap_and all_set valid) valid))
      | _ => throw OpTypeInvalid
      end
    else ret None
  else ret None.

(** ** The index-scan path *)

Definition ExecRangeVisitorImplForIndex (T : CppType) : M VectorPtr :=
  init_arg (IndexInnerType T) ;;;
  pre <- PreCheckOverflow T None ;;
  match pre with
  | Some res => ret (Some res)
  | None =>
      real_batch_size <- next_batch_size ;;
      if real_batch_size =? 0 then ret None
      else
        op_type <- get (fun st => op_type_ (expr_ st)) ;;
        val <- get value_arg_ ;;
        res <- on_cursor_res (CallProcessIndexChunks T op_type)
                 (ProcessIndexChunks T op_type val) ;;
        AssertInfo (Z.of_nat (length (cv_data res)) =? real_batch_size) ;;;
        ret (Some res)
  end.

(** ** The data-scan path *)

Definition input_size (input : option OffsetVector) : Z :=
  match input with
  | Some offsets => Z.of_nat (length offsets)
  | None => 0
  end.

(** The scan proper: [ProcessDataByOffsets] or [ProcessDataChunks] run
    the sub-batch kernel of kind [k] for literal [val] over the rows of
    the batch, then the size of what was processed is checked. *)
Definition scan_data (k : ScanKind) (val : ValueArg) (context : EvalCtx)
    (real_batch_size : Z) : M VectorPtr :=
  expr <- get expr_ ;;
  has_offset_input <- get has_offset_input_ ;;
  r <- (if has_offset_input
        then on_cursor_res (CallProcessDataByOffsets k)
               (ProcessDataByOffsets k (op_type_ expr) val
                  (nested_path_ (column_ expr)) (get_bitmap_input context)
                  (default [] (get_offset_input context)))
        else on_cursor_res (CallProcessDataChunks k)
               (ProcessDataChunks k (op_type_ expr) val
                  (nested_path_ (column_ expr)) (get_bitmap_input context)
                  real_batch_size)) ;;
  let '(processed_size, res_vec) := r in
  AssertInfo (processed_size =? real_batch_size) ;;;
  ret (Some res_vec).

Definition real_batch_size_of (context : EvalCtx) : M Z :=
  has_offset_input <- get has_offset_input_ ;;
  if has_offset_input then ret (input_size (get_offset_input context))
  else next_batch_size.

Definition ExecRangeVisitorImplForData (T : CppType) (context : EvalCtx)
    : M VectorPtr :=
  pre <- PreCheckOverflow T (get_offset_input context) ;;
  match pre with
  | Some res => ret (Some res)
  | None =>
      real_batch_size <- real_batch_size_of context ;;
      if real_batch_size =? 0 then ret None
      else
        init_arg (IndexInnerType T) ;;;
        val <- get (fun st => val_ (expr_ st)) ;;
        scan_data (ScalarScan T) (Some (IndexInnerType T, val))
          context real_batch_size
  end.

(** [CanUseIndex<T>] *)
Definition CanUseIndex (T : CppType) : M bool :=
  fun st =>
    let b := is_index_mode_ st && SegmentExpr_CanUseIndex T (op_type_ (expr_ st)) in
    (Ok b, set_use_index b st).

(** ** Text and phrase match *)

Definition text_query (op_type : OpType) (query : string) (slop : Z)
    : M TargetBitmap :=
  match op_type with
  | TextMatch =>
      modify (record_call (CallMatchQuery query)) ;;;
      ret (MatchQuery query)
  | PhraseMatch =>
      modify (record_call (CallPhraseMatchQuery query slop)) ;;;
      ret (PhraseMatchQuery query slop)
  | _ => throw OpTypeInvalid
  end.

(** The slop of a phrase match, checked to lie in [0, UINT32_MAX]. *)
Definition checked_slop : M Z :=
  expr <- get expr_ ;;
  if decide (op_type_ expr = PhraseMatch) then
    let slop :=
      match extra_values_ expr with
      | v :: _ => GetValueFromProto_int64 v
      | [] => 0
      end in
    if (slop <? 0) || (UINT32_MAX <? slop)
    then throw InvalidParameter
    else ret slop
  else ret 0.

(** The block [if (cached_match_res_ == nullptr) { ... }]. *)
Definition materialize_text_match (query : string) (slop : Z) : M unit :=
  cached <- get cached_match_res_ ;;
  match cached with
  | Some _ => ret tt
  | None =>
      op_type <- get (fun st => op_type_ (expr_ st)) ;;
      res <- text_query op_type query slop ;;
      let valid_res := TextIsNotNull in
      active <- get active_count_ ;;
      if Z.of_nat (length res) <? active then
        let tail := bitmap_n (active - Z.of_nat (length res)) false in
        modify (set_cached_match (res ++ tail) (valid_res ++ tail))
      else modify (set_cached_match res valid_res)
  end.

(** The batch cut out of a cached whole-segment result, after which the
    cursor moves. *)
Definition slice_batch (cached : Phy -> option TargetBitmap)
    (real_batch_size : Z) : M VectorPtr :=
  cached_res <- get cached ;;
  cached_valid <- get cached_index_chunk_valid_res_ ;;
  pos <- get (fun st => current_data_global_pos_ (cur st)) ;;
  let result := slice (default [] cached_res) pos real_batch_size in
  let valid_result := slice cached_valid pos real_batch_size in
  move_cursor ;;;
  ret (Some (mkColumnVector result valid_result)).

Definition ExecTextMatch : M VectorPtr :=
  init_arg t_string ;;;
  query <- get (fun st => GetValue_string (value_arg_ st)) ;;
  slop <- checked_slop ;;
  real_batch_size <- next_batch_size ;;
  if real_batch_size =? 0 then ret None
  else
    materialize_text_match query slop ;;;
    slice_batch cached_match_res_ real_batch_size.

(** ** N-gram match *)

Definition is_ngram_op (op_type : OpType) : bool :=
  match op_type with
  | InnerMatch | Match | PrefixMatch | PostfixMatch => true
  | _ => false
  end.

Definition CanExecNgramMatch (op_type : OpType) : M bool :=
  get (fun st => is_ngram_op op_type && negb (has_offset_input_ st)
                 && CanUseNgramIndex).

Definition is_string_type (d : DataType) : bool :=
  match d with STRING | VARCHAR => true | _ => false end.

Definition CanExecNgramMatchForJson (val_type : DataType) : M bool :=
  get (fun st => is_string_type val_type
                 && is_ngram_op (op_type_ (expr_ st))
                 && negb (has_offset_input_ st)
                 && CanUseNgramIndexForJson).

(** The block [if (cached_ngram_match_res_ == nullptr) { ... }]; [true]
    when the index declined and the function returns [std::nullopt]. *)
Definition materialize_ngram_match (literal : string) : M bool :=
  cached <- get cached_ngram_match_res_ ;;
  match cached with
  | Some _ => ret false
  | None =>
      op_type <- get (fun st => op_type_ (expr_ st)) ;;
      modify (record_call (CallNgramExecuteQuery literal op_type)) ;;;
      match ExecuteQuery literal op_type with
      | None => ret true
      | Some res =>
          modify (set_cached_ngram res NgramIsNotNull) ;;;
          ret false
      end
  end.

(** [std::optional<VectorPtr>]: [None] is [std::nullopt]. *)
Definition ExecNgramMatch : M (option ColumnVector) :=
  init_arg t_string ;;;
  literal <- get (fun st => GetValue_string (value_arg_ st)) ;;
  real_batch_size <- next_batch_size ;;
  if real_batch_size =? 0 then ret None
  else
    declined <- materialize_ngram_match literal ;;
    if declined : bool then ret None
    else slice_batch cached_ngram_match_res_ real_batch_size.

(** ** Dispatch over a scalar column *)

(** The tail of [ExecRangeVisitorImpl]: index scan or data scan. *)
Definition normal_path (T : CppType) (context : EvalCtx) : M VectorPtr :=
  can_use_index <- CanUseIndex T ;;
  has_offset_input <- get has_offset_input_ ;;
  if can_use_index && negb has_offset_input
  then ExecRangeVisitorImplForIndex T
  else ExecRangeVisitorImplForData T context.

Definition ExecRangeVisitorImpl (T : CppType) (context : EvalCtx)
    : M VectorPtr :=
  op_type <- get (fun st => op_type_ (expr_ st)) ;;
  if decide (op_type = TextMatch \/ op_type = PhraseMatch) then
    has_offset_input <- get has_offset_input_ ;;
    if has_offset_input then throw OpTypeInvalid
    else ExecTextMatch
  else
    can_ngram <- CanExecNgramMatch op_type ;;
    res <- (if can_ngram then ExecNgramMatch else ret None) ;;
    match res with
    | Some v => ret (Some v)
    | None => normal_path T context
    end.

(** ** ARRAY columns *)

(** [CanUseIndexForArray<T>] for an element type [T]. *)
Definition CanUseIndexForArray_elem (T : CppType) : M bool :=
  get (fun st =>
         forallb (fun ty => match ty with
                            | HYBRID | BITMAP => false
                            | OTHER_INDEX => true
                            end)
                 (IndexTypesFromCursor (IndexInnerType T) (cur st))).

(** [CanUseIndexForArray<milvus::Array>] *)
Definition CanUseIndexForArray : M bool :=
  index_mode <- get is_index_mode_ ;;
  if negb index_mode then modify (set_use_index false) ;;; ret false
  else
    element_type <- get (fun st => element_type_ (column_ (expr_ st))) ;;
    res <- match element_type with
           | BOOL => CanUseIndexForArray_elem t_bool
           | INT8 => CanUseIndexForArray_elem t_int8
           | INT16 => CanUseIndexForArray_elem t_int16
           | INT32 => CanUseIndexForArray_elem t_int32
           | INT64 => CanUseIndexForArray_elem t_int64
           | FLOAT | DOUBLE => ret false
           | VARCHAR | STRING => CanUseIndexForArray_elem t_string_view
           | _ => throw DataTypeInvalid
           end ;;
    modify (set_use_index res) ;;;
    ret res.

Definition ExecRangeVisitorImplArray (ValueType : CppType) (context : EvalCtx)
    : M VectorPtr :=
  real_batch_size <- real_batch_size_of context ;;
  if real_batch_size =? 0 then ret None
  else
    init_arg ValueType ;;;
    nested_path <- get (fun st => nested_path_ (column_ (expr_ st))) ;;
    match nested_path with
    | p :: _ => fun st => (match stoi p with
                           | Ok _ => Ok tt
                           | Throw e => Throw e
                           end, st)
    | [] => ret tt
    end ;;;
    val <- get value_arg_ ;;
    scan_data (ArrayScan ValueType) val context real_batch_size.

Definition array_size (v : GenericValue) : nat :=
  match v with ArrayVal elems => length elems | _ => 0%nat end.

(** [ExecArrayEqualForIndex<T>]; the candidate filtering through the
    scalar index is the interface function [ArrayIndexFilter]. *)
Definition ExecArrayEqualForIndex (T : CppType) (context : EvalCtx)
    (reverse : bool) : M VectorPtr :=
  real_batch_size <- next_batch_size ;;
  if real_batch_size =? 0 then ret None
  else
    val <- get (fun st => val_ (expr_ st)) ;;
    if (array_size val =? 0)%nat
    then ExecRangeVisitorImplArray t_array context
    else on_cursor_res (CallArrayIndex T reverse)
           (ArrayIndexFilter (IndexInnerType T) reverse val).

(** [ExecRangeVisitorImplArrayForIndex<proto::plan::Array>] *)
Definition ExecRangeVisitorImplArrayForIndex (context : EvalCtx) : M VectorPtr :=
  expr <- get expr_ ;;
  let reverse := bool_decide (op_type_ expr = NotEqual) in
  match op_type_ expr with
  | Equal | NotEqual =>
      match element_type_ (column_ expr) with
      | BOOL => ExecArrayEqualForIndex t_bool context reverse
      | INT8 => ExecArrayEqualForIndex t_int8 context reverse
      | INT16 => ExecArrayEqualForIndex t_int16 context reverse
      | INT32 => ExecArrayEqualForIndex t_int32 context reverse
      | INT64 => ExecArrayEqualForIndex t_int64 context reverse
      | FLOAT | DOUBLE => ExecRangeVisitorImplArray t_array context
      | VARCHAR =>
          if decide (segment_type = Growing)
          then ExecArrayEqualForIndex t_string context reverse
          else ExecArrayEqualForIndex t_string_view context reverse
      | _ => throw DataTypeInvalid
      end
  | _ => ExecRangeVisitorImplArray t_array context
  end.

(** ** JSON columns *)

(** [ExecRangeVisitorImplJsonForIndex<ExprValueType>]; the filter through
    the JSON key index is the interface function [JsonKeyIndexFilter]. *)
Definition ExecRangeVisitorImplJsonForIndex (ExprValueType : CppType)
    : M VectorPtr :=
  real_batch_size <- next_batch_size ;;
  if real_batch_size =? 0 then ret None
  else
    expr <- get expr_ ;;
    on_cursor_res (CallJsonKeyIndex ExprValueType)
      (JsonKeyIndexFilter ExprValueType (op_type_ expr) (val_ expr)
         (nested_path_ (column_ expr)) real_batch_size).

(** The data scan of [ExecRangeVisitorImplJson], after the test for a
    JSON key index. *)
Definition ExecRangeVisitorImplJson_scan (ExprValueType : CppType)
    (context : EvalCtx) : M VectorPtr :=
  real_batch_size <- real_batch_size_of context ;;
  if real_batch_size =? 0 then ret None
  else
    init_arg ExprValueType ;;;
    val <- get value_arg_ ;;
    scan_data (JsonScan ExprValueType) val context real_batch_size.

Definition ExecRangeVisitorImplJson (ExprValueType : CppType)
    (context : EvalCtx) : M VectorPtr :=
  has_offset_input <- get has_offset_input_ ;;
  if CanUseJsonKeyIndex && negb has_offset_input
  then ExecRangeVisitorImplJsonForIndex ExprValueType
  else ExecRangeVisitorImplJson_scan ExprValueType context.

(** [CanUseIndexForJson] *)
Definition CanUseIndexForJson (val_type : DataType) : M bool :=
  fun st =>
    let has_index := HasIndex val_type in
    let op := op_type_ (expr_ st) in
    let b :=
      if is_string_type val_type
      then has_index && negb (bool_decide (op = Match))
           && negb (bool_decide (op = PostfixMatch))
           && negb (bool_decide (op = InnerMatch))
      else has_index in
    (Ok b, set_use_index b st).

(** ** Eval *)

Definition Eval_json (context : EvalCtx) : M VectorPtr :=
  expr <- get expr_ ;;
  let val_type := val_case (val_ expr) in
  let val_type_inner := FromValCase val_type in
  can_ngram <- CanExecNgramMatchForJson val_type_inner ;;
  has_offset_input <- get has_offset_input_ ;;
  res <- (if can_ngram && negb has_offset_input
          then ExecNgramMatch else ret None) ;;
  match res with
  | Some v => ret (Some v)
  | None =>
      can_use_index <- CanUseIndexForJson val_type_inner ;;
      if can_use_index && negb has_offset_input then
        match val_ expr with
        | BoolVal _ => ExecRangeVisitorImplForIndex t_bool
        | Int64Val z =>
            modify (set_value_arg t_double (FloatVal (int64_to_double z))) ;;;
            ExecRangeVisitorImplForIndex t_double
        | FloatVal _ => ExecRangeVisitorImplForIndex t_double
        | StringVal _ => ExecRangeVisitorImplForIndex t_string
        | _ => throw DataTypeInvalid
        end
      else
        match val_type with
        | kBoolVal => ExecRangeVisitorImplJson t_bool context
        | kInt64Val => ExecRangeVisitorImplJson t_int64 context
        | kFloatVal => ExecRangeVisitorImplJson t_double context
        | kStringVal => ExecRangeVisitorImplJson t_string context
        | kArrayVal => ExecRangeVisitorImplJson t_array context
        | VAL_NOT_SET => throw DataTypeInvalid
        end
  end.

Definition Eval_array (context : EvalCtx) : M VectorPtr :=
  expr <- get expr_ ;;
  match val_case (val_ expr) with
  | kBoolVal =>
      modify (set_use_index false) ;;; ExecRangeVisitorImplArray t_bool context
  | kInt64Val =>
      modify (set_use_index false) ;;; ExecRangeVisitorImplArray t_int64 context
  | kFloatVal =>
      modify (set_use_index false) ;;; ExecRangeVisitorImplArray t_double context
  | kStringVal =>
      modify (set_use_index false) ;;; ExecRangeVisitorImplArray t_string context
  | kArrayVal =>
      has_offset_input <- get has_offset_input_ ;;
      can_use_index <- (if negb has_offset_input then CanUseIndexForArray
                        else ret false) ;;
      if can_use_index then ExecRangeVisitorImplArrayForIndex context
      else ExecRangeVisitorImplArray t_array context
  | VAL_NOT_SET => throw DataTypeInvalid
  end.

Definition Eval (context : EvalCtx) : M VectorPtr :=
  modify (SetHasOffsetInput
            (bool_decide (get_offset_input context <> None))) ;;;
  data_type <- get (fun st => data_type_ (column_ (expr_ st))) ;;
  match data_type with
  | BOOL => ExecRangeVisitorImpl t_bool context
  | INT8 => ExecRangeVisitorImpl t_int8 context
  | INT16 => ExecRangeVisitorImpl t_int16 context
  | INT32 => ExecRangeVisitorImpl t_int32 context
  | INT64 => ExecRangeVisitorImpl t_int64 context
  | FLOAT => ExecRangeVisitorImpl t_float context
  | DOUBLE => ExecRangeVisitorImpl t_double context
  | VARCHAR =>
      if bool_decide (segment_type = Growing) && negb growing_enable_mmap
      then ExecRangeVisitorImpl t_string context
      else ExecRangeVisitorImpl t_string_view context
  | JSON => Eval_json context
  | ARRAY => Eval_array context
  | _ => throw DataTypeInvalid
  end.

End Executor.

(** ** The JSON sub-batch kernel of [ExecRangeVisitorImplJson] *)

(** [milvus::Json] rows are read through typed pointer lookups; a lookup
    whose result has [error()] is [None].  Comparisons of doubles and the
    pattern matchers come from other files. *)
Class JsonDoc (Json JArr : Type) := {
  at_bool : Json -> string -> option bool;
  at_int64 : Json -> string -> option Z;
  at_double : Json -> string -> option Z;
  at_string : Json -> string -> option string;
  (* [doc().at_pointer(pointer).get_array()] *)
  at_array : Json -> string -> option JArr;
  CompareTwoJsonArray : JArr -> list GenericValue -> bool;
  (* [x OP val] on two doubles, and on a double and an int64 *)
  double_cmp : OpType -> Z -> Z -> bool;
  double_cmp_int64 : OpType -> Z -> Z -> bool;
  (* [milvus::query::Match] and the regex matcher of a LIKE pattern *)
  query_Match : OpType -> GenericValue -> GenericValue -> bool
}.

Inductive FilterType := sequential | random.

Section JsonKernel.
Context {Json JArr : Type} {JD : JsonDoc Json JArr}.

(** [x OP val] from the three-way comparison of [x] and [val]. *)
Definition op_holds (op : OpType) (c : comparison) : bool :=
  match op, c with
  | GreaterThan, Gt => true
  | GreaterEqual, (Gt | Eq) => true
  | LessThan, Lt => true
  | LessEqual, (Lt | Eq) => true
  | Equal, Eq => true
  | NotEqual, (Lt | Gt) => true
  | _, _ => false
  end.

(** The expression [cmp] of the macros: [x] is what the lookup gave. *)
Definition cmp (op : OpType) (x val : GenericValue) : bool :=
  match op with
  | PrefixMatch | PostfixMatch | InnerMatch | Match => query_Match op x val
  | _ =>
      match x, val with
      | BoolVal a, BoolVal b => op_holds op (Bool.compare a b)
      | Int64Val a, Int64Val b => op_holds op (a ?= b)
      | FloatVal a, Int64Val b => double_cmp_int64 op a b
      | FloatVal a, FloatVal b => double_cmp op a b
      | StringVal a, StringVal b => op_holds op (String.compare a b)
      | _, _ => false
      end
  end.

(** [data[offset].template at<GetType>(pointer)], [GetType] being the
    type of the literal. *)
Definition at_GetType (val : GenericValue) (doc : Json) (pointer : string)
    : option GenericValue :=
  match val with
  | BoolVal _ => BoolVal <$> at_bool doc pointer
  | Int64Val _ => Int64Val <$> at_int64 doc pointer
  | FloatVal _ => FloatVal <$> at_double doc pointer
  | StringVal _ => StringVal <$> at_string doc pointer
  | _ => None
  end.

Definition is_int64 (val : GenericValue) : bool :=
  match val with Int64Val _ => true | _ => false end.


(** [UnaryRangeJSONCompare(cmp)]: the value written to [res[i]]. *)
Definition UnaryRangeJSONCompare (op : OpType) (val : GenericValue)
    (doc : Json) (pointer : string) : bool :=
  match at_GetType val doc pointer with
  | None =>
      if is_int64 val then
        match at_double doc pointer with
        | Some x => cmp op (FloatVal x) val
        | None => false
        end
      else false
  | Some x => cmp op x val
  end.

(** [UnaryRangeJSONCompareNotEqual(cmp)] *)
Definition UnaryRangeJSONCompareNotEqual (op : OpType) (val : GenericValue)
    (doc : Json) (pointer : string) : bool :=
  match at_GetType val doc pointer with
  | None =>
      if is_int64 val then
        match at_double doc pointer with
        | Some x => cmp op (FloatVal x) val
        | None => true
        end
      else true
  | Some x => cmp op x val
  end.

(** The batch the kernel works on. *)
Record SubBatch := mkSubBatch {
  sb_data : list Json;
  sb_valid_data : option (list bool);
  sb_offsets : option (list Z);
  sb_size : nat
}.

(** The body of the [for] loops for row [i], after the two [continue]
    tests: the bit written to [res[i]].  With an array literal the row is
    read at [data[i]]. *)
Definition row_bit (op : OpType) (val : GenericValue) (pointer : string)
    (b : SubBatch) (i offset : nat) (old : bool) : bool :=
  match val with
  | ArrayVal elems =>
      match op with
      | Equal =>
          match sb_data b !! i with
          | Some doc =>
              match at_array doc pointer with
              | None => false
              | Some array => CompareTwoJsonArray array elems
              end
          | None => old
          end
      | NotEqual =>
          match sb_data b !! i with
          | Some doc =>
              match at_array doc pointer with
              | None => false
              | Some array => negb (CompareTwoJsonArray array elems)
              end
          | None => old
          end
      | _ => false
      end
  | _ =>
      match sb_data b !! offset with
      | Some doc =>
          match op with
          | NotEqual => UnaryRangeJSONCompareNotEqual op val doc pointer
          | _ => UnaryRangeJSONCompare op val doc pointer
          end
      | None => old
      end
  end.

(** One iteration of the loop. *)
Definition row_step (ft : FilterType) (op : OpType) (val : GenericValue)
    (pointer : string) (bitmap_input : TargetBitmap) (processed_cursor : nat)
    (b : SubBatch) (rv : TargetBitmap * TargetBitmap) (i : nat)
    : TargetBitmap * TargetBitmap :=
  let '(res, valid_res) := rv in
  let offset :=
    match ft, sb_offsets b with
    | random, Some offsets => Z.to_nat (default 0 (offsets !! i))
    | _, _ => i
    end in
  let row_is_null :=
    match sb_valid_data b with
    | Some valid_data => negb (default true (valid_data !! offset))
    | None => false
    end in
  if row_is_null then (<[i := false]> res, <[i := false]> valid_res)
  else
    let has_bitmap_input := negb (bool_decide (bitmap_input = [])) in
    if has_bitmap_input
       && negb (default false (bitmap_input !! (i + processed_cursor)%nat))
    then (res, valid_res)
    else
      (<[i := row_bit op val pointer b i offset (default false (res !! i))]> res,
       valid_res).

(** [execute_sub_batch]: the views [res] and [valid_res] after the call
    and the advanced [processed_cursor]. *)
Definition execute_sub_batch (ft : FilterType) (op : OpType)
    (val : GenericValue) (pointer : string) (bitmap_input : TargetBitmap)
    (processed_cursor : nat) (b : SubBatch)
    (res valid_res : TargetBitmap)
    : Res (TargetBitmap * TargetBitmap * nat) :=
  match op with
  | TextMatch | PhraseMatch => Throw OpTypeInvalid
  | _ =>
      let '(res, valid_res) :=
        fold_left (row_step ft op val pointer bitmap_input processed_cursor b)
                  (seq 0 (sb_size b)) (res, valid_res) in
      Ok (res, valid_res, (processed_cursor + sb_size b)%nat)
  end.

(** *** Observations on a row *)

(** The row of [data] that iteration [i] reads. *)
Definition row_offset (ft : FilterType) (b : SubBatch) (i : nat) : nat :=
  match ft, sb_offsets b with
  | random, Some offsets => Z.to_nat (default 0 (offsets !! i))
  | _, _ => i
  end.

(** [valid_data != nullptr && !valid_data[offset]] *)
Definition row_is_null (ft : FilterType) (b : SubBatch) (i : nat) : bool :=
  match sb_valid_data b with
  | Some valid_data => negb (default true (valid_data !! row_offset ft b i))
  | None => false
  end.

(** [has_bitmap_input && !bitmap_input[i + processed_cursor]] *)
Definition row_is_skipped (bitmap_input : TargetBitmap) (processed_cursor i : nat)
    : bool :=
  negb (bool_decide (bitmap_input = []))
  && negb (default false (bitmap_input !! (i + processed_cursor)%nat)).

End JsonKernel.

(** ** SplitAtFirstSlashDigit *)

(** [\d] on a [char] string. *)
Definition is_digit (c : Ascii.ascii) : bool :=
  (48 <=? Ascii.nat_of_ascii c)%nat && (Ascii.nat_of_ascii c <=? 57)%nat.

(** The character [/]. *)
Definition slash : Ascii.ascii := Ascii.ascii_of_nat 47.

(** A match of the regular expression [/\d+] starts at the head of [s]. *)
Definition starts_slash_digit (s : string) : bool :=
  match s with
  | String c (String d _) => Ascii.eqb c slash && is_digit d
  | _ => false
  end.

(** [SplitAtFirstSlashDigit]: [boost::regex_search] finds the leftmost
    match of [/\d+]; the input is cut where it starts, and is returned
    whole, with an empty second part, when there is none. *)
Fixpoint SplitAtFirstSlashDigit (input : string) : string * string :=
  match input with
  | EmptyString => (EmptyString, EmptyString)
  | String c rest =>
      if starts_slash_digit input then (EmptyString, input)
      else
        let '(firstPart, secondPart) := SplitAtFirstSlashDigit rest in
        (String c firstPart, secondPart)
  end.

(** ** Observations used by the properties *)

Section Observations.
Context {Cur : Type} {Seg : Segment Cur}.

(** The calls an evaluation appended. *)
Definition calls_since (st st' : @Phy Cur) : list Call :=
  drop (length (calls st)) (calls st').

(** "All-true masked by the valid bitmap": every data bit is the valid
    bit of its row. *)
Definition masked_by_valid (cv : ColumnVector) : Prop :=
  forall i, (i < length (cv_data cv))%nat ->
            cv_data cv !! i = Some (default false (cv_valid cv !! i)).

Definition all_false (cv : ColumnVector) : Prop :=
  forall i, (i < length (cv_data cv))%nat -> cv_data cv !! i = Some false.

Definition is_comparison (op : OpType) : bool :=
  match op with
  | GreaterThan | GreaterEqual | LessThan | LessEqual | Equal | NotEqual => true
  | _ => false
  end.

(** What the overflow pre-check answers for a literal outside the range
    of [T]. *)
Definition overflow_verdict (T : CppType) (op : OpType) (val : Z)
    (cv : ColumnVector) : Prop :=
  ((op = GreaterThan \/ op = GreaterEqual) -> lt_lb T val = true ->
   masked_by_valid cv) /\
  ((op = LessThan \/ op = LessEqual) -> gt_ub T val = true ->
   masked_by_valid cv) /\
  (op = Equal -> all_false cv) /\
  (op = NotEqual -> masked_by_valid cv).

(** The batch size [PreCheckOverflow] computes. *)
Definition overflow_batch_size (input : option OffsetVector) (st : @Phy Cur) : Z :=
  match input with
  | Some offsets => Z.of_nat (length offsets)
  | None =>
      if active_count_ st <=? overflow_check_pos_ st + batch_size_ st
      then active_count_ st - overflow_check_pos_ st
      else batch_size_ st
  end.

(** The state after [if (!arg_inited_) { ... }] for type [T]. *)
Definition with_arg_inited (T : CppType) (st : @Phy Cur) : @Phy Cur :=
  if arg_inited_ st then st else set_value_arg T (val_ (expr_ st)) st.

(** A whole-segment index answer, padded with cleared bits up to the
    active count when it is shorter. *)
Definition padded (active : Z) (res bits : TargetBitmap) : TargetBitmap :=
  if Z.of_nat (length res) <? active
  then bits ++ bitmap_n (active - Z.of_nat (length res)) false
  else bits.

Definition is_text_op (op : OpType) : bool :=
  match op with TextMatch | PhraseMatch => true | _ => false end.

(** A scan through the scalar index of the field. *)
Definition is_index_scan (c : Call) : bool :=
  match c with CallProcessIndexChunks _ _ => true | _ => false end.

(** A call that is none of the text, n-gram and index strategies. *)
Definition slow_path (c : Call) : Prop := is_fast_path c = false.

(** Every call a computation makes satisfies [P]. *)
Definition logs (P : Call -> Prop) {A} (m : @M Cur A) : Prop :=
  forall st, exists cs, calls (snd (m st)) = calls st ++ cs /\ Forall P cs.

(** The literal and the slop [ExecTextMatch] works with. *)
Definition text_literal (st : @Phy Cur) : string :=
  if arg_inited_ st then GetValue_string (value_arg_ st)
  else GetValue_string (Some (t_string, val_ (expr_ st))).

Definition phrase_slop (st : @Phy Cur) : Z :=
  match extra_values_ (expr_ st) with
  | v :: _ => GetValueFromProto_int64 v
  | [] => 0
  end.

(** What the text index answers for the expression. *)
Definition text_index_answer (st : @Phy Cur) : TargetBitmap :=
  match op_type_ (expr_ st) with
  | TextMatch => MatchQuery (text_literal st)
  | _ => PhraseMatchQuery (text_literal st) (phrase_slop st)
  end.

(** The literal of the expression cannot overflow a column of type [T]:
    the overflow pre-check has nothing to do. *)
Definition literal_fits (T : CppType) (st : @Phy Cur) : Prop :=
  integral_not_bool T = false \/
  out_of_range T (GetValueFromProto_int64 (val_ (expr_ st))) = false.

(** The validity bitmap the overflow pre-check reads. *)
Definition overflow_valid (T : CppType) (input : option OffsetVector)
    (st : @Phy Cur) : TargetBitmap :=
  match input with
  | Some offsets =>
      fst (ProcessChunksForValidByOffsets T (is_index_mode_ st) offsets (cur st))
  | None => fst (ProcessChunksForValid T (is_index_mode_ st) (cur st))
  end.

(** The one call the overflow pre-check makes: the read of the validity
    of the rows of the batch. *)
Definition overflow_valid_call (T : CppType) (input : option OffsetVector) : Call :=
  match input with
  | Some _ => CallProcessChunksForValidByOffsets T
  | None => CallProcessChunksForValid T
  end.

(** Where [overflow_check_pos_] stands after a pre-check that fired. *)
Definition overflow_pos_after (input : option OffsetVector) (st : @Phy Cur) : Z :=
  match input with
  | Some _ => overflow_check_pos_ st
  | None => overflow_check_pos_ st + overflow_batch_size None st
  end.


End Observations.

(** ** A growing segment of ten rows, read four at a time *)
Module Scenario.

Definition rows : Z := 10.
Definition batch : Z := 4.

Definition next_batch (pos : Z) : Z :=
  if rows <=? pos + batch then rows - pos else batch.

(** Modelled from the spec: the index contracts of the design document,
    for a text index built when the segment had seven rows, with the
    switches [scalar_index] (a scalar index serves the field) and
    [ngram] (an n-gram index serves the field and answers [ngram_answer]).
    Scans answer with as many cleared bits as the batch has rows. *)
Definition segment (scalar_index ngram : bool)
    (ngram_answer : option TargetBitmap) : Segment Z := {|
  GetNextBatchSize pos _ := next_batch pos;
  MoveCursor pos _ := pos + next_batch pos;
  current_data_global_pos_ pos := pos;
  segment_type := Growing;
  growing_enable_mmap := false;
  SegmentExpr_CanUseIndex _ _ := scalar_index;
  CanUseNgramIndex := ngram;
  CanUseNgramIndexForJson := ngram;
  HasIndex _ := scalar_index;
  CanUseJsonKeyIndex := scalar_index;
  IndexTypesFromCursor _ _ := [OTHER_INDEX];
  GetValueFromProto_int64 v := match v with Int64Val z => z | _ => 0 end;
  FromValCase c :=
    match c with
    | kBoolVal => BOOL
    | kInt64Val => INT64
    | kFloatVal => DOUBLE
    | kStringVal => VARCHAR
    | kArrayVal => ARRAY
    | VAL_NOT_SET => VECTOR_ARRAY
    end;
  int64_to_double z := z;
  stoi _ := Ok 0;
  ProcessChunksForValid _ _ pos :=
    (take (Z.to_nat (next_batch pos)) [true; true; false; true], pos);
  ProcessChunksForValidByOffsets _ _ offsets pos :=
    (map (fun o => negb (o =? 2)) offsets, pos);
  ProcessDataChunks _ _ _ _ _ size pos :=
    (Ok (size, mkColumnVector (bitmap_n size false) (bitmap_n size true)),
     pos + size);
  ProcessDataByOffsets _ _ _ _ _ offsets pos :=
    (Ok (Z.of_nat (length offsets),
         mkColumnVector (bitmap_n (Z.of_nat (length offsets)) false)
                        (bitmap_n (Z.of_nat (length offsets)) true)), pos);
  ProcessIndexChunks _ _ _ pos :=
    (Ok (mkColumnVector (bitmap_n (next_batch pos) false)
                        (bitmap_n (next_batch pos) true)),
     pos + next_batch pos);
  JsonKeyIndexFilter _ _ _ _ size pos :=
    (Ok (Some (mkColumnVector (bitmap_n size false) (bitmap_n size true))),
     pos + size);
  ArrayIndexFilter _ _ _ pos :=
    (Ok (Some (mkColumnVector (bitmap_n (next_batch pos) false)
                              (bitmap_n (next_batch pos) true))),
     pos + next_batch pos);
  MatchQuery _ := [true; false; true; false; false; true; false];
  PhraseMatchQuery _ _ := [false; false; true; false; false; false; false];
  TextIsNotNull := [true; true; true; true; true; true; false];
  ExecuteQuery _ _ := ngram_answer;
  NgramIsNotNull := bitmap_n rows true
|}.

Definition column (d : DataType) : ColumnInfo := mkColumnInfo d INT32 [].

Definition start (expr : UnaryRangeFilterExpr) : @Phy Z :=
  mkPhy expr true rows batch 0 false false false None 0 None None [] [].

Definition plain : Segment Z := segment false false None.
Definition indexed : Segment Z := segment true false None.

Definition int8_ge_1000 : UnaryRangeFilterExpr :=
  mkExpr (column INT8) GreaterEqual (Int64Val 1000) [].
Definition int8_gt_minus_1000 : UnaryRangeFilterExpr :=
  mkExpr (column INT8) GreaterThan (Int64Val (-1000)) [].
Definition text_match : UnaryRangeFilterExpr :=
  mkExpr (column VARCHAR) TextMatch (StringVal "milvus") [].
Definition phrase_match (slop : Z) : UnaryRangeFilterExpr :=
  mkExpr (column VARCHAR) PhraseMatch (StringVal "vector database")
         [Int64Val slop].
Definition inner_match : UnaryRangeFilterExpr :=
  mkExpr (column VARCHAR) InnerMatch (StringVal "ab") [].

Definition no_offsets : EvalCtx := mkEvalCtx None [].
Definition with_offsets : EvalCtx := mkEvalCtx (Some [0; 2; 5]) [].

(** JSON documents as association lists from pointer to value, whose
    numbers are all integral: a double is its integer. *)
Definition Doc := list (string * GenericValue).

Fixpoint lookup_pointer (doc : Doc) (pointer : string) : option GenericValue :=
  match doc with
  | [] => None
  | (k, v) :: rest =>
      if String.eqb k pointer then Some v else lookup_pointer rest pointer
  end.

Fixpoint same_values (a b : list GenericValue) : bool :=
  match a, b with
  | [], [] => true
  | Int64Val x :: a, Int64Val y :: b => (x =? y) && same_values a b
  | StringVal x :: a, StringVal y :: b => String.eqb x y && same_values a b
  | BoolVal x :: a, BoolVal y :: b => Bool.eqb x y && same_values a b
  | _, _ => false
  end.

#[export] Instance docs : JsonDoc Doc (list GenericValue) := {|
  at_bool doc p :=
    match lookup_pointer doc p with Some (BoolVal b) => Some b | _ => None end;
  at_int64 doc p :=
    match lookup_pointer doc p with Some (Int64Val z) => Some z | _ => None end;
  at_double doc p :=
    match lookup_pointer doc p with
    | Some (Int64Val z) | Some (FloatVal z) => Some z
    | _ => None
    end;
  at_string doc p :=
    match lookup_pointer doc p with Some (StringVal s) => Some s | _ => None end;
  at_array doc p :=
    match lookup_pointer doc p with Some (ArrayVal a) => Some a | _ => None end;
  CompareTwoJsonArray := same_values;
  double_cmp op a b := op_holds op (a ?= b);
  double_cmp_int64 op a b := op_holds op (a ?= b);
  query_Match _ _ _ := false
|}.

(** The rows [{"k":1}], [{"k":"1"}], [{"k":1.0}], [{}]. *)
Definition four_rows : SubBatch (Json := Doc) :=
  mkSubBatch
    [ [("/k", Int64Val 1)]; [("/k", StringVal "1")];
      [("/k", FloatVal 1)]; [] ]%string
    None None 4.

Definition scan_rows (op : OpType) (val : GenericValue)
    : Res (TargetBitmap * TargetBitmap * nat) :=
  execute_sub_batch sequential op val "/k" [] 0 four_rows
    (bitmap_n 4 false) (bitmap_n 4 true).

End Scenario.

End UnaryExpr.

(* ===================================================================== *)
Module ChunkedColumn.

(** The pure virtual members of [ChunkedColumnInterface]
    ([mmap/ChunkedColumnInterface.h]) that its checked helper calls;
    [NumRows] is a [size_t]. *)
Class ChunkedColumnInterface := {
  NumRows : Z;
  GetChunkIDsByOffsets : list Z -> Z -> list CachingLayer.cid_t * list Z
}.

Section Column.
Context {Col : ChunkedColumnInterface}.

(** [offsets[i] < 0 || offsets[i] >= num_rows]: the second comparison is
    between an [int64_t] and a [size_t], and is made on unsigned 64
    bits. *)
Definition offset_out_of_range (o : Z) : bool :=
  (o <? 0) || (NumRows <=? CachingLayer.to_size_t o).

(** [ToChunkIdAndOffset]: [offsets] is a pointer, null ([None]) or the
    array it points to, of which the first [count] entries are read.  A
    failed [AssertInfo] is the error [UnknownError], as in the executor. *)
Definition ToChunkIdAndOffset (offsets : option (list Z)) (count : Z)
    : ErrorCode + (list CachingLayer.cid_t * list Z) :=
  match offsets with
  | None => inl UnknownError
  | Some offs =>
      if existsb offset_out_of_range (take (Z.to_nat count) offs)
      then inl OutOfRange
      else inr (GetChunkIDsByOffsets offs count)
  end.

End Column.

(** A column of ten rows in chunks of four. *)
Module Scenario.

#[export] Instance ten_rows : ChunkedColumnInterface := {|
  NumRows := 10;
  GetChunkIDsByOffsets offs count :=
    (map (fun o => o / 4) (take (Z.to_nat count) offs),
     map (fun o => o mod 4) (take (Z.to_nat count) offs))
|}.

End Scenario.

End ChunkedColumn.

(* ===================================================================== *)
(** * Properties of the cache slot *)

Section CacheSlotFacts.
Import CachingLayer.
Context {CellT D : Type} {Tr : Translator CellT} {DL : DList D}.
Implicit Types (s : CacheSlot CellT D) (cids need : list cid_t) (cid : cid_t).
Implicit Types (c : CacheCell CellT) (e : ErrorCode).

(** *** Sets of cids *)

Lemma elem_of_set_insert x y (l : list cid_t) :
  y ∈ set_insert x l <-> y = x \/ y ∈ l.
Proof.
  unfold set_insert. destruct (decide (x ∈ l)) as [Hin|Hin].
  - split; [auto | intros [->|]; auto].
  - rewrite elem_of_app, list_elem_of_singleton. tauto.
Qed.

Lemma NoDup_set_insert x (l : list cid_t) : NoDup l -> NoDup (set_insert x l).
Proof.
  intros Hl. unfold set_insert. destruct (decide (x ∈ l)) as [Hin|Hin]; [done|].
  apply NoDup_app. split; [done|]. split.
  - intros y Hy Hy'. apply list_elem_of_singleton in Hy'. by subst.
  - apply NoDup_singleton.
Qed.

Lemma fold_set_insert_spec (l acc : list cid_t) :
  NoDup acc ->
  NoDup (fold_left (fun a x => set_insert x a) l acc) /\
  forall y, y ∈ fold_left (fun a x => set_insert x a) l acc <-> y ∈ acc \/ y ∈ l.
Proof.
  revert acc. induction l as [|x l IH]; intros acc Hacc; simpl.
  - split; [done|]. intros y. rewrite elem_of_nil. tauto.
  - destruct (IH (set_insert x acc) (NoDup_set_insert x acc Hacc)) as [Hnd Hin].
    split; [done|]. intros y. rewrite Hin, elem_of_set_insert, elem_of_cons.
    tauto.
Qed.

Lemma set_of_list_spec (l : list cid_t) :
  NoDup (set_of_list l) /\ forall y, y ∈ set_of_list l <-> y ∈ l.
Proof.
  destruct (fold_set_insert_spec l [] (NoDup_nil_2)) as [Hnd Hin].
  split; [done|]. intros y. unfold set_of_list. rewrite Hin, elem_of_nil. tauto.
Qed.

(** The set [PinCells] hands to [PinInternal] is the image of the uids
    under [cell_id_of], without duplicates. *)
Lemma involved_cids_spec (uids : list uid_t) :
  NoDup (involved_cids uids) /\
  forall cid, cid ∈ involved_cids uids <->
              exists uid, uid ∈ uids /\ cell_id_of uid = cid.
Proof.
  unfold involved_cids, cell_id_of.
  destruct cell_id_mapping_mode.
  - destruct (set_of_list_spec uids) as [Hnd Hin]. split; [done|].
    intros cid. rewrite Hin. split; [eauto | by intros (u & Hu & <-)].
  - destruct uids as [|u uids]; simpl.
    + split; [apply NoDup_nil_2|]. intros cid. rewrite elem_of_nil.
      split; [done|]. intros (u & Hu & _). by apply elem_of_nil in Hu.
    + split; [apply NoDup_singleton|]. intros cid.
      unfold set_insert; simpl. rewrite list_elem_of_singleton. split.
      * intros ->. exists u. split; [apply elem_of_cons; auto | done].
      * by intros (_ & _ & <-).
  - destruct (set_of_list_spec (map (fun uid => translator_cell_id_of uid) uids))
      as [Hnd Hin].
    split; [done|]. intros cid. rewrite Hin.
    change (map ?f ?l) with (f <$> l). rewrite list_elem_of_fmap.
    split; intros (u & H1 & H2); eauto.
Qed.

Lemma involved_cids_always_zero (uids : list uid_t) :
  cell_id_mapping_mode = ALWAYS_ZERO -> uids <> [] -> involved_cids uids = [0].
Proof.
  intros Hm Hne. unfold involved_cids. rewrite Hm.
  destruct uids; [done | reflexivity].
Qed.

(** *** Indices *)

Lemma to_size_t_bounds x : 0 <= to_size_t x < 2 ^ 64.
Proof. unfold to_size_t. apply Z.mod_pos_bound. lia. Qed.

Lemma to_size_t_small x : 0 <= x < 2 ^ 64 -> to_size_t x = x.
Proof. intros H. unfold to_size_t. by apply Z.mod_small. Qed.

Lemma to_size_t_signed x :
  cid_t_range x -> to_size_t x < 2 ^ 63 -> to_size_t x = x.
Proof.
  unfold cid_t_range, to_size_t. intros Hr Hlt.
  pose proof (Z.div_mod x (2 ^ 64) ltac:(lia)) as Hdm.
  pose proof (Z.mod_pos_bound x (2 ^ 64) ltac:(lia)) as Hb.
  assert (x / 2 ^ 64 = 0 \/ x / 2 ^ 64 = -1) as [Hq|Hq] by lia; lia.
Qed.

Lemma idx_inj x y : cid_t_range x -> cid_t_range y -> idx x = idx y -> x = y.
Proof.
  unfold idx, cid_t_range. intros Hx Hy Heq.
  pose proof (to_size_t_bounds x). pose proof (to_size_t_bounds y).
  apply Z2Nat.inj in Heq; [|lia..]. unfold to_size_t in *.
  pose proof (Z.div_mod x (2 ^ 64) ltac:(lia)).
  pose proof (Z.div_mod y (2 ^ 64) ltac:(lia)). lia.
Qed.

Lemma cid_in_range_idx s cid :
  cid_out_of_range s cid = false -> (idx cid < length (cells_ s))%nat.
Proof.
  unfold cid_out_of_range, idx. intros H%Z.leb_gt.
  pose proof (to_size_t_bounds cid). lia.
Qed.

Lemma cid_above_out_of_range s cid :
  cid_t_range cid -> Z.of_nat (length (cells_ s)) <= cid ->
  cid_out_of_range s cid = true.
Proof.
  unfold cid_out_of_range, cid_t_range. intros Hr Hge. apply Z.leb_le.
  rewrite to_size_t_small; lia.
Qed.

(** *** Cell updates *)

Lemma update_cell_lookup cid (f : CacheCell CellT -> CacheCell CellT) s i :
  cells_ (update_cell cid f s) !! i
  = (if decide (i = idx cid) then f else id) <$> cells_ s !! i.
Proof.
  unfold update_cell. destruct (cells_ s !! idx cid) as [c|] eqn:Hc; simpl.
  - destruct (decide (i = idx cid)) as [->|Hne].
    + rewrite list_lookup_insert_eq by (by eapply lookup_lt_Some).
      by rewrite Hc.
    + rewrite list_lookup_insert_ne by done. by rewrite option_fmap_id.
  - destruct (decide (i = idx cid)) as [->|Hne].
    + by rewrite Hc.
    + by rewrite option_fmap_id.
Qed.

Lemma update_cell_trace cid f s : trace (update_cell cid f s) = trace s.
Proof. unfold update_cell. by destruct (cells_ s !! idx cid). Qed.

Lemma update_cell_dlist cid f s : dlist_ (update_cell cid f s) = dlist_ s.
Proof. unfold update_cell. by destruct (cells_ s !! idx cid). Qed.

Lemma set_error_idem e c : set_error e (set_error e c) = set_error e c.
Proof. unfold set_error. by destruct (state_ c) eqn:E; simpl; rewrite ?E. Qed.

(** *** The catch block *)

Lemma fail_cells_spec cids e : forall s,
  trace (fail_cells cids e s) = trace s ++ ((fun cid => EvSetError cid e) <$> cids) /\
  dlist_ (fail_cells cids e s) = dlist_ s /\
  forall i, cells_ (fail_cells cids e s) !! i
            = (if decide (i ∈ idx <$> cids) then set_error e else id)
                <$> cells_ s !! i.
Proof.
  induction cids as [|cid rest IH]; intros s; simpl.
  - rewrite app_nil_r. repeat split. intros i.
    destruct (decide (i ∈ [])) as [H|_]; [by apply elem_of_nil in H|].
    by rewrite option_fmap_id.
  - destruct (IH (log (update_cell cid (set_error e) s) (EvSetError cid e)))
      as (Ht & Hd & Hc).
    rewrite Ht, Hd. simpl. rewrite update_cell_trace, update_cell_dlist.
    rewrite <- app_assoc. repeat split. intros i. rewrite Hc. simpl.
    rewrite update_cell_lookup, <- option_fmap_compose.
    apply option_fmap_ext. intros c. simpl.
    change (list_fmap Z nat idx rest) with (idx <$> rest).
    repeat case_decide; simpl; try done;
      rewrite ?set_error_idem; try done;
      rewrite elem_of_cons in *; tauto.
Qed.

(** *** Publishing results and dropping pins *)

Lemma publish_spec cids (results : list (cid_t * CellT)) : forall s,
  trace (publish cids results s)
  = trace s ++ ((fun r => EvSetCell (fst r) (bool_decide (fst r ∈ cids))) <$> results) /\
  dlist_ (publish cids results s) = dlist_ s.
Proof.
  induction results as [|[cid payload] rest IH]; intros s; simpl.
  - by rewrite app_nil_r.
  - destruct (IH (log (update_cell cid (set_cell payload (bool_decide (cid ∈ cids))) s)
                      (EvSetCell cid (bool_decide (cid ∈ cids))))) as (Ht & Hd).
    rewrite Ht, Hd. simpl. rewrite update_cell_trace, update_cell_dlist.
    by rewrite <- app_assoc.
Qed.

Lemma drop_pins_spec (pins : list cid_t) : forall s,
  trace (drop_pins pins s) = trace s ++ (EvUnpin <$> pins) /\
  dlist_ (drop_pins pins s) = dlist_ s /\
  forall i, state_ <$> cells_ (drop_pins pins s) !! i = state_ <$> cells_ s !! i.
Proof.
  induction pins as [|cid rest IH]; intros s; simpl.
  - by rewrite app_nil_r.
  - destruct (IH (log (update_cell cid unpin s) (EvUnpin cid))) as (Ht & Hd & Hc).
    rewrite Ht, Hd. simpl. rewrite update_cell_trace, update_cell_dlist.
    rewrite <- app_assoc. repeat split. intros i. rewrite Hc. simpl.
    rewrite update_cell_lookup, <- option_fmap_compose.
    apply option_fmap_ext. intros c. by destruct (decide (i = idx cid)).
Qed.

(** *** The pin loop *)

Lemma pin_size c : size_ (snd (pin c)) = size_ c.
Proof. unfold pin. by destruct (state_ c). Qed.

Lemma need_load_subset_ext s s' cids :
  (forall cid, cid ∈ cids -> needs_load s' cid = needs_load s cid) ->
  need_load_subset s' cids = need_load_subset s cids.
Proof.
  unfold need_load_subset. induction cids as [|cid rest IH]; intros H; [done|].
  rewrite !filter_cons, H by (apply elem_of_cons; auto).
  rewrite IH; [done|]. intros c Hc. apply H, elem_of_cons. auto.
Qed.

Lemma pin_all_spec cids : forall need res s,
  NoDup (idx <$> cids) ->
  Forall (fun cid => (idx cid < length (cells_ s))%nat) cids ->
  (forall cid, cid ∈ cids -> cid ∉ need) ->
  let r := pin_all cids need res s in
  fst (fst r) = need ++ need_load_subset s cids /\
  snd (fst r) = fold_left ru_add (cell_size s <$> need_load_subset s cids) res /\
  trace (snd r) = trace s ++ ((fun cid => EvPin cid (needs_load s cid)) <$> cids) /\
  dlist_ (snd r) = dlist_ s /\
  forall i, cells_ (snd r) !! i
            = (if decide (i ∈ idx <$> cids) then fun c => snd (pin c) else id)
                <$> cells_ s !! i.
Proof.
  induction cids as [|cid rest IH]; intros need res s Hnd Hrange Hfresh; simpl.
  - rewrite !app_nil_r. repeat split. intros i.
    destruct (decide (i ∈ [])) as [H|_]; [by apply elem_of_nil in H|].
    by rewrite option_fmap_id.
  - rewrite fmap_cons in Hnd. apply NoDup_cons in Hnd as [Hcid Hnd].
    apply Forall_cons in Hrange as [Hlt Hrange].
    destruct (lookup_lt_is_Some_2 _ _ Hlt) as [c Hc]. rewrite Hc.
    destruct (pin c) as [need_load c'] eqn:Hpin.
    set (s1 := log (with_cells s (<[idx cid := c']> (cells_ s)))
                   (EvPin cid need_load)).
    assert (Hnl : needs_load s cid = need_load).
    { unfold needs_load. by rewrite Hc, Hpin. }
    assert (Hother : forall cid', cid' ∈ rest ->
              cells_ s1 !! idx cid' = cells_ s !! idx cid').
    { intros cid' Hin. simpl. apply list_lookup_insert_ne.
      intros Heq. apply Hcid. rewrite Heq. by apply list_elem_of_fmap_2. }
    assert (Hsub : need_load_subset s1 rest = need_load_subset s rest).
    { apply need_load_subset_ext. intros cid' Hin.
      unfold needs_load. by rewrite Hother. }
    assert (Hsz : cell_size s1 <$> need_load_subset s rest
                  = cell_size s <$> need_load_subset s rest).
    { apply Forall_fmap_ext_1, Forall_forall. intros cid' Hin.
      unfold need_load_subset in Hin. apply list_elem_of_filter in Hin as [_ Hin].
      unfold cell_size. by rewrite Hother. }
    assert (Hev : (fun cid' => EvPin cid' (needs_load s1 cid')) <$> rest
                  = (fun cid' => EvPin cid' (needs_load s cid')) <$> rest).
    { apply Forall_fmap_ext_1, Forall_forall. intros cid' Hin.
      unfold needs_load. by rewrite Hother. }
    assert (Hrange1 : Forall (fun cid' => (idx cid' < length (cells_ s1))%nat) rest).
    { simpl. by rewrite length_insert. }
    assert (Hcells : forall i,
              (if decide (i ∈ idx <$> rest) then fun c => snd (pin c) else id)
                <$> cells_ s1 !! i
              = (if decide (i ∈ idx cid :: (idx <$> rest))
                 then fun c => snd (pin c) else id) <$> cells_ s !! i).
    { intros i. simpl. destruct (decide (i = idx cid)) as [->|Hne].
      - rewrite list_lookup_insert_eq by done. rewrite Hc. simpl.
        repeat case_decide; try done.
        + by rewrite Hpin.
        + rewrite elem_of_cons in *. tauto.
      - rewrite list_lookup_insert_ne by done.
        repeat case_decide; try done; rewrite elem_of_cons in *; tauto. }
    unfold need_load_subset at 1 2. rewrite !filter_cons, Hnl.
    fold (need_load_subset s rest).
    destruct need_load.
    + assert (Hfresh1 : forall cid', cid' ∈ rest -> cid' ∉ set_insert cid need).
      { intros cid' Hin. rewrite elem_of_set_insert. intros [->|Hin'].
        - apply Hcid. by apply list_elem_of_fmap_2.
        - eapply Hfresh; [|done]. apply elem_of_cons. auto. }
      destruct (IH (set_insert cid need) (ru_add res (size_ c')) s1
                   Hnd Hrange1 Hfresh1) as (H1 & H2 & H3 & H4 & H5).
      fold s1. rewrite decide_True by done.
      assert (Hins : set_insert cid need = need ++ [cid]).
      { unfold set_insert. rewrite decide_False; [done|].
        apply Hfresh, elem_of_cons. auto. }
      assert (Hcs : cell_size s cid = size_ c').
      { unfold cell_size. rewrite Hc.
        replace c' with (snd (pin c)) by (by rewrite Hpin).
        symmetry. apply pin_size. }
      split; [|split; [|split; [|split]]].
      * by rewrite H1, Hsub, Hins, <- app_assoc.
      * rewrite H2, Hsub, Hsz. simpl. by rewrite Hcs.
      * rewrite H3, Hev. simpl. by rewrite <- app_assoc.
      * by rewrite H4.
      * intros i. rewrite H5. apply Hcells.
    + assert (Hfresh1 : forall cid', cid' ∈ rest -> cid' ∉ need).
      { intros cid' Hin. apply Hfresh, elem_of_cons. auto. }
      destruct (IH need res s1 Hnd Hrange1 Hfresh1) as (H1 & H2 & H3 & H4 & H5).
      fold s1. rewrite decide_False by done.
      split; [|split; [|split; [|split]]].
      * by rewrite H1, Hsub.
      * by rewrite H2, Hsub, Hsz.
      * rewrite H3, Hev. simpl. by rewrite <- app_assoc.
      * by rewrite H4.
      * intros i. rewrite H5. apply Hcells.
Qed.

(** *** RunLoad *)

Lemma count_get_cells_app (l k : list Event) :
  count_get_cells (l ++ k) = (count_get_cells l + count_get_cells k)%nat.
Proof. unfold count_get_cells. by rewrite filter_app, length_app. Qed.

Lemma count_get_cells_fmap {A} (f : A -> Event) (l : list A) :
  (forall x, is_get_cells (f x) = false) -> count_get_cells (f <$> l) = 0%nat.
Proof.
  intros Hf. unfold count_get_cells. induction l as [|x l IH]; [done|].
  rewrite fmap_cons, filter_cons_False; [done|]. by rewrite Hf.
Qed.

Lemma events_since_app s s' (evs : list Event) :
  trace s' = trace s ++ evs -> events_since s s' = evs.
Proof. intros H. unfold events_since. rewrite H. apply drop_app_length. Qed.

(** The trace of the try block, by cases. *)
Lemma try_block_reserve_fails cids rn timeout s d d' :
  dlist_ s = Some d ->
  reserveMemoryWithTimeout d rn timeout = (false, d') ->
  try_block cids rn timeout s
  = (Caught InsufficientResource true,
     log (with_dlist s (Some d')) (EvReserve rn false)).
Proof. intros Hd Hr. unfold try_block. by rewrite Hd, Hr. Qed.

Lemma try_block_fetch_fails cids rn timeout s d d' e :
  dlist_ s = Some d ->
  reserveMemoryWithTimeout d rn timeout = (true, d') ->
  get_cells cids = inl e ->
  try_block cids rn timeout s
  = (Caught e false,
     log (log (with_dlist s (Some d')) (EvReserve rn true)) (EvGetCells cids)).
Proof.
  intros Hd Hr Hg. unfold try_block, load_cells. by rewrite Hd, Hr, Hg.
Qed.

(** Closes the side goals about an explicit list of load events. *)
Ltac solve_load_events :=
  first
    [ progress (rewrite <- ?app_assoc); simpl; rewrite <- ?app_assoc; reflexivity
    | repeat (apply Forall_app; split); repeat constructor;
      apply Forall_fmap, Forall_forall; by intros
    | rewrite ?count_get_cells_app, ?count_get_cells_fmap by done;
      unfold count_get_cells; simpl; lia ].

Lemma RunLoad_events cids rn timeout s :
  exists evs,
    trace (RunLoad cids rn timeout s) = trace s ++ evs /\
    Forall (load_event_ok rn cids) evs /\
    (count_get_cells evs <= 1)%nat /\
    (forall d, dlist_ s = Some d ->
       exists tl, evs = EvReserve rn (fst (reserveMemoryWithTimeout d rn timeout)) :: tl).
Proof.
  unfold RunLoad, try_block, load_cells.
  destruct (dlist_ s) as [d|] eqn:Hd.
  - destruct (reserveMemoryWithTimeout d rn timeout) as [[|] d'] eqn:Hr.
    + destruct (get_cells cids) as [e|results].
      * destruct (fail_cells_spec cids e
                    (log (log (with_dlist s (Some d')) (EvReserve rn true))
                         (EvGetCells cids))) as (Ht & Hdl & _).
        rewrite Hdl. simpl.
        exists ([EvReserve rn true; EvGetCells cids]
                  ++ ((fun cid => EvSetError cid e) <$> cids) ++ [EvRelease rn]).
        split; [|split; [|split]].
        -- rewrite Ht. simpl. by rewrite <- !app_assoc.
        -- solve_load_events.
        -- solve_load_events.
        -- intros d0 [= <-]. rewrite Hr. eexists. reflexivity.
      * destruct (publish_spec cids results
                    (log (log (with_dlist s (Some d')) (EvReserve rn true))
                         (EvGetCells cids))) as (Ht & _).
        exists ([EvReserve rn true; EvGetCells cids]
                  ++ ((fun r => EvSetCell (fst r) (bool_decide (fst r ∈ cids)))
                        <$> results)).
        split; [|split; [|split]].
        -- rewrite Ht. simpl. by rewrite <- !app_assoc.
        -- solve_load_events.
        -- solve_load_events.
        -- intros d0 [= <-]. rewrite Hr. eexists. reflexivity.
    + destruct (fail_cells_spec cids InsufficientResource
                  (log (with_dlist s (Some d')) (EvReserve rn false)))
        as (Ht & Hdl & _).
      rewrite Hdl. simpl.
      exists ([EvReserve rn false]
                ++ ((fun cid => EvSetError cid InsufficientResource) <$> cids)).
      split; [|split; [|split]].
      * rewrite Ht. simpl. by rewrite <- !app_assoc.
      * solve_load_events.
      * solve_load_events.
      * intros d0 [= <-]. rewrite Hr. eexists. reflexivity.
  - destruct (get_cells cids) as [e|results].
    + destruct (fail_cells_spec cids e (log s (EvGetCells cids)))
        as (Ht & Hdl & _).
      rewrite Hdl. simpl. rewrite Hd.
      exists ([EvGetCells cids] ++ ((fun cid => EvSetError cid e) <$> cids)).
      split; [|split; [|split]].
      * rewrite Ht. simpl. by rewrite <- !app_assoc.
      * solve_load_events.
      * solve_load_events.
      * intros d0 [=].
    + destruct (publish_spec cids results (log s (EvGetCells cids))) as (Ht & _).
      exists ([EvGetCells cids]
                ++ ((fun r => EvSetCell (fst r) (bool_decide (fst r ∈ cids)))
                      <$> results)).
      split; [|split; [|split]].
      * rewrite Ht. simpl. by rewrite <- !app_assoc.
      * solve_load_events.
      * solve_load_events.
      * intros d0 [=].
Qed.

(** *** PinInternal *)

Lemma existsb_false_Forall {A} (f : A -> bool) (l : list A) :
  existsb f l = false -> Forall (fun x => f x = false) l.
Proof.
  induction l as [|x l IH]; simpl; [constructor|].
  intros [H1 H2]%orb_false_iff. constructor; auto.
Qed.

Lemma NoDup_idx cids :
  NoDup cids -> Forall cid_t_range cids -> NoDup (idx <$> cids).
Proof.
  intros Hnd Hr. apply NoDup_fmap_2_strong; [|done].
  intros x y Hx Hy. rewrite Forall_forall in Hr. apply idx_inj; auto.
Qed.

Lemma cell_size_estimate s cid :
  slot_wf s -> cid_t_range cid -> cid_out_of_range s cid = false ->
  cell_size s cid = estimated_byte_size_of_cell cid.
Proof.
  intros (Hlen & Hmax & Hsz) Hr Hin.
  pose proof (cid_in_range_idx _ _ Hin) as Hlt.
  destruct (lookup_lt_is_Some_2 _ _ Hlt) as [c Hc].
  unfold cell_size. rewrite Hc, (Hsz _ _ Hc). f_equal.
  pose proof (to_size_t_bounds cid).
  unfold idx in *. rewrite Z2Nat.id by lia.
  apply to_size_t_signed; [done|]. lia.
Qed.

(** The events of a [PinInternal] that passes validation: the pins, in
    the order of [cids], then the events of the load. *)
Lemma PinInternal_events cids timeout s :
  NoDup cids -> Forall cid_t_range cids ->
  existsb (cid_out_of_range s) cids = false ->
  let need := need_load_subset s cids in
  let amount := fold_left ru_add (cell_size s <$> need) ru_zero in
  exists load,
    trace (snd (PinInternal cids timeout s))
    = trace s ++ ((fun cid => EvPin cid (needs_load s cid)) <$> cids) ++ load /\
    Forall (load_event_ok amount need) load /\
    (count_get_cells load <= 1)%nat /\
    (forall d, need <> [] -> dlist_ s = Some d ->
       exists tl,
         load = EvReserve amount
                  (fst (reserveMemoryWithTimeout d amount timeout)) :: tl) /\
    (forall pins, fst (PinInternal cids timeout s) = Accessor pins -> pins = cids).
Proof.
  intros Hnd Hr Hex need amount. unfold PinInternal. rewrite Hex.
  pose proof (existsb_false_Forall _ _ Hex) as Hin.
  assert (Hlt : Forall (fun cid => (idx cid < length (cells_ s))%nat) cids).
  { eapply Forall_impl; [exact Hin|]. intros cid. apply cid_in_range_idx. }
  destruct (pin_all_spec cids [] ru_zero s (NoDup_idx _ Hnd Hr) Hlt)
    as (H1 & H2 & H3 & H4 & _).
  { intros cid _. apply not_elem_of_nil. }
  destruct (pin_all cids [] ru_zero s) as [[need' res'] s1]. simpl in *.
  fold need in H1, H2. fold amount in H2. subst need' res'.
  set (s2 := match need with
             | [] => s1
             | _ => RunLoad need amount timeout s1
             end).
  assert (Hload : exists evs,
             trace s2 = trace s1 ++ evs /\
             Forall (load_event_ok amount need) evs /\
             (count_get_cells evs <= 1)%nat /\
             (forall d, need <> [] -> dlist_ s = Some d ->
                exists tl,
                  evs = EvReserve amount
                          (fst (reserveMemoryWithTimeout d amount timeout)) :: tl)).
  { subst s2. destruct need as [|n0 need0] eqn:Hneed.
    - exists []. rewrite app_nil_r.
      split; [done|]. split; [constructor|].
      split; [unfold count_get_cells; simpl; lia|].
      intros d Hne. done.
    - destruct (RunLoad_events (n0 :: need0) amount timeout s1)
        as (evs & Ht & Hok & Hcnt & Hhd).
      exists evs. split; [done|]. split; [done|]. split; [done|].
      intros d _ Hd. apply Hhd. by rewrite H4. }
  destruct Hload as (evs & Ht & Hok & Hcnt & Hhd).
  destruct (collect cids s2) as [pins|e|] eqn:Hcol; simpl.
  - exists evs. rewrite Ht, H3, <- app_assoc.
    split; [done|]. split; [done|]. split; [done|]. split; [done|].
    intros pins' [= <-]. unfold collect in Hcol.
    repeat case_bool_decide; congruence.
  - destruct (drop_pins_spec (held_pins cids s2) s2) as (Htd & _).
    exists (evs ++ (EvUnpin <$> held_pins cids s2)).
    rewrite Htd, Ht, H3, <- !app_assoc.
    split; [done|]. split; [|split; [|split]].
    + apply Forall_app. split; [done|].
      apply Forall_fmap, Forall_forall. by intros.
    + rewrite count_get_cells_app, count_get_cells_fmap by done. lia.
    + intros d Hne Hd. destruct (Hhd d Hne Hd) as [tl ->]. eexists. reflexivity.
    + intros pins [=].
  - exists evs. rewrite Ht, H3, <- app_assoc.
    split; [done|]. split; [done|]. split; [done|]. split; [done|].
    intros pins [=].
Qed.

Lemma Forall_existsb_false {A} (f : A -> bool) (l : list A) :
  Forall (fun x => f x = false) l -> existsb f l = false.
Proof.
  induction 1 as [|x l Hx _ IH]; simpl; [done|]. by rewrite Hx, IH.
Qed.

Lemma load_event_ok_not_pin amount need (load : list Event) :
  Forall (load_event_ok amount need) load ->
  Forall (fun ev => is_pin ev = false) load.
Proof. intros H. eapply Forall_impl; [exact H|]. by intros []. Qed.

Lemma estimate_sum s cids :
  slot_wf s -> Forall cid_t_range cids ->
  Forall (fun cid => cid_out_of_range s cid = false) cids ->
  fold_left ru_add (cell_size s <$> need_load_subset s cids) ru_zero
  = ru_sum (estimated_byte_size_of_cell <$> need_load_subset s cids).
Proof.
  intros Hwf Hr Hin. unfold ru_sum. f_equal.
  apply Forall_fmap_ext_1, Forall_forall. intros cid Hcid.
  apply list_elem_of_filter in Hcid as [_ Hcid].
  rewrite Forall_forall in Hr, Hin. apply cell_size_estimate; auto.
Qed.

(** ** Validation comes first *)

(** C10. When a requested cid is greater than or equal to the number of
    cells, the pin call throws OutOfRange from the validation loop, which
    runs before the first pin: the slot (pin counts, states, budget) is
    exactly what it was and no call was made. *)
Theorem pin_out_of_range_leaves_slot_untouched
    (uids : list uid_t) (timeout : Z) s cid :
  slot_wf s ->
  cid ∈ involved_cids uids -> cid_t_range cid -> Z.of_nat num_cells <= cid ->
  PinCells uids timeout s = (Throws OutOfRange, s).
Proof.
  intros (Hlen & _) Hin Hr Hge. unfold PinCells, PinInternal.
  assert (Hex : existsb (cid_out_of_range s) (involved_cids uids) = true).
  { apply existsb_exists. exists cid. split; [by apply list_elem_of_In|].
    apply cid_above_out_of_range; [done|]. by rewrite Hlen. }
  by rewrite Hex.
Qed.

(** ** What a pin call reserves and loads *)

(** C3. [PinCells] maps the uids to a duplicate-free set of cids (the
    single cid 0 under ALWAYS_ZERO for a non-empty request); unless
    validation rejects the request, it pins every involved cell before
    any event of the load, every reservation it makes is for exactly the
    sum of the estimated sizes of the cells whose pin observed the
    NOT_LOADED -> LOADING edge, and [get_cells] is called at most once,
    over exactly those cells.  (The order inside the need-load set is the
    model's; the source leaves it to the hash set.) *)
Theorem pin_cells_reserves_for_need_load_only
    (uids : list uid_t) (timeout : Z) s :
  slot_wf s ->
  Forall cid_t_range (involved_cids uids) ->
  let cids := involved_cids uids in
  let need := need_load_subset s cids in
  let amount := ru_sum (estimated_byte_size_of_cell <$> need) in
  (NoDup cids /\
   forall cid, cid ∈ cids <-> exists uid, uid ∈ uids /\ cell_id_of uid = cid) /\
  (cell_id_mapping_mode = ALWAYS_ZERO -> uids <> [] -> cids = [0]) /\
  ((existsb (cid_out_of_range s) cids = true /\
    PinCells uids timeout s = (Throws OutOfRange, s)) \/
   (existsb (cid_out_of_range s) cids = false /\
    exists load,
      events_since s (snd (PinCells uids timeout s))
      = ((fun cid => EvPin cid (needs_load s cid)) <$> cids) ++ load /\
      Forall (load_event_ok amount need) load /\
      (count_get_cells load <= 1)%nat /\
      (forall d, need <> [] -> dlist_ s = Some d ->
         exists tl,
           load = EvReserve amount
                    (fst (reserveMemoryWithTimeout d amount timeout)) :: tl))).
Proof.
  intros Hwf Hr cids need amount.
  split; [apply involved_cids_spec|].
  split; [apply involved_cids_always_zero|].
  destruct (existsb (cid_out_of_range s) cids) eqn:Hex; [left|right].
  - split; [done|]. unfold PinCells, PinInternal. fold cids. by rewrite Hex.
  - split; [done|].
    destruct (involved_cids_spec uids) as [Hnd _].
    destruct (PinInternal_events cids timeout s Hnd Hr Hex)
      as (load & Ht & Hok & Hcnt & Hhd & _).
    rewrite (estimate_sum s cids Hwf Hr (existsb_false_Forall _ _ Hex))
      in Hok, Hhd.
    exists load. split; [|done].
    apply events_since_app. exact Ht.
Qed.

(** ** Failed loads *)

Lemma set_error_loading s cids e cid :
  cid ∈ cids ->
  cell_state s cid = Some LOADING ->
  cell_state (fail_cells cids e s) cid = Some ERROR /\
  cell_error (fail_cells cids e s) cid = Some e.
Proof.
  intros Hin Hst. destruct (fail_cells_spec cids e s) as (_ & _ & Hc).
  unfold cell_state, cell_error in *. rewrite Hc.
  rewrite decide_True by (by apply list_elem_of_fmap_2).
  destruct (cells_ s !! idx cid) as [c|]; simplify_eq/=.
  unfold set_error. by rewrite Hst.
Qed.

Lemma fail_cells_never_loads s cids e i :
  state_ <$> cells_ (fail_cells cids e s) !! i = Some LOADED ->
  state_ <$> cells_ s !! i = Some LOADED.
Proof.
  destruct (fail_cells_spec cids e s) as (_ & _ & Hc). rewrite Hc.
  destruct (cells_ s !! i) as [c|]; [|done]. simpl.
  case_decide; [|done]. unfold set_error.
  destruct (state_ c) eqn:E; simpl; by rewrite ?E.
Qed.

(** C2. A load whose reservation fails never calls the translator: it
    hands InsufficientResource to [set_error] of every elected cell and
    releases nothing.  A load whose translator throws after a successful
    reservation hands that error to [set_error] of every elected cell and
    releases exactly the amount it had reserved.  Either way every
    elected cell ends in ERROR carrying the error, and no cell that was
    not LOADED becomes LOADED. *)
Theorem run_load_failure_paths cids rn (timeout : Z) s d :
  dlist_ s = Some d ->
  Forall (fun cid => cell_state s cid = Some LOADING) cids ->
  let s' := RunLoad cids rn timeout s in
  let attempt := reserveMemoryWithTimeout d rn timeout in
  (fst attempt = false ->
     events_since s s'
     = EvReserve rn false
         :: ((fun cid => EvSetError cid InsufficientResource) <$> cids) /\
     dlist_ s' = Some (snd attempt) /\
     Forall (fun cid => cell_state s' cid = Some ERROR /\
                        cell_error s' cid = Some InsufficientResource) cids /\
     forall i, state_ <$> cells_ s' !! i = Some LOADED ->
               state_ <$> cells_ s !! i = Some LOADED) /\
  (forall e, fst attempt = true -> get_cells cids = inl e ->
     events_since s s'
     = [EvReserve rn true; EvGetCells cids]
         ++ ((fun cid => EvSetError cid e) <$> cids) ++ [EvRelease rn] /\
     dlist_ s' = Some (releaseMemory (snd attempt) rn) /\
     Forall (fun cid => cell_state s' cid = Some ERROR /\
                        cell_error s' cid = Some e) cids /\
     forall i, state_ <$> cells_ s' !! i = Some LOADED ->
               state_ <$> cells_ s !! i = Some LOADED).
Proof.
  intros Hd Hloading s' attempt. subst s' attempt.
  destruct (reserveMemoryWithTimeout d rn timeout) as [ok d'] eqn:Hr.
  simpl. split.
  - intros ->. unfold RunLoad.
    rewrite (try_block_reserve_fails cids rn timeout s d d' Hd Hr).
    set (s1 := log (with_dlist s (Some d')) (EvReserve rn false)).
    destruct (fail_cells_spec cids InsufficientResource s1) as (Ht & Hdl & _).
    rewrite Hdl. simpl.
    split; [|split; [|split]].
    + apply events_since_app. rewrite Ht. simpl. by rewrite <- app_assoc.
    + done.
    + apply Forall_forall. intros cid Hin.
      apply set_error_loading; [done|].
      rewrite Forall_forall in Hloading. by apply Hloading.
    + intros i Hi. by apply fail_cells_never_loads in Hi.
  - intros e -> Hg. unfold RunLoad.
    rewrite (try_block_fetch_fails cids rn timeout s d d' e Hd Hr Hg).
    set (s1 := log (log (with_dlist s (Some d')) (EvReserve rn true))
                   (EvGetCells cids)).
    destruct (fail_cells_spec cids e s1) as (Ht & Hdl & _).
    rewrite Hdl. simpl.
    split; [|split; [|split]].
    + apply events_since_app. simpl. rewrite Ht. simpl.
      by rewrite <- !app_assoc.
    + done.
    + apply Forall_forall. intros cid Hin.
      unfold cell_state, cell_error. simpl.
      apply (set_error_loading s1); [done|].
      rewrite Forall_forall in Hloading. by apply Hloading.
    + intros i Hi. simpl in Hi. by apply fail_cells_never_loads in Hi.
Qed.

(** ** Warmup *)

Lemma fold_set_insert_NoDup (l acc : list cid_t) :
  NoDup (acc ++ l) -> fold_left (fun a x => set_insert x a) l acc = acc ++ l.
Proof.
  revert acc. induction l as [|x l IH]; intros acc Hnd; simpl.
  - by rewrite app_nil_r.
  - assert (Hx : x ∉ acc).
    { apply NoDup_app in Hnd as (_ & Hdisj & _). intros Hin.
      apply (Hdisj x Hin). apply elem_of_cons. auto. }
    unfold set_insert at 2. rewrite decide_False by done.
    rewrite IH; rewrite <- app_assoc; done.
Qed.

Lemma set_of_list_NoDup (l : list cid_t) : NoDup l -> set_of_list l = l.
Proof. intros H. unfold set_of_list. by rewrite fold_set_insert_NoDup. Qed.

Lemma elem_of_iota n cid :
  cid ∈ iota n <-> 0 <= cid < Z.of_nat n.
Proof.
  unfold iota. change (map ?f ?l) with (f <$> l).
  rewrite list_elem_of_fmap. split.
  - intros (i & -> & Hi%elem_of_seq). lia.
  - intros H. exists (Z.to_nat cid). split; [lia|]. apply elem_of_seq. lia.
Qed.

Lemma NoDup_iota n : NoDup (iota n).
Proof.
  unfold iota. change (map ?f ?l) with (f <$> l).
  apply NoDup_fmap_2_strong; [|apply NoDup_seq].
  intros x y _ _. apply Nat2Z.inj.
Qed.

Lemma iota_in_range s :
  slot_wf s ->
  Forall cid_t_range (iota num_cells) /\
  existsb (cid_out_of_range s) (iota num_cells) = false.
Proof.
  intros (Hlen & Hmax & _). split.
  - apply Forall_forall. intros cid Hcid%elem_of_iota.
    unfold cid_t_range. lia.
  - apply Forall_existsb_false, Forall_forall. intros cid Hcid%elem_of_iota.
    unfold cid_out_of_range. apply Z.leb_gt.
    rewrite to_size_t_small; lia.
Qed.

(** C6 (as the code has it).  [Warmup] returns at once, pinning nothing,
    exactly when the policy is Disable.  For every other value, Sync and
    unrecognized ones alike, it runs [PinCells] on the uids
    0 .. num_cells-1 and destroys the accessor at the end of the
    statement; under IDENTICAL id mapping this pins every cell of
    [0, num_cells), before any event of the load, and a call that returns
    ends by releasing each of those pins. *)
Theorem warmup_pins_unless_disabled s :
  (cache_warmup_policy = CacheWarmupPolicy_Disable -> Warmup s = (Returns, s)) /\
  (cache_warmup_policy <> CacheWarmupPolicy_Disable ->
     Warmup s = pin_and_drop (iota num_cells) s /\
     (cell_id_mapping_mode = IDENTICAL -> slot_wf s ->
      exists load,
        events_since s (snd (Warmup s))
        = ((fun cid => EvPin cid (needs_load s cid)) <$> iota num_cells) ++ load /\
        Forall (fun ev => is_pin ev = false) load /\
        (fst (Warmup s) = Returns ->
         exists load', load = load' ++ (EvUnpin <$> iota num_cells)))).
Proof.
  unfold Warmup. split.
  - intros ->. by rewrite decide_True.
  - intros Hne. rewrite decide_False by done. split; [done|].
    intros Hmode Hwf. destruct (iota_in_range s Hwf) as [Hr Hex].
    assert (Hcids : involved_cids (iota num_cells) = iota num_cells).
    { unfold involved_cids. rewrite Hmode. apply set_of_list_NoDup, NoDup_iota. }
    unfold pin_and_drop, PinCells. rewrite Hcids.
    destruct (PinInternal_events (iota num_cells) default_timeout s
                (NoDup_iota _) Hr Hex) as (load & Ht & Hok & _ & _ & Hpins).
    destruct (PinInternal (iota num_cells) default_timeout s)
      as [[pins|e|] s1] eqn:Hpin; simpl in *.
    + destruct (drop_pins_spec pins s1) as (Htd & _).
      rewrite (Hpins pins eq_refl) in *.
      exists (load ++ (EvUnpin <$> iota num_cells)).
      split; [|split].
      * apply events_since_app. rewrite Htd, Ht. by rewrite <- !app_assoc.
      * apply Forall_app. split; [by eapply load_event_ok_not_pin|].
        apply Forall_fmap, Forall_forall. by intros.
      * intros _. by exists load.
    + exists load. split; [|split].
      * by apply events_since_app.
      * by eapply load_event_ok_not_pin.
      * intros [=].
    + exists load. split; [|split].
      * by apply events_since_app.
      * by eapply load_event_ok_not_pin.
      * intros [=].
Qed.

End CacheSlotFacts.

(* ===================================================================== *)
(** * Properties of the unary range filter executor *)

Section ExecutorFacts.
Import UnaryExpr.
Context {Cur : Type} {Seg : Segment Cur}.
Implicit Types (st : @Phy Cur) (T : CppType) (context : EvalCtx).

(** Unfolds the monad and the small steps shared by the executors. *)
Ltac run :=
  cbv [bind ret get modify throw on_cursor on_cursor_res init_arg
       next_batch_size move_cursor AssertInfo real_batch_size_of].

Lemma calls_since_app st st' (cs : list Call) :
  calls st' = calls st ++ cs -> calls_since st st' = cs.
Proof. intros H. unfold calls_since. rewrite H. apply drop_app_length. Qed.

Lemma calls_since_refl st st' : calls st' = calls st -> calls_since st st' = [].
Proof. intros H. unfold calls_since. rewrite H. apply drop_all. Qed.

(** *** Bitmaps *)

Lemma length_bitmap_n n v : length (bitmap_n n v) = Z.to_nat n.
Proof. apply length_replicate. Qed.

Lemma masked_all_true n (valid : TargetBitmap) :
  masked_by_valid (mkColumnVector (bitmap_and (bitmap_n n true) valid) valid).
Proof.
  intros i. unfold bitmap_and. simpl. rewrite length_imap, length_bitmap_n.
  intros Hi. rewrite list_lookup_imap. unfold bitmap_n.
  by rewrite lookup_replicate_2.
Qed.

Lemma all_false_cleared n (valid : TargetBitmap) :
  all_false (mkColumnVector (bitmap_n n false) valid).
Proof.
  intros i. simpl. rewrite length_bitmap_n. intros Hi.
  unfold bitmap_n. by rewrite lookup_replicate_2.
Qed.

(** *** The overflow pre-check *)

Lemma PreCheckOverflow_out_of_range T input st :
  integral_not_bool T = true ->
  out_of_range T (GetValueFromProto_int64 (val_ (expr_ st))) = true ->
  exists c r st',
    PreCheckOverflow T input st = (r, st') /\
    is_scan c = false /\
    calls st' = calls st ++ [c] /\
    (is_comparison (op_type_ (expr_ st)) = true ->
     exists cv, r = Ok (Some cv) /\
                overflow_verdict T (op_type_ (expr_ st))
                  (GetValueFromProto_int64 (val_ (expr_ st))) cv) /\
    (is_comparison (op_type_ (expr_ st)) = false -> r = Throw OpTypeInvalid).
Proof.
  intros HT Hout. unfold PreCheckOverflow. rewrite HT. run. simpl.
  rewrite Hout.
  destruct input as [offsets|]; simpl.
  - destruct (ProcessChunksForValidByOffsets T (is_index_mode_ st) offsets (cur st))
      as [valid cur'] eqn:Hvalid. simpl.
    exists (CallProcessChunksForValidByOffsets T).
    destruct (op_type_ (expr_ st)) eqn:Hop; simpl;
      try (destruct (lt_lb T _) eqn:Hlt); try (destruct (gt_ub T _) eqn:Hgt);
      do 2 eexists; (split; [reflexivity|]); (split; [reflexivity|]);
      (split; [reflexivity|]); (split; [|done]);
      try (intros _; eexists; split; [reflexivity|]);
      try done;
      unfold overflow_verdict;
      repeat split; try (intros [|]; done); try done; intros;
      try congruence;
      try apply masked_all_true; try apply all_false_cleared.
  - destruct (ProcessChunksForValid T (is_index_mode_ st) (cur st))
      as [valid cur'] eqn:Hvalid. simpl.
    exists (CallProcessChunksForValid T).
    destruct (op_type_ (expr_ st)) eqn:Hop; simpl;
      try (destruct (lt_lb T _) eqn:Hlt); try (destruct (gt_ub T _) eqn:Hgt);
      do 2 eexists; (split; [reflexivity|]); (split; [reflexivity|]);
      (split; [reflexivity|]); (split; [|done]);
      try (intros _; eexists; split; [reflexivity|]);
      try done;
      unfold overflow_verdict;
      repeat split; try (intros [|]; done); try done; intros;
      try congruence;
      try apply masked_all_true; try apply all_false_cleared.
Qed.

Lemma ForIndex_precheck T st r st' :
  PreCheckOverflow T None (snd (init_arg (IndexInnerType T) st)) = (r, st') ->
  r <> Ok None ->
  ExecRangeVisitorImplForIndex T st = (match r with
                                       | Ok (Some res) => Ok (Some res)
                                       | Ok None => Ok None
                                       | Throw e => Throw e
                                       end, st').
Proof.
  intros Heq Hne. unfold ExecRangeVisitorImplForIndex, bind.
  unfold init_arg in *. destruct (arg_inited_ st); simpl in *; rewrite Heq;
    by destruct r as [[|]|].
Qed.

(** The shape of what the pre-check returns when it fires: one call, the
    read of the validity; the position advanced by the batch size; a
    vector whose valid bits are that validity and whose data has one bit
    per row of the batch. *)
Lemma PreCheckOverflow_shape T input st :
  integral_not_bool T = true ->
  out_of_range T (GetValueFromProto_int64 (val_ (expr_ st))) = true ->
  calls (snd (PreCheckOverflow T input st))
  = calls st ++ [overflow_valid_call T input] /\
  overflow_check_pos_ (snd (PreCheckOverflow T input st))
  = overflow_pos_after input st /\
  forall cv, fst (PreCheckOverflow T input st) = Ok (Some cv) ->
    cv_valid cv = overflow_valid T input st /\
    length (cv_data cv) = Z.to_nat (overflow_batch_size input st).
Proof.
  intros HT Hout.
  unfold PreCheckOverflow, overflow_valid, overflow_pos_after, overflow_valid_call.
  rewrite HT. run. simpl. rewrite Hout.
  destruct input as [offsets|]; simpl.
  - destruct (ProcessChunksForValidByOffsets T (is_index_mode_ st) offsets (cur st))
      as [valid cur']. simpl.
    destruct (op_type_ (expr_ st)); simpl;
      try destruct (lt_lb T _); try destruct (gt_ub T _); simpl;
      (split; [reflexivity|]); (split; [reflexivity|]);
      intros cv Hcv; try discriminate; injection Hcv as <-; simpl;
      (split; [reflexivity|]);
      unfold bitmap_and; by rewrite ?length_imap, length_bitmap_n.
  - destruct (ProcessChunksForValid T (is_index_mode_ st) (cur st))
      as [valid cur']. simpl.
    destruct (op_type_ (expr_ st)); simpl;
      try destruct (lt_lb T _); try destruct (gt_ub T _); simpl;
      (split; [reflexivity|]); (split; [reflexivity|]);
      intros cv Hcv; try discriminate; injection Hcv as <-; simpl;
      (split; [reflexivity|]);
      unfold bitmap_and; by rewrite ?length_imap, length_bitmap_n.
Qed.

(** C1. On an integral column, a literal outside the range of the column
    type is settled by the pre-check, on the data-scan path and on the
    index-scan path alike, before either scans: the only call is the read
    of the validity of the rows of the batch, no scan call is made, and
    (without offset input) [overflow_check_pos_] advances by the batch
    size.  The result has the validity read as its valid bits and one data
    bit per row of the batch.  For [>], [>=] with a literal below the
    minimum, for [<], [<=] with a literal above the maximum and for [!=]
    every data bit is the valid bit of its row; for [=] every data bit is
    false. *)
Theorem overflow_precheck_short_circuits T context st :
  integral_not_bool T = true ->
  out_of_range T (GetValueFromProto_int64 (val_ (expr_ st))) = true ->
  forall path input,
    (path = ExecRangeVisitorImplForData T context /\
     input = get_offset_input context) \/
    (path = ExecRangeVisitorImplForIndex T /\ input = None) ->
    calls_since st (snd (path st)) = [overflow_valid_call T input] /\
    Forall (fun c => is_scan c = false) (calls_since st (snd (path st))) /\
    overflow_check_pos_ (snd (path st)) = overflow_pos_after input st /\
    (is_comparison (op_type_ (expr_ st)) = true ->
     exists cv, fst (path st) = Ok (Some cv) /\
                cv_valid cv = overflow_valid T input st /\
                length (cv_data cv) = Z.to_nat (overflow_batch_size input st) /\
                overflow_verdict T (op_type_ (expr_ st))
                  (GetValueFromProto_int64 (val_ (expr_ st))) cv) /\
    (is_comparison (op_type_ (expr_ st)) = false ->
     fst (path st) = Throw OpTypeInvalid).
Proof.
  intros HT Hout path input Hpath.
  assert (Hscan : is_scan (overflow_valid_call T input) = false)
    by (by destruct input).
  set (st0 := snd (init_arg (IndexInnerType T) st)).
  assert (Hframe : expr_ st0 = expr_ st /\ calls st0 = calls st /\
                   overflow_valid T None st0 = overflow_valid T None st /\
                   overflow_batch_size None st0 = overflow_batch_size None st /\
                   overflow_pos_after None st0 = overflow_pos_after None st).
  { subst st0. unfold init_arg. by destruct (arg_inited_ st). }
  destruct Hframe as (Hexpr & Hcalls0 & Hvalid0 & Hbs0 & Hpos0).
  assert (exists stp r st',
            PreCheckOverflow T input stp = (r, st') /\
            expr_ stp = expr_ st /\ calls stp = calls st /\
            overflow_valid T input stp = overflow_valid T input st /\
            overflow_batch_size input stp = overflow_batch_size input st /\
            overflow_pos_after input stp = overflow_pos_after input st /\
            r <> Ok None /\
            path st = (match r with
                       | Ok (Some res) => Ok (Some res)
                       | Ok None => Ok None
                       | Throw e => Throw e
                       end, st'))
    as (stp & r & st' & Heq & He & Hc & Hv & Hb & Hp & Hne & Hrun).
  { destruct Hpath as [[-> ->] | [-> ->]].
    - destruct (PreCheckOverflow_out_of_range T (get_offset_input context) st
                  HT Hout) as (c & r & st' & Heq & _ & _ & Hcmp & Hncmp).
      exists st, r, st'. repeat (split; [done|]).
      assert (r <> Ok None) as Hne.
      { destruct (is_comparison (op_type_ (expr_ st)));
          [destruct (Hcmp eq_refl) as (cv & -> & _)|rewrite (Hncmp eq_refl)];
          done. }
      split; [exact Hne|].
      unfold ExecRangeVisitorImplForData, bind. rewrite Heq.
      by destruct r as [[|]|].
    - assert (Hout0 : out_of_range T (GetValueFromProto_int64 (val_ (expr_ st0)))
                      = true) by (by rewrite Hexpr).
      destruct (PreCheckOverflow_out_of_range T None st0 HT Hout0)
        as (c & r & st' & Heq & _ & _ & Hcmp & Hncmp).
      exists st0, r, st'. repeat (split; [done|]).
      assert (r <> Ok None) as Hne.
      { destruct (is_comparison (op_type_ (expr_ st0)));
          [destruct (Hcmp eq_refl) as (cv & -> & _)|rewrite (Hncmp eq_refl)];
          done. }
      split; [exact Hne|].
      by apply ForIndex_precheck. }
  assert (Hout' : out_of_range T (GetValueFromProto_int64 (val_ (expr_ stp))) = true)
    by (by rewrite He).
  destruct (PreCheckOverflow_shape T input stp HT Hout') as (Hcalls & Hpos & Hshape).
  destruct (PreCheckOverflow_out_of_range T input stp HT Hout')
    as (c & r1 & st1 & Heq1 & _ & _ & Hcmp & Hncmp).
  rewrite Heq in Hcalls, Hpos, Hshape, Heq1. simpl in Hcalls, Hpos, Hshape.
  injection Heq1 as <- <-.
  rewrite He in Hcmp, Hncmp. rewrite Hc in Hcalls. rewrite Hp in Hpos.
  rewrite Hv, Hb in Hshape.
  rewrite Hrun. simpl.
  rewrite (calls_since_app _ _ _ Hcalls).
  split; [done|]. split; [by repeat constructor|]. split; [exact Hpos|].
  split.
  - intros Hop. destruct (Hcmp Hop) as (cv & -> & Hverdict).
    exists cv. split; [done|].
    destruct (Hshape cv eq_refl) as [H1 H2].
    split; [exact H1|]. split; [exact H2 | exact Hverdict].
  - intros Hop. by rewrite (Hncmp Hop).
Qed.

(** *** Running the monad *)

Lemma bind_ok {A B} (m : M A) (k : A -> M B) st a st' :
  m st = (Ok a, st') -> bind m k st = k a st'.
Proof. intros H. unfold bind. by rewrite H. Qed.

Lemma bind_throw {A B} (m : M A) (k : A -> M B) st e st' :
  m st = (Throw e, st') -> bind m k st = (Throw e, st').
Proof. intros H. unfold bind. by rewrite H. Qed.

Lemma init_arg_run T st : init_arg T st = (Ok tt, with_arg_inited T st).
Proof. unfold init_arg, with_arg_inited. by destruct (arg_inited_ st). Qed.

Lemma with_arg_inited_frame T st :
  expr_ (with_arg_inited T st) = expr_ st /\
  calls (with_arg_inited T st) = calls st /\
  cur (with_arg_inited T st) = cur st /\
  use_index_ (with_arg_inited T st) = use_index_ st /\
  active_count_ (with_arg_inited T st) = active_count_ st /\
  cached_match_res_ (with_arg_inited T st) = cached_match_res_ st /\
  cached_ngram_match_res_ (with_arg_inited T st) = cached_ngram_match_res_ st /\
  cached_index_chunk_valid_res_ (with_arg_inited T st)
  = cached_index_chunk_valid_res_ st.
Proof. unfold with_arg_inited. by destruct (arg_inited_ st). Qed.

Lemma text_literal_inited st :
  GetValue_string (value_arg_ (with_arg_inited t_string st)) = text_literal st.
Proof. unfold with_arg_inited, text_literal. by destruct (arg_inited_ st). Qed.

(** *** Text and phrase match *)

Lemma checked_slop_run st :
  checked_slop st
  = (if decide (op_type_ (expr_ st) = PhraseMatch)
     then if (phrase_slop st <? 0) || (UINT32_MAX <? phrase_slop st)
          then Throw InvalidParameter else Ok (phrase_slop st)
     else Ok 0, st).
Proof.
  unfold checked_slop, phrase_slop. run.
  destruct (decide _); [|done].
  by destruct ((_ <? 0) || _).
Qed.

Lemma materialize_text_match_cached query slop st c :
  cached_match_res_ st = Some c ->
  materialize_text_match query slop st = (Ok tt, st).
Proof. intros H. unfold materialize_text_match. run. by rewrite H. Qed.

Lemma materialize_text_match_fresh query slop st :
  cached_match_res_ st = None ->
  op_type_ (expr_ st) = TextMatch \/ op_type_ (expr_ st) = PhraseMatch ->
  let c := match op_type_ (expr_ st) with
           | TextMatch => CallMatchQuery query
           | _ => CallPhraseMatchQuery query slop
           end in
  let res := match op_type_ (expr_ st) with
             | TextMatch => MatchQuery query
             | _ => PhraseMatchQuery query slop
             end in
  materialize_text_match query slop st
  = (Ok tt, set_cached_match (padded (active_count_ st) res res)
                             (padded (active_count_ st) res TextIsNotNull)
                             (record_call c st)).
Proof.
  intros H Hop. unfold materialize_text_match, text_query, padded. run.
  rewrite H. destruct Hop as [-> | ->]; simpl;
    by destruct (_ <? _).
Qed.

Lemma slice_batch_run cached n st :
  slice_batch cached n st
  = (Ok (Some (mkColumnVector
                 (slice (default [] (cached st))
                        (current_data_global_pos_ (cur st)) n)
                 (slice (cached_index_chunk_valid_res_ st)
                        (current_data_global_pos_ (cur st)) n))),
     set_cur (MoveCursor (cur st) (use_index_ st)) st).
Proof. reflexivity. Qed.

Lemma bind_get {A B} (f : Phy -> A) (k : A -> M B) st :
  bind (get f) k st = k (f st) st.
Proof. reflexivity. Qed.

(** [ExecTextMatch], step by step. *)
Lemma ExecTextMatch_run st :
  let st0 := with_arg_inited t_string st in
  let n := GetNextBatchSize (cur st) (use_index_ st) in
  ExecTextMatch st
  = match fst (checked_slop st) with
    | Throw e => (Throw e, st0)
    | Ok slop =>
        if n =? 0 then (Ok None, st0)
        else bind (materialize_text_match (text_literal st) slop)
                  (fun _ => slice_batch cached_match_res_ n) st0
    end.
Proof.
  intros st0 n. unfold ExecTextMatch.
  rewrite (bind_ok _ _ _ _ _ (init_arg_run t_string st)). fold st0.
  rewrite bind_get. subst st0. rewrite text_literal_inited.
  destruct (with_arg_inited_frame t_string st) as (He & _ & Hcur & Hui & _).
  assert (Hslop : checked_slop (with_arg_inited t_string st)
                  = (fst (checked_slop st), with_arg_inited t_string st)).
  { rewrite !checked_slop_run. unfold phrase_slop. by rewrite He. }
  destruct (fst (checked_slop st)) as [slop|e].
  - rewrite (bind_ok _ _ _ _ _ Hslop). unfold next_batch_size.
    rewrite bind_get, Hcur, Hui. fold n. by destruct (n =? 0).
  - by rewrite (bind_throw _ _ _ _ _ Hslop).
Qed.

(** C9. A phrase match whose slop is negative or above UINT32_MAX throws
    InvalidParameter without querying the text index.  Otherwise every
    query the evaluation sends to the text index is a phrase query with
    exactly that slop (0 when the expression carries no extra value), and
    the evaluation that materializes the result (nothing cached, a
    non-empty batch) sends exactly one. *)
Theorem phrase_match_slop_checked st :
  op_type_ (expr_ st) = PhraseMatch ->
  let slop := phrase_slop st in
  let r := ExecTextMatch st in
  (slop < 0 \/ UINT32_MAX < slop ->
     fst r = Throw InvalidParameter /\ calls_since st (snd r) = []) /\
  (0 <= slop <= UINT32_MAX ->
     (forall c, c ∈ calls_since st (snd r) ->
                c = CallPhraseMatchQuery (text_literal st) slop) /\
     (cached_match_res_ st = None ->
      GetNextBatchSize (cur st) (use_index_ st) <> 0 ->
      calls_since st (snd r) = [CallPhraseMatchQuery (text_literal st) slop])) /\
  (extra_values_ (expr_ st) = [] -> slop = 0).
Proof.
  intros Hop slop r. subst r. rewrite ExecTextMatch_run.
  destruct (with_arg_inited_frame t_string st)
    as (He & Hcalls & Hcur & Hui & Hac & Hcm & _).
  rewrite checked_slop_run, Hop, decide_True by done. fold slop. simpl.
  split; [|split].
  - intros Hbad.
    assert ((slop <? 0) || (UINT32_MAX <? slop) = true) as ->.
    { apply orb_true_iff. destruct Hbad; [left|right]; by apply Z.ltb_lt. }
    simpl. split; [done|]. by apply calls_since_refl.
  - intros Hgood.
    assert ((slop <? 0) || (UINT32_MAX <? slop) = false) as ->.
    { apply orb_false_iff. split; apply Z.ltb_ge; lia. }
    destruct (GetNextBatchSize (cur st) (use_index_ st) =? 0) eqn:Hn; simpl.
    + rewrite (calls_since_refl _ _ Hcalls). split.
      * intros c Hc. by apply elem_of_nil in Hc.
      * intros _ Hne. apply Z.eqb_eq in Hn. done.
    + destruct (cached_match_res_ st) as [c0|] eqn:Hcached.
      * rewrite (bind_ok _ _ _ _ _
                   (materialize_text_match_cached _ _ _ _ Hcm)).
        rewrite slice_batch_run.
        rewrite calls_since_refl by (simpl; exact Hcalls). split; [|done].
        intros c Hc. by apply elem_of_nil in Hc.
      * assert (Hop0 : op_type_ (expr_ (with_arg_inited t_string st)) = TextMatch \/
                       op_type_ (expr_ (with_arg_inited t_string st)) = PhraseMatch).
        { right. by rewrite He. }
        rewrite (bind_ok _ _ _ _ _
                   (materialize_text_match_fresh _ _ _ Hcm Hop0)).
        rewrite slice_batch_run. rewrite He, Hop.
        erewrite calls_since_app by (simpl; rewrite Hcalls; reflexivity).
        split; [|done].
        intros c Hc. by apply list_elem_of_singleton in Hc.
  - unfold slop, phrase_slop. by intros ->.
Qed.

Lemma checked_slop_accepts st :
  op_type_ (expr_ st) = TextMatch \/
  (op_type_ (expr_ st) = PhraseMatch /\ 0 <= phrase_slop st <= UINT32_MAX) ->
  exists slop,
    fst (checked_slop st) = Ok slop /\
    (op_type_ (expr_ st) = PhraseMatch -> slop = phrase_slop st).
Proof.
  rewrite checked_slop_run. simpl. intros [Hop | [Hop Hslop]].
  - rewrite Hop, decide_False by done. exists 0. split; [done|]. done.
  - rewrite Hop, decide_True by done.
    assert ((phrase_slop st <? 0) || (UINT32_MAX <? phrase_slop st) = false) as ->.
    { apply orb_false_iff. split; apply Z.ltb_ge; lia. }
    by exists (phrase_slop st).
Qed.

Lemma length_slice (c : TargetBitmap) pos n :
  0 <= pos -> 0 <= n -> pos + n <= Z.of_nat (length c) ->
  length (slice c pos n) = Z.to_nat n.
Proof.
  intros Hp Hn Hle. unfold slice. rewrite length_take, length_drop. lia.
Qed.

(** C8. When the text index answers with fewer rows than the active
    count (its result and its not-null bitmap both cover the rows the
    index has), the evaluation that materializes the match caches both
    bitmaps extended with cleared bits up to the active count, so the
    rows the index has not seen are false in the result and in the
    validity.  That evaluation and every later one return the slice of
    the cached bitmaps that starts at the global cursor and has the size
    of the batch; later ones leave the cache as it is. *)
Theorem text_match_pads_to_active_count st :
  op_type_ (expr_ st) = TextMatch \/
  (op_type_ (expr_ st) = PhraseMatch /\ 0 <= phrase_slop st <= UINT32_MAX) ->
  GetNextBatchSize (cur st) (use_index_ st) <> 0 ->
  let n := GetNextBatchSize (cur st) (use_index_ st) in
  let pos := current_data_global_pos_ (cur st) in
  let st' := snd (ExecTextMatch st) in
  (cached_match_res_ st = None ->
   let res := text_index_answer st in
   let pad := bitmap_n (active_count_ st - Z.of_nat (length res)) false in
   length TextIsNotNull = length res ->
   Z.of_nat (length res) < active_count_ st ->
   cached_match_res_ st' = Some (res ++ pad) /\
   cached_index_chunk_valid_res_ st' = TextIsNotNull ++ pad /\
   length (res ++ pad) = Z.to_nat (active_count_ st) /\
   length (TextIsNotNull ++ pad) = Z.to_nat (active_count_ st) /\
   (forall i, (length res <= i < Z.to_nat (active_count_ st))%nat ->
              (res ++ pad) !! i = Some false /\
              (TextIsNotNull ++ pad) !! i = Some false) /\
   fst (ExecTextMatch st)
   = Ok (Some (mkColumnVector (slice (res ++ pad) pos n)
                              (slice (TextIsNotNull ++ pad) pos n)))) /\
  (forall c, cached_match_res_ st = Some c ->
     fst (ExecTextMatch st)
     = Ok (Some (mkColumnVector
                   (slice c pos n)
                   (slice (cached_index_chunk_valid_res_ st) pos n))) /\
     cached_match_res_ st' = Some c /\
     cached_index_chunk_valid_res_ st' = cached_index_chunk_valid_res_ st /\
     (0 <= pos -> 0 <= n -> pos + n <= Z.of_nat (length c) ->
      length (slice c pos n) = Z.to_nat n)).
Proof.
  intros Hop Hn n pos st'. subst st'. rewrite ExecTextMatch_run.
  destruct (checked_slop_accepts st Hop) as (slop & -> & Hslop).
  fold n. rewrite (proj2 (Z.eqb_neq n 0) Hn).
  destruct (with_arg_inited_frame t_string st)
    as (He & Hcalls & Hcur & Hui & Hac & Hcm & _ & Hcv).
  split.
  - intros Hnone res pad Hlen Hshort.
    rewrite <- Hcm in Hnone.
    assert (Hop0 : op_type_ (expr_ (with_arg_inited t_string st)) = TextMatch \/
                   op_type_ (expr_ (with_arg_inited t_string st)) = PhraseMatch).
    { rewrite He. destruct Hop as [|[? _]]; auto. }
    rewrite (bind_ok _ _ _ _ _
               (materialize_text_match_fresh _ slop _ Hnone Hop0)).
    rewrite slice_batch_run. rewrite He, Hac.
    assert (Hres : match op_type_ (expr_ st) with
                   | TextMatch => MatchQuery (text_literal st)
                   | _ => PhraseMatchQuery (text_literal st) slop
                   end = res).
    { subst res. unfold text_index_answer.
      destruct Hop as [Hop|[Hop _]]; rewrite Hop; [done|].
      by rewrite (Hslop Hop). }
    rewrite Hres. unfold padded. rewrite (proj2 (Z.ltb_lt _ _) Hshort).
    fold pad. simpl. rewrite Hcur. fold pos.
    assert (Hpad : length pad = (Z.to_nat (active_count_ st) - length res)%nat).
    { subst pad. rewrite length_bitmap_n. lia. }
    split; [done|]. split; [done|].
    split; [rewrite length_app, Hpad; lia|].
    split; [rewrite length_app, Hpad, Hlen; lia|].
    split; [|done].
    intros i Hi. split.
    + rewrite lookup_app_r by lia. subst pad. unfold bitmap_n.
      apply lookup_replicate_2. lia.
    + rewrite lookup_app_r by lia. subst pad. unfold bitmap_n.
      apply lookup_replicate_2. lia.
  - intros c Hc. rewrite <- Hcm in Hc.
    rewrite (bind_ok _ _ _ _ _ (materialize_text_match_cached _ slop _ _ Hc)).
    rewrite slice_batch_run. simpl. rewrite Hc, Hcur, Hcv. simpl. fold pos.
    split; [done|]. split; [done|]. split; [done|].
    apply length_slice.
Qed.

(** *** N-gram match *)


Lemma PreCheckOverflow_not_integral T input st :
  integral_not_bool T = false -> PreCheckOverflow T input st = (Ok None, st).
Proof. intros H. unfold PreCheckOverflow. by rewrite H. Qed.

Lemma scan_data_run k val context n st :
  has_offset_input_ st = false ->
  scan_data k val context n st
  = let r := ProcessDataChunks k (op_type_ (expr_ st)) val
               (nested_path_ (column_ (expr_ st)))
               (get_bitmap_input context) n (cur st) in
    let st' := set_cur (snd r) (record_call (CallProcessDataChunks k) st) in
    match fst r with
    | Ok (processed_size, res_vec) =>
        if processed_size =? n then (Ok (Some res_vec), st')
        else (Throw UnknownError, st')
    | Throw e => (Throw e, st')
    end.
Proof.
  intros Ho. unfold scan_data. run. rewrite Ho. simpl.
  destruct (ProcessDataChunks _ _ _ _ _ _ _) as [[[p v]|e] cur']; simpl; [|done].
  by destruct (p =? n).
Qed.



Lemma normal_path_run T context st :
  has_offset_input_ st = false ->
  let b := is_index_mode_ st && SegmentExpr_CanUseIndex T (op_type_ (expr_ st)) in
  normal_path T context st
  = if b then ExecRangeVisitorImplForIndex T (set_use_index b st)
    else ExecRangeVisitorImplForData T context (set_use_index b st).
Proof.
  intros Ho b. unfold normal_path, CanUseIndex, bind at 1. fold b.
  rewrite bind_get. simpl. rewrite Ho. by destruct b.
Qed.



(** *** Which calls a computation makes *)

Lemma logs_ret P {A} (a : A) : logs (Cur := Cur) P (ret a).
Proof. intros st. exists []. by rewrite app_nil_r. Qed.

Lemma logs_throw P {A} e : logs (Cur := Cur) P (throw (A := A) e).
Proof. intros st. exists []. by rewrite app_nil_r. Qed.

Lemma logs_get P {A} (f : @Phy Cur -> A) : logs P (get f).
Proof. intros st. exists []. by rewrite app_nil_r. Qed.

Lemma logs_modify P (f : @Phy Cur -> @Phy Cur) :
  (forall st, calls (f st) = calls st) -> logs P (modify f).
Proof. intros Hf st. exists []. simpl. by rewrite Hf, app_nil_r. Qed.

Lemma logs_bind P {A B} (m : @M Cur A) (k : A -> @M Cur B) :
  logs P m -> (forall a, logs P (k a)) -> logs P (bind m k).
Proof.
  intros Hm Hk st. unfold bind. destruct (Hm st) as (cs & Hcs & HP).
  destruct (m st) as [[a|e] st1]; simpl in *.
  - destruct (Hk a st1) as (cs' & Hcs' & HP').
    exists (cs ++ cs'). rewrite Hcs', Hcs, app_assoc. split; [done|].
    by apply Forall_app.
  - by exists cs.
Qed.

Lemma logs_on_cursor P {A} c (f : Cur -> A * Cur) : P c -> logs P (on_cursor c f).
Proof.
  intros Hc st. exists [c]. unfold on_cursor.
  destruct (f _) as [a cur']. simpl. split; [done|]. by repeat constructor.
Qed.

Lemma logs_on_cursor_res P {A} c (f : Cur -> Res A * Cur) :
  P c -> logs P (on_cursor_res c f).
Proof.
  intros Hc st. exists [c]. unfold on_cursor_res.
  destruct (f _) as [a cur']. simpl. split; [done|]. by repeat constructor.
Qed.

Lemma logs_init_arg P T : logs (Cur := Cur) P (init_arg T).
Proof.
  intros st. exists []. rewrite init_arg_run, app_nil_r. simpl.
  split; [|done]. apply with_arg_inited_frame.
Qed.

Lemma logs_AssertInfo P b : logs (Cur := Cur) P (AssertInfo b).
Proof. destruct b; [apply logs_ret | apply logs_throw]. Qed.

(** Splits a computation into its steps. *)
Ltac logs :=
  repeat first
    [ apply logs_ret | apply logs_throw | apply logs_get
    | apply logs_init_arg | apply logs_AssertInfo
    | apply logs_modify; intros; reflexivity
    | apply logs_on_cursor; reflexivity
    | apply logs_on_cursor_res; reflexivity
    | apply logs_bind; [|intros]
    | match goal with
      | |- logs _ (if ?b then _ else _) => destruct b
      | |- logs _ (match ?x with _ => _ end) => destruct x
      | |- logs _ (let '(_, _) := ?x in _) => destruct x
      end ].


Lemma logs_scan_data k val context n : logs slow_path (scan_data k val context n).
Proof. unfold scan_data, slow_path. logs. Qed.

Lemma logs_real_batch_size_of context : logs slow_path (real_batch_size_of context).
Proof. unfold real_batch_size_of, next_batch_size. logs. Qed.



Lemma logs_Array T context :
  logs slow_path (ExecRangeVisitorImplArray T context).
Proof.
  unfold ExecRangeVisitorImplArray.
  apply logs_bind; [apply logs_real_batch_size_of|]. intros n.
  destruct (n =? 0); [apply logs_ret|].
  apply logs_bind; [apply logs_init_arg|]. intros _.
  apply logs_bind; [apply logs_get|]. intros path.
  apply logs_bind.
  - destruct path as [|p path]; [apply logs_ret|].
    intros st. exists []. rewrite app_nil_r. by destruct (stoi p).
  - intros _. apply logs_bind; [apply logs_get|]. intros v. apply logs_scan_data.
Qed.

(** *** Evaluation under an offset input *)

Lemma bind_modify {B} (f : @Phy Cur -> @Phy Cur) (k : unit -> M B) st :
  bind (modify f) k st = k tt (f st).
Proof. reflexivity. Qed.







End ExecutorFacts.

(* ===================================================================== *)
(** * The JSON sub-batch kernel *)

Section JsonKernelFacts.
Import UnaryExpr.
Context {Json JArr : Type} {JD : JsonDoc Json JArr}.


(** An int64 literal against a number that does not read as an int64 is
    compared with the number read as a double. *)
Lemma json_int64_retries_as_double op z pointer (b : SubBatch) i offset old doc x :
  sb_data b !! offset = Some doc ->
  at_int64 doc pointer = None ->
  at_double doc pointer = Some x ->
  row_bit op (Int64Val z) pointer b i offset old
  = cmp op (FloatVal x) (Int64Val z).
Proof.
  intros Hdoc Hint Hdbl. unfold row_bit. rewrite Hdoc.
  destruct op; simpl;
    unfold UnaryRangeJSONCompare, UnaryRangeJSONCompareNotEqual; simpl;
    by rewrite Hint, Hdbl.
Qed.

(** With an array literal, a row whose pointer does not resolve to an
    array is false for every operator, [!=] included. *)
Lemma json_array_lookup_failure op elems pointer (b : SubBatch) i offset old doc :
  sb_data b !! i = Some doc ->
  at_array doc pointer = None ->
  row_bit op (ArrayVal elems) pointer b i offset old = false.
Proof.
  intros Hdoc Harr. unfold row_bit. destruct op; try done; by rewrite Hdoc, Harr.
Qed.

End JsonKernelFacts.

(* ===================================================================== *)
(** * The properties on the scenarios *)

Section CacheScenario.
Import CachingLayer CachingLayer.Scenario.

Lemma scenario_wf policy mode fetch b :
  slot_wf (Tr := loader policy mode fetch) (warm (loader policy mode fetch) b) /\
  slot_wf (Tr := loader policy mode fetch) (fresh (loader policy mode fetch) b) /\
  slot_wf (Tr := loader policy mode fetch) (loading (loader policy mode fetch) b).
Proof.
  repeat split; try reflexivity; try (simpl; lia);
    intros [|[|[|i]]] c; simpl; intros [= <-]; reflexivity.
Defined.

(** A request for uids 0 and 7 on a slot of three cells. *)
Lemma pin_out_of_range_witness :
  PinCells (Tr := tr_sync) [0; 7] 5 (warm tr_sync roomy)
  = (Throws OutOfRange, warm tr_sync roomy).
Proof.
  apply (pin_out_of_range_leaves_slot_untouched (Tr := tr_sync)
           [0; 7] 5 (warm tr_sync roomy) 7).
  - apply scenario_wf.
  - apply list_elem_of_In. vm_compute. auto.
  - unfold cid_t_range. lia.
  - simpl. lia.
Defined.

(** Uids 0, 2, 0, 1 on a slot whose cell 1 is already loaded: 400 bytes
    are reserved, for cells 0 and 2. *)
Lemma pin_cells_reserves_witness :
  exists load,
    events_since (warm tr_sync roomy)
      (snd (PinCells (Tr := tr_sync) [0; 2; 0; 1] 5 (warm tr_sync roomy)))
    = [EvPin 0 true; EvPin 2 true; EvPin 1 false] ++ load /\
    Forall (load_event_ok (mkResourceUsage 400 0) [0; 2]) load /\
    (count_get_cells load <= 1)%nat.
Proof.
  destruct (pin_cells_reserves_for_need_load_only (Tr := tr_sync)
              [0; 2; 0; 1] 5 (warm tr_sync roomy))
    as (_ & _ & [[Hex _] | (_ & load & H1 & H2 & H3 & _)]).
  - apply scenario_wf.
  - change (Forall cid_t_range [0; 2; 1]).
    repeat constructor; unfold cid_t_range; lia.
  - vm_compute in Hex. discriminate.
  - exists load. split; [exact H1|]. split; [exact H2 | exact H3].
Defined.

(** Cells 0 and 2 elected: under a budget of 150 bytes the reservation of
    400 fails; under a roomy budget a translator that throws has its
    reservation returned. *)
Lemma run_load_failure_witness :
  events_since (loading tr_sync tight)
    (RunLoad (Tr := tr_sync) [0; 2] (mkResourceUsage 400 0) 5 (loading tr_sync tight))
  = [EvReserve (mkResourceUsage 400 0) false;
     EvSetError 0 InsufficientResource; EvSetError 2 InsufficientResource] /\
  events_since (loading tr_broken roomy)
    (RunLoad (Tr := tr_broken) [0; 2] (mkResourceUsage 400 0) 5
       (loading tr_broken roomy))
  = [EvReserve (mkResourceUsage 400 0) true; EvGetCells [0; 2];
     EvSetError 0 FileReadFailed; EvSetError 2 FileReadFailed;
     EvRelease (mkResourceUsage 400 0)].
Proof.
  split.
  - destruct (run_load_failure_paths (Tr := tr_sync) [0; 2]
                (mkResourceUsage 400 0) 5 (loading tr_sync tight) tight)
      as [HA _].
    + reflexivity.
    + repeat constructor.
    + destruct (HA eq_refl) as (Hev & _). exact Hev.
  - destruct (run_load_failure_paths (Tr := tr_broken) [0; 2]
                (mkResourceUsage 400 0) 5 (loading tr_broken roomy) roomy)
      as [_ HB].
    + reflexivity.
    + repeat constructor.
    + destruct (HB FileReadFailed eq_refl eq_refl) as (Hev & _). exact Hev.
Defined.

(** C6, against the code: a translator whose policy is the unrecognized
    value 2, which is not Sync, has all three of its cells pinned and
    loaded by [Warmup]. *)
Lemma warmup_unrecognized_policy_pins :
  cache_warmup_policy (Translator := tr_unrecognized) <> CacheWarmupPolicy_Sync /\
  events_since (fresh tr_unrecognized roomy)
    (snd (Warmup (Tr := tr_unrecognized) (fresh tr_unrecognized roomy)))
  = [EvPin 0 true; EvPin 1 true; EvPin 2 true;
     EvReserve (mkResourceUsage 600 0) true; EvGetCells [0; 1; 2];
     EvSetCell 0 true; EvSetCell 1 true; EvSetCell 2 true;
     EvUnpin 0; EvUnpin 1; EvUnpin 2].
Proof. split; [discriminate | reflexivity]. Qed.

Lemma warmup_witness :
  Warmup (Tr := tr_unrecognized) (fresh tr_unrecognized roomy)
  = pin_and_drop (Tr := tr_unrecognized) (iota 3) (fresh tr_unrecognized roomy) /\
  Warmup (Tr := tr_zero) (fresh tr_zero roomy) = (Returns, fresh tr_zero roomy).
Proof.
  split.
  - destruct (warmup_pins_unless_disabled (Tr := tr_unrecognized)
                (fresh tr_unrecognized roomy)) as [_ H].
    destruct H as [H _]; [discriminate | exact H].
  - destruct (warmup_pins_unless_disabled (Tr := tr_zero)
                (fresh tr_zero roomy)) as [H _].
    apply H. reflexivity.
Defined.

End CacheScenario.

Section ExecutorScenario.
Import UnaryExpr UnaryExpr.Scenario.

(** An INT8 column compared with -1000 by [>], through the data path with
    offsets 0, 2, 5 (of which row 2 is null) and through the index path. *)
Lemma overflow_precheck_witness :
  (exists cv,
     fst (ExecRangeVisitorImplForData (Seg := plain) t_int8 with_offsets
            (start int8_gt_minus_1000)) = Ok (Some cv) /\
     cv_valid cv = [true; false; true] /\
     length (cv_data cv) = 3%nat /\
     overflow_verdict t_int8 GreaterThan (-1000) cv) /\
  calls_since (start int8_gt_minus_1000)
    (snd (ExecRangeVisitorImplForIndex (Seg := indexed) t_int8
            (start int8_gt_minus_1000)))
  = [CallProcessChunksForValid t_int8] /\
  overflow_check_pos_
    (snd (ExecRangeVisitorImplForIndex (Seg := indexed) t_int8
            (start int8_gt_minus_1000)))
  = 4.
Proof.
  split.
  - destruct (overflow_precheck_short_circuits (Seg := plain) t_int8 with_offsets
                (start int8_gt_minus_1000) eq_refl eq_refl
                (ExecRangeVisitorImplForData (Seg := plain) t_int8 with_offsets)
                (Some [0; 2; 5])
                (or_introl (conj eq_refl eq_refl))) as (_ & _ & _ & H & _).
    destruct (H eq_refl) as (cv & H1 & H2 & H3 & H4).
    exists cv. split; [exact H1|]. split; [exact H2|].
    split; [exact H3 | exact H4].
  - destruct (overflow_precheck_short_circuits (Seg := indexed) t_int8 no_offsets
                (start int8_gt_minus_1000) eq_refl eq_refl
                (ExecRangeVisitorImplForIndex (Seg := indexed) t_int8)
                None
                (or_intror (conj eq_refl eq_refl))) as (H1 & _ & H2 & _).
    split; [exact H1 | exact H2].
Defined.




(** A text match on the growing segment: ten active rows, seven in the
    index. *)
Lemma text_match_padding_witness :
  cached_match_res_ (snd (ExecTextMatch (Seg := plain) (start text_match)))
  = Some [true; false; true; false; false; true; false; false; false; false] /\
  cached_index_chunk_valid_res_
    (snd (ExecTextMatch (Seg := plain) (start text_match)))
  = [true; true; true; true; true; true; false; false; false; false].
Proof.
  destruct (text_match_pads_to_active_count (Seg := plain) (start text_match))
    as [H _].
  - left. reflexivity.
  - vm_compute. discriminate.
  - destruct H as (H1 & H2 & _); try reflexivity.
    split; [exact H1 | exact H2].
Defined.

(** A phrase match with slop 5000000000, above UINT32_MAX, and one with
    slop 2. *)
Lemma phrase_match_slop_witness :
  fst (ExecTextMatch (Seg := plain) (start (phrase_match 5000000000)))
  = Throw InvalidParameter /\
  calls_since (start (phrase_match 2))
    (snd (ExecTextMatch (Seg := plain) (start (phrase_match 2))))
  = [CallPhraseMatchQuery "vector database" 2].
Proof.
  split.
  - destruct (phrase_match_slop_checked (Seg := plain)
                (start (phrase_match 5000000000)) eq_refl) as (H & _).
    apply H. right. vm_compute. reflexivity.
  - destruct (phrase_match_slop_checked (Seg := plain)
                (start (phrase_match 2)) eq_refl) as (_ & H & _).
    destruct H as [_ H]; [vm_compute; split; discriminate|].
    apply H; [reflexivity|]. vm_compute. discriminate.
Defined.

(** C5, against the code: [!=] with the array literal [1, 2] over the
    rows [{"k":1}], [{"k":"1"}], [{"k":1.0}], [{}], none of which holds an
    array at [/k], is false on every row, where the scalar form of the
    same operator is true on every row whose lookup fails. *)
Theorem json_not_equal_array_lookup_failure_is_false :
  scan_rows NotEqual (ArrayVal [Int64Val 1; Int64Val 2])
  = Ok ([false; false; false; false], [true; true; true; true], 4%nat) /\
  scan_rows NotEqual (Int64Val 1)
  = Ok ([false; true; false; true], [true; true; true; true], 4%nat).
Proof. split; reflexivity. Qed.

End ExecutorScenario.

(* ===================================================================== *)
(** * Further properties of the cache slot *)

Section CacheSlotInvariants.
Import CachingLayer.
Context {CellT D : Type} {Tr : Translator CellT} {DL : DList D}.
Implicit Types (s : CacheSlot CellT D) (cids need : list cid_t) (cid : cid_t).
Implicit Types (c : CacheCell CellT) (e : ErrorCode).

(** ** Cell-wise relations between the slot before and after a call *)

Section Related.
Context (R : CacheCell CellT -> CacheCell CellT -> Prop).
Context (R_refl : forall c, R c c).
Context (R_trans : forall a b c, R a b -> R b c -> R a c).
Context (R_pin : forall c, R c (snd (pin c))).
Context (R_unpin : forall c, R c (unpin c)).
Context (R_set_cell : forall p r c, R c (set_cell p r c)).
Context (R_set_error : forall e c, R c (set_error e c)).

Lemma related_refl (l : list (CacheCell CellT)) : Forall2 R l l.
Proof. induction l; constructor; auto. Qed.

Lemma related_trans (l1 l2 l3 : list (CacheCell CellT)) :
  Forall2 R l1 l2 -> Forall2 R l2 l3 -> Forall2 R l1 l3.
Proof.
  intros H; revert l3.
  induction H; intros l3 H3; inversion H3; subst; constructor; eauto.
Qed.

Lemma related_insert (l : list (CacheCell CellT)) i c c' :
  l !! i = Some c -> R c c' -> Forall2 R l (<[i := c']> l).
Proof.
  intros Hl Hr.
  apply Forall2_same_length_lookup_2; [by rewrite length_insert|].
  intros j x y Hx Hy.
  destruct (decide (j = i)) as [->|Hne].
  - rewrite list_lookup_insert_eq in Hy by (eapply lookup_lt_Some; eauto).
    by simplify_eq.
  - rewrite list_lookup_insert_ne in Hy by done. by simplify_eq.
Qed.

Lemma update_cell_related cid (f : CacheCell CellT -> CacheCell CellT) s :
  (forall c, R c (f c)) -> Forall2 R (cells_ s) (cells_ (update_cell cid f s)).
Proof.
  intros Hf. unfold update_cell.
  destruct (cells_ s !! idx cid) as [c|] eqn:Hc; simpl.
  - eapply related_insert; eauto.
  - apply related_refl.
Qed.

Lemma publish_related cids (results : list (cid_t * CellT)) : forall s,
  Forall2 R (cells_ s) (cells_ (publish cids results s)).
Proof.
  induction results as [|[cid p] rest IH]; intros s; simpl.
  - apply related_refl.
  - eapply related_trans; [|apply IH]. simpl.
    apply update_cell_related. auto.
Qed.

Lemma fail_cells_related cids e : forall s,
  Forall2 R (cells_ s) (cells_ (fail_cells cids e s)).
Proof.
  induction cids as [|cid rest IH]; intros s; simpl.
  - apply related_refl.
  - eapply related_trans; [|apply IH]. simpl.
    apply update_cell_related. auto.
Qed.

Lemma drop_pins_related (pins : list cid_t) : forall s,
  Forall2 R (cells_ s) (cells_ (drop_pins pins s)).
Proof.
  induction pins as [|cid rest IH]; intros s; simpl.
  - apply related_refl.
  - eapply related_trans; [|apply IH]. simpl.
    apply update_cell_related. auto.
Qed.

Lemma pin_all_related cids : forall need res s,
  Forall2 R (cells_ s) (cells_ (snd (pin_all cids need res s))).
Proof.
  induction cids as [|cid rest IH]; intros need res s; simpl.
  - apply related_refl.
  - destruct (cells_ s !! idx cid) as [c|] eqn:Hc; [|apply IH].
    pose proof (R_pin c) as Hp.
    destruct (pin c) as [need_load c'] eqn:Hpin. simpl in Hp.
    destruct need_load; (eapply related_trans; [|apply IH]); simpl;
      eapply related_insert; eauto.
Qed.

Lemma load_cells_related cids s :
  Forall2 R (cells_ s) (cells_ (snd (load_cells cids s))).
Proof.
  unfold load_cells. destruct (get_cells cids) as [e|results]; simpl.
  - apply related_refl.
  - apply (publish_related cids results (log s (EvGetCells cids))).
Qed.

Lemma try_block_related cids rn timeout s :
  Forall2 R (cells_ s) (cells_ (snd (try_block cids rn timeout s))).
Proof.
  unfold try_block. destruct (dlist_ s) as [d|]; [|apply load_cells_related].
  destruct (reserveMemoryWithTimeout d rn timeout) as [[] d'].
  - apply (load_cells_related cids
             (log (with_dlist s (Some d')) (EvReserve rn true))).
  - apply related_refl.
Qed.

Lemma RunLoad_related cids rn timeout s :
  Forall2 R (cells_ s) (cells_ (RunLoad cids rn timeout s)).
Proof.
  unfold RunLoad.
  pose proof (try_block_related cids rn timeout s) as Ht.
  destruct (try_block cids rn timeout s) as [[|ew flag] s1]; simpl in Ht; auto.
  eapply related_trans; [exact Ht|].
  pose proof (fail_cells_related cids ew s1) as Hf.
  destruct (dlist_ (fail_cells cids ew s1)); [destruct (negb flag)|]; exact Hf.
Qed.

Lemma PinInternal_related cids timeout s :
  Forall2 R (cells_ s) (cells_ (snd (PinInternal cids timeout s))).
Proof.
  unfold PinInternal.
  destruct (existsb (cid_out_of_range s) cids); [apply related_refl|].
  pose proof (pin_all_related cids [] ru_zero s) as Hp.
  destruct (pin_all cids [] ru_zero s) as [[need rn] s1]. simpl in Hp.
  set (s2 := match need with [] => s1 | _ => RunLoad need rn timeout s1 end).
  assert (Forall2 R (cells_ s1) (cells_ s2)) as H2.
  { subst s2. destruct need; [apply related_refl|apply RunLoad_related]. }
  destruct (collect cids s2); simpl;
    try (eapply related_trans; [exact Hp|exact H2]).
  eapply related_trans; [exact Hp|].
  eapply related_trans; [exact H2|apply drop_pins_related].
Qed.

Lemma pin_and_drop_related (uids : list uid_t) s :
  Forall2 R (cells_ s) (cells_ (snd (pin_and_drop uids s))).
Proof.
  unfold pin_and_drop, PinCells.
  pose proof (PinInternal_related (involved_cids uids) default_timeout s) as H.
  destruct (PinInternal (involved_cids uids) default_timeout s) as [[pins|e|] s1];
    simpl in *; auto.
  eapply related_trans; [exact H|apply drop_pins_related].
Qed.

End Related.

(** ** What every operation keeps *)

Lemma same_shape_refl c : same_shape c c.
Proof. by split. Qed.

Lemma same_shape_trans c1 c2 c3 :
  same_shape c1 c2 -> same_shape c2 c3 -> same_shape c1 c3.
Proof.
  intros [H1 H1'] [H2 H2']. split; [congruence|]. auto.
Qed.

Lemma same_shape_pin c : same_shape c (snd (pin c)).
Proof.
  unfold same_shape, pin. destruct (state_ c) eqn:Hs; simpl; rewrite ?Hs;
    split; try done; auto.
Qed.

Lemma same_shape_unpin c : same_shape c (unpin c).
Proof. by split. Qed.

Lemma same_shape_set_cell (p : CellT) (r : bool) c : same_shape c (set_cell p r c).
Proof.
  unfold same_shape, set_cell. destruct (state_ c) eqn:Hs; simpl; rewrite ?Hs;
    split; try done; eauto.
Qed.

Lemma same_shape_set_error e c : same_shape c (set_error e c).
Proof.
  unfold same_shape, set_error. destruct (state_ c) eqn:Hs; simpl; rewrite ?Hs;
    split; try done; auto.
Qed.

Lemma same_shape_manual_evict c : same_shape c (snd (manual_evict c)).
Proof.
  unfold same_shape, manual_evict.
  destruct (bool_decide (state_ c = LOADED) && (pin_count c =? 0)%nat); simpl;
    split; try done; auto.
Qed.

Lemma shape_invariants s s' :
  Forall2 same_shape (cells_ s) (cells_ s') ->
  slot_wf s -> loaded_has_payload s ->
  slot_wf s' /\ loaded_has_payload s'.
Proof.
  intros HR (Hlen & Hn & Hsize) Hp. split; [split; [|split]|].
  - rewrite <- Hlen. symmetry. eapply Forall2_length; eauto.
  - done.
  - intros i c' Hc'.
    destruct (Forall2_lookup_r _ _ _ _ _ HR Hc') as (c & Hc & Hs & _).
    rewrite Hs. eauto.
  - intros i c' Hc' Hl.
    destruct (Forall2_lookup_r _ _ _ _ _ HR Hc') as (c & Hc & _ & Hs).
    apply Hs; eauto.
Qed.

Lemma new_slot_lookup (dlist : option D) i :
  (i < num_cells)%nat ->
  cells_ (new_slot dlist) !! i
  = Some (mkCell NOT_LOADED 0 (estimated_byte_size_of_cell (Z.of_nat i)) None None).
Proof.
  intros Hi. unfold new_slot. simpl.
  change (map ?f ?l) with (f <$> l).
  rewrite list_lookup_fmap, lookup_seq_lt by done. reflexivity.
Qed.

Lemma idx_of_nat (i : nat) : Z.of_nat i < 2 ^ 63 -> idx (Z.of_nat i) = i.
Proof.
  intros Hi. unfold idx. rewrite to_size_t_small by lia. lia.
Qed.

(** X1.  The constructor: with fewer than 2^63 cells, the new slot
    satisfies the slot invariants, its trace is empty, and every cid below
    [num_cells] names a NOT_LOADED, unpinned cell without payload, sized
    by the translator's estimate, whose first pin asks for a load. *)
Theorem new_slot_establishes_invariants (dlist : option D) :
  Z.of_nat num_cells < 2 ^ 63 ->
  let s := new_slot dlist in
  slot_wf s /\ loaded_has_payload s /\ trace s = [] /\ dlist_ s = dlist /\
  forall cid, 0 <= cid < Z.of_nat num_cells ->
    cell_state s cid = Some NOT_LOADED /\
    pin_count_at s (idx cid) = Some 0%nat /\
    get_ith_cell cid s = None /\
    cell_size s cid = estimated_byte_size_of_cell cid /\
    needs_load s cid = true.
Proof.
  intros Hn s.
  assert (length (cells_ s) = num_cells) as Hlen.
  { subst s. unfold new_slot. simpl. by rewrite length_map, length_seq. }
  split; [split; [done|split; [done|]]|split; [|split; [done|split; [done|]]]].
  - intros i c Hc.
    assert (i < num_cells)%nat as Hi.
    { rewrite <- Hlen. eapply lookup_lt_Some; eauto. }
    subst s. rewrite new_slot_lookup in Hc by done. by simplify_eq.
  - intros i c Hc.
    assert (i < num_cells)%nat as Hi.
    { rewrite <- Hlen. eapply lookup_lt_Some; eauto. }
    subst s. rewrite new_slot_lookup in Hc by done. by simplify_eq.
  - intros cid Hcid.
    assert (idx cid = Z.to_nat cid) as Hidx.
    { unfold idx. rewrite to_size_t_small by lia. done. }
    assert (cells_ s !! idx cid
            = Some (mkCell NOT_LOADED 0 (estimated_byte_size_of_cell cid) None None))
      as Hc.
    { subst s. rewrite Hidx, new_slot_lookup by lia.
      by rewrite Z2Nat.id by lia. }
    unfold cell_state, pin_count_at, get_ith_cell, cell_size, needs_load.
    rewrite Hc. done.
Qed.

(** X2.  No pinning operation resizes [cells_] or a cell: [PinCells],
    [PinAllCells] and [Warmup], however they end, keep the slot invariants
    (one cell per cid, each with the translator's size estimate) and leave
    every LOADED cell with its payload. *)
Theorem pinning_keeps_slot_invariants (uids : list uid_t) (timeout : Z) s :
  slot_wf s -> loaded_has_payload s ->
  (slot_wf (snd (PinCells uids timeout s)) /\
   loaded_has_payload (snd (PinCells uids timeout s))) /\
  (slot_wf (snd (PinAllCells timeout s)) /\
   loaded_has_payload (snd (PinAllCells timeout s))) /\
  (slot_wf (snd (Warmup s)) /\ loaded_has_payload (snd (Warmup s))).
Proof.
  intros Hwf Hp.
  pose proof same_shape_refl as R1. pose proof same_shape_trans as R2.
  pose proof same_shape_pin as R3. pose proof same_shape_unpin as R4.
  pose proof same_shape_set_cell as R5. pose proof same_shape_set_error as R6.
  split; [|split].
  - eapply shape_invariants; eauto. unfold PinCells.
    by apply PinInternal_related.
  - eapply shape_invariants; eauto. unfold PinAllCells.
    by apply PinInternal_related.
  - unfold Warmup. destruct (decide _); [done|].
    eapply shape_invariants; eauto. by apply pin_and_drop_related.
Qed.

(** ** What a returned accessor guarantees *)

Lemma shape_payload s s' :
  Forall2 same_shape (cells_ s) (cells_ s') ->
  loaded_has_payload s -> loaded_has_payload s'.
Proof.
  intros HR Hp i c' Hc' Hl.
  destruct (Forall2_lookup_r _ _ _ _ _ HR Hc') as (c & Hc & _ & Hs).
  apply Hs; eauto.
Qed.

Lemma PinInternal_payload cids timeout s :
  loaded_has_payload s -> loaded_has_payload (snd (PinInternal cids timeout s)).
Proof.
  apply shape_payload, PinInternal_related;
    auto using same_shape_refl, same_shape_pin, same_shape_unpin,
      same_shape_set_cell, same_shape_set_error.
  apply same_shape_trans.
Qed.

Lemma collect_accessor cids s pins :
  collect cids s = Accessor pins ->
  pins = cids /\ Forall (fun cid => cell_state s cid = Some LOADED) cids.
Proof.
  unfold collect. destruct (bool_decide (Exists _ cids)); [done|].
  destruct (bool_decide (Forall _ cids)) eqn:HF; [|done].
  intros H. injection H as <-. split; [done|].
  by apply bool_decide_eq_true in HF.
Qed.

Lemma PinInternal_accessor cids timeout s pins :
  fst (PinInternal cids timeout s) = Accessor pins ->
  pins = cids /\
  Forall (fun cid => cell_state (snd (PinInternal cids timeout s)) cid
                     = Some LOADED) cids.
Proof.
  unfold PinInternal.
  destruct (existsb (cid_out_of_range s) cids); [done|].
  destruct (pin_all cids [] ru_zero s) as [[need rn] s1].
  set (s2 := match need with [] => s1 | _ => RunLoad need rn timeout s1 end).
  destruct (collect cids s2) as [p|e|] eqn:Hc; simpl; intros H; try done.
  injection H as ->. by apply collect_accessor.
Qed.

Lemma loaded_cell_payload s cid :
  loaded_has_payload s -> cell_state s cid = Some LOADED ->
  is_Some (get_ith_cell cid s).
Proof.
  unfold cell_state, get_ith_cell. intros Hp Hs.
  destruct (cells_ s !! idx cid) as [c|] eqn:Hc; [|done].
  simpl in *. eapply Hp; eauto. congruence.
Qed.


(** ** The successful load *)

Lemma publish_state_kept cids (results : list (cid_t * CellT)) s i :
  state_ <$> cells_ s !! i = Some LOADED ->
  state_ <$> cells_ (publish cids results s) !! i = Some LOADED.
Proof.
  intros Hs.
  assert (Forall2 (fun c c' => state_ c = LOADED -> state_ c' = LOADED)
            (cells_ s) (cells_ (publish cids results s))) as HR.
  { apply publish_related; auto.
    intros p r c0. simpl. unfold set_cell.
    destruct (state_ c0) eqn:E; simpl; congruence. }
  destruct (cells_ s !! i) as [c|] eqn:Hc; [|done].
  destruct (Forall2_lookup_l _ _ _ i c HR Hc) as (c' & -> & Hst).
  simpl in *. f_equal. apply Hst. congruence.
Qed.

Lemma publish_state_loaded cids (results : list (cid_t * CellT)) cid : forall s,
  cid ∈ (fst <$> results) -> (idx cid < length (cells_ s))%nat ->
  cell_state (publish cids results s) cid = Some LOADED.
Proof.
  induction results as [|[cid0 p] rest IH]; intros s Hin Hlen; simpl in *.
  - by apply elem_of_nil in Hin.
  - apply elem_of_cons in Hin as [->|Hin].
    + apply publish_state_kept. simpl.
      rewrite update_cell_lookup, decide_True by done.
      destruct (lookup_lt_is_Some_2 _ _ Hlen) as [c ->]. simpl.
      unfold set_cell. destruct (state_ c) eqn:E; simpl; congruence.
    + apply IH; [done|]. simpl.
      assert (Forall2 (fun _ _ => True) (cells_ s)
                (cells_ (update_cell cid0
                           (set_cell p (bool_decide (cid0 ∈ cids))) s))) as HR.
      { by apply update_cell_related. }
      by rewrite <- (Forall2_length _ _ _ HR).
Qed.

(** A load whose reservation (if there is a budget) and fetch succeed is
    the publication of the fetched cells. *)
Lemma RunLoad_success cids rn timeout s (results : list (cid_t * CellT)) :
  (forall d, dlist_ s = Some d ->
             fst (reserveMemoryWithTimeout d rn timeout) = true) ->
  get_cells cids = inr results ->
  exists s0,
    RunLoad cids rn timeout s = publish cids results s0 /\
    cells_ s0 = cells_ s /\
    trace s0 = trace s
               ++ match dlist_ s with
                  | Some _ => [EvReserve rn true]
                  | None => []
                  end ++ [EvGetCells cids] /\
    dlist_ s0 = match dlist_ s with
                | Some d => Some (snd (reserveMemoryWithTimeout d rn timeout))
                | None => None
                end.
Proof.
  intros Hres Hget. unfold RunLoad, try_block.
  destruct (dlist_ s) as [d|] eqn:Hd.
  - specialize (Hres d eq_refl).
    destruct (reserveMemoryWithTimeout d rn timeout) as [ok d'].
    simpl in Hres. subst ok. unfold load_cells. rewrite Hget.
    eexists. split; [reflexivity|]. simpl.
    split; [done|]. split; [by rewrite <- app_assoc|done].
  - unfold load_cells. rewrite Hget.
    eexists. split; [reflexivity|]. simpl. by rewrite Hd.
Qed.

Lemma collect_all_loaded cids s :
  Forall (fun cid => cell_state s cid = Some LOADED) cids ->
  collect cids s = Accessor cids.
Proof.
  intros HF. unfold collect.
  rewrite bool_decide_eq_false_2.
  - by rewrite bool_decide_eq_true_2.
  - rewrite Exists_exists. intros (cid & Hin & He).
    rewrite Forall_forall in HF. specialize (HF _ Hin). congruence.
Qed.

Lemma needs_load_false_loaded s cid c :
  cells_ s !! idx cid = Some c -> needs_load s cid = false ->
  state_ c <> LOADING -> state_ (snd (pin c)) = LOADED.
Proof.
  unfold needs_load. intros -> Hn Hs. unfold pin in *.
  destruct (state_ c); simpl in *; congruence.
Qed.

Lemma PinInternal_success cids timeout s (results : list (cid_t * CellT)) :
  NoDup cids -> Forall cid_t_range cids ->
  existsb (cid_out_of_range s) cids = false ->
  Forall (fun cid => cell_state s cid <> Some LOADING) cids ->
  (forall d, dlist_ s = Some d ->
     fst (reserveMemoryWithTimeout d
            (fold_left ru_add (cell_size s <$> need_load_subset s cids) ru_zero)
            timeout) = true) ->
  get_cells (need_load_subset s cids) = inr results ->
  (forall cid, cid ∈ need_load_subset s cids -> cid ∈ (fst <$> results)) ->
  fst (PinInternal cids timeout s) = Accessor cids.
Proof.
  intros Hnd Hrange Hoor Hstates Hres Hget Hcover.
  assert (Forall (fun cid => (idx cid < length (cells_ s))%nat) cids) as Hin.
  { apply existsb_false_Forall in Hoor.
    eapply Forall_impl; [exact Hoor|]. intros cid. apply cid_in_range_idx. }
  pose proof (pin_all_spec cids [] ru_zero s (NoDup_idx _ Hnd Hrange) Hin
                (fun cid _ => not_elem_of_nil cid)) as Hspec.
  unfold PinInternal. rewrite Hoor.
  destruct (pin_all cids [] ru_zero s) as [[need rn] s1]. simpl in Hspec.
  destruct Hspec as (-> & -> & _ & Hdl & Hcells).
  set (need := need_load_subset s cids) in *.
  set (amount := fold_left ru_add (cell_size s <$> need) ru_zero) in *.
  set (s2 := match need with [] => s1 | _ => RunLoad need amount timeout s1 end).
  assert (exists s0 res, s2 = publish need res s0 /\ cells_ s0 = cells_ s1 /\
            forall cid, cid ∈ need -> cid ∈ (fst <$> res)) as (s0 & res & Hs2 & Hs0 & Hcov).
  { destruct need as [|cid0 rest] eqn:Hneed.
    - exists s1, []. split; [done|]. split; [done|].
      intros cid Hc. by apply elem_of_nil in Hc.
    - destruct (RunLoad_success (cid0 :: rest) amount timeout s1 results)
        as (s0 & Heq & Hc0 & _); [by rewrite Hdl|done|].
      exists s0, results. by rewrite <- Heq. }
  assert (Forall (fun cid => cell_state s2 cid = Some LOADED) cids) as HL.
  { rewrite Forall_forall. intros cid Hcid.
    rewrite Forall_forall in Hin, Hstates.
    destruct (lookup_lt_is_Some_2 _ _ (Hin _ Hcid)) as [c Hc].
    assert (cells_ s1 !! idx cid = Some (snd (pin c))) as Hc1.
    { rewrite Hcells, decide_True, Hc; [done|].
      apply list_elem_of_fmap_2. done. }
    rewrite Hs2.
    destruct (needs_load s cid) eqn:Hnl.
    - apply publish_state_loaded.
      + apply Hcov. subst need. unfold need_load_subset.
        apply list_elem_of_filter. done.
      + rewrite Hs0. eapply lookup_lt_Some; eauto.
    - unfold cell_state. apply publish_state_kept.
      rewrite Hs0, Hc1. simpl. f_equal.
      eapply needs_load_false_loaded; eauto.
      intros Hst. apply (Hstates _ Hcid). unfold cell_state.
      rewrite Hc. simpl. congruence. }
  by rewrite (collect_all_loaded _ _ HL).
Qed.

(** X4.  The happy path of [PinCells]: when every involved cid is in
    range, no involved cell is being loaded by someone else, the budget
    (if any) grants the sizes of the cells that need a load and the
    translator returns at least those cells, the call yields an accessor
    over the involved cids, all of which are LOADED with a payload. *)
Theorem pin_cells_loads_missing_cells
    (uids : list uid_t) (timeout : Z) s (results : list (cid_t * CellT)) :
  let cids := involved_cids uids in
  let need := need_load_subset s cids in
  let amount := fold_left ru_add (cell_size s <$> need) ru_zero in
  loaded_has_payload s ->
  Forall cid_t_range cids ->
  existsb (cid_out_of_range s) cids = false ->
  Forall (fun cid => cell_state s cid <> Some LOADING) cids ->
  (forall d, dlist_ s = Some d ->
     fst (reserveMemoryWithTimeout d amount timeout) = true) ->
  get_cells need = inr results ->
  (forall cid, cid ∈ need -> cid ∈ (fst <$> results)) ->
  let s' := snd (PinCells uids timeout s) in
  fst (PinCells uids timeout s) = Accessor cids /\
  Forall (fun cid => cell_state s' cid = Some LOADED /\
                     is_Some (get_ith_cell cid s')) cids.
Proof.
  intros cids need amount Hp Hrange Hoor Hstates Hres Hget Hcover s'.
  assert (fst (PinCells uids timeout s) = Accessor cids) as Hacc.
  { unfold PinCells. eapply PinInternal_success; eauto.
    apply involved_cids_spec. }
  split; [exact Hacc|].
  unfold PinCells in *.
  destruct (PinInternal_accessor _ _ _ _ Hacc) as [_ HF].
  eapply Forall_impl; [exact HF|]. intros cid Hst. split; [exact Hst|].
  apply loaded_cell_payload; [|exact Hst]. by apply PinInternal_payload.
Qed.

Lemma publish_untouched cids (results : list (cid_t * CellT)) i : forall s,
  i ∉ (idx <$> (fst <$> results)) ->
  cells_ (publish cids results s) !! i = cells_ s !! i.
Proof.
  induction results as [|[cid p] rest IH]; intros s Hi; simpl in *; [done|].
  apply not_elem_of_cons in Hi as [Hne Hi].
  rewrite IH by done. simpl.
  rewrite update_cell_lookup, decide_False by done.
  by destruct (cells_ s !! i).
Qed.

(** X5.  A load that succeeds keeps its reservation: with a budget that
    grants [resource_needed] and a translator that returns [results],
    [RunLoad] reserves, fetches once and publishes every returned cell,
    flagged as requested iff its cid was asked for; nothing is released
    and no error is set; every returned cell the slot has is LOADED
    afterwards, a cell that was not returned is left as it was. *)
Theorem run_load_success_keeps_reservation
    cids rn (timeout : Z) s d (results : list (cid_t * CellT)) :
  dlist_ s = Some d ->
  fst (reserveMemoryWithTimeout d rn timeout) = true ->
  get_cells cids = inr results ->
  let s' := RunLoad cids rn timeout s in
  events_since s s'
  = [EvReserve rn true; EvGetCells cids]
      ++ ((fun r => EvSetCell (fst r) (bool_decide (fst r ∈ cids))) <$> results) /\
  dlist_ s' = Some (snd (reserveMemoryWithTimeout d rn timeout)) /\
  (forall cid, cid ∈ (fst <$> results) -> (idx cid < length (cells_ s))%nat ->
     cell_state s' cid = Some LOADED) /\
  (forall i, i ∉ (idx <$> (fst <$> results)) -> cells_ s' !! i = cells_ s !! i).
Proof.
  intros Hd Hok Hget s'.
  destruct (RunLoad_success cids rn timeout s results) as (s0 & Heq & Hc & Ht & Hdl).
  { intros d0 Hd0. congruence. }
  { done. }
  subst s'. rewrite Heq. rewrite Hd in Ht, Hdl.
  destruct (publish_spec cids results s0) as [Htr Hdp].
  split; [|split; [|split]].
  - apply events_since_app. rewrite Htr, Ht.
    rewrite <- !app_assoc. reflexivity.
  - by rewrite Hdp.
  - intros cid Hin Hlen. apply publish_state_loaded; [done|]. by rewrite Hc.
  - intros i Hi. rewrite publish_untouched by done. by rewrite Hc.
Qed.

(** X6.  A slot without a budget ([dlist_] null) never reserves and
    never releases: [RunLoad] calls the translator at once; when it
    throws, every elected cell that is LOADING ends in ERROR with the
    translator's error; when it returns, the returned cells are
    published. *)
Theorem run_load_without_budget cids rn (timeout : Z) s :
  dlist_ s = None ->
  let s' := RunLoad cids rn timeout s in
  dlist_ s' = None /\
  Forall (fun ev => is_reserve ev = false /\ is_release ev = false)
         (events_since s s') /\
  (forall e, get_cells cids = inl e ->
     events_since s s'
     = EvGetCells cids :: ((fun cid => EvSetError cid e) <$> cids) /\
     Forall (fun cid => cell_state s cid = Some LOADING ->
                        cell_state s' cid = Some ERROR /\
                        cell_error s' cid = Some e) cids) /\
  (forall results, get_cells cids = inr results ->
     events_since s s'
     = EvGetCells cids
         :: ((fun r => EvSetCell (fst r) (bool_decide (fst r ∈ cids))) <$> results)).
Proof.
  intros Hd s'.
  assert (forall e, get_cells cids = inl e ->
            s' = fail_cells cids e (log s (EvGetCells cids))) as Hfail.
  { intros e Hget. subst s'. unfold RunLoad, try_block, load_cells.
    rewrite Hd, Hget.
    destruct (fail_cells_spec cids e (log s (EvGetCells cids))) as (_ & Hdl & _).
    simpl in Hdl. by rewrite Hdl, Hd. }
  assert (forall results, get_cells cids = inr results ->
            s' = publish cids results (log s (EvGetCells cids))) as Hpub.
  { intros results Hget. subst s'. unfold RunLoad, try_block, load_cells.
    by rewrite Hd, Hget. }
  assert (forall e, get_cells cids = inl e ->
            events_since s s'
            = EvGetCells cids :: ((fun cid => EvSetError cid e) <$> cids)) as Hev1.
  { intros e Hget. apply events_since_app. rewrite (Hfail e Hget).
    destruct (fail_cells_spec cids e (log s (EvGetCells cids))) as (Ht & _).
    rewrite Ht. simpl. by rewrite <- app_assoc. }
  assert (forall results, get_cells cids = inr results ->
            events_since s s'
            = EvGetCells cids
                :: ((fun r => EvSetCell (fst r) (bool_decide (fst r ∈ cids)))
                      <$> results)) as Hev2.
  { intros results Hget. apply events_since_app. rewrite (Hpub results Hget).
    destruct (publish_spec cids results (log s (EvGetCells cids))) as (Ht & _).
    rewrite Ht. simpl. by rewrite <- app_assoc. }
  split; [|split; [|split]].
  - destruct (get_cells cids) as [e|results] eqn:Hget.
    + rewrite (Hfail e eq_refl).
      destruct (fail_cells_spec cids e (log s (EvGetCells cids))) as (_ & Hdl & _).
      by rewrite Hdl.
    + rewrite (Hpub results eq_refl).
      destruct (publish_spec cids results (log s (EvGetCells cids))) as (_ & Hdl).
      by rewrite Hdl.
  - destruct (get_cells cids) as [e|results] eqn:Hget.
    + rewrite (Hev1 e eq_refl). constructor; [done|].
      apply Forall_fmap, Forall_forall. by intros.
    + rewrite (Hev2 results eq_refl). constructor; [done|].
      apply Forall_fmap, Forall_forall. by intros.
  - intros e Hget. split; [by apply Hev1|].
    rewrite Forall_forall. intros cid Hin Hst. rewrite (Hfail e Hget).
    by apply set_error_loading.
  - exact Hev2.
Qed.

(** ** Pin counts *)

Lemma related_pin_count_at s s' i :
  Forall2 (fun c c' => pin_count c' = pin_count c) (cells_ s) (cells_ s') ->
  pin_count_at s' i = pin_count_at s i.
Proof.
  intros HR. unfold pin_count_at.
  destruct (cells_ s !! i) as [c|] eqn:Hc.
  - destruct (Forall2_lookup_l _ _ _ i c HR Hc) as (c' & -> & Hpc).
    simpl. by rewrite Hpc.
  - apply lookup_ge_None in Hc. rewrite (Forall2_length _ _ _ HR) in Hc.
    apply lookup_ge_None in Hc. by rewrite Hc.
Qed.

Lemma try_block_completed_pin_counts cids rn timeout s i :
  pin_count_at (snd (try_block cids rn timeout s)) i = pin_count_at s i.
Proof.
  apply related_pin_count_at, try_block_related; auto.
  - intros a b c H1 H2. congruence.
  - intros p r c. unfold set_cell. by destruct (state_ c).
Qed.

Lemma load_cells_caught_cells cids s e flag :
  fst (load_cells cids s) = Caught e flag ->
  cells_ (snd (load_cells cids s)) = cells_ s.
Proof.
  unfold load_cells. by destruct (get_cells cids).
Qed.

Lemma try_block_caught_cells cids rn timeout s e flag :
  fst (try_block cids rn timeout s) = Caught e flag ->
  cells_ (snd (try_block cids rn timeout s)) = cells_ s.
Proof.
  unfold try_block. destruct (dlist_ s) as [d|].
  - destruct (reserveMemoryWithTimeout d rn timeout) as [[] d']; [|done].
    intros H. by rewrite (load_cells_caught_cells _ _ _ _ H).
  - apply load_cells_caught_cells.
Qed.

Lemma cell_state_ext s s' cid :
  cells_ s' = cells_ s -> cell_state s' cid = cell_state s cid.
Proof. unfold cell_state. by intros ->. Qed.

(** A load either completes, leaving every pin count as it was, or turns
    every elected LOADING cell into an ERROR cell. *)
Lemma RunLoad_completes_or_fails cids rn timeout s :
  (forall i, pin_count_at (RunLoad cids rn timeout s) i = pin_count_at s i) \/
  (forall cid, cid ∈ cids -> cell_state s cid = Some LOADING ->
               cell_state (RunLoad cids rn timeout s) cid = Some ERROR).
Proof.
  unfold RunLoad.
  pose proof (try_block_completed_pin_counts cids rn timeout s) as Hpc.
  pose proof (try_block_caught_cells cids rn timeout s) as Hcc.
  destruct (try_block cids rn timeout s) as [[|ew flag] s1]; simpl in *.
  - by left.
  - right. intros cid Hin Hst.
    specialize (Hcc ew flag eq_refl).
    assert (cell_state (fail_cells cids ew s1) cid = Some ERROR) as Hf.
    { apply set_error_loading; [done|]. by rewrite (cell_state_ext s).  }
    destruct (dlist_ (fail_cells cids ew s1)); [destruct (negb flag)|]; exact Hf.
Qed.

Lemma drop_pins_lookup (pins : list cid_t) : forall s i,
  NoDup (idx <$> pins) ->
  cells_ (drop_pins pins s) !! i
  = (if decide (i ∈ idx <$> pins) then unpin else id) <$> cells_ s !! i.
Proof.
  induction pins as [|cid rest IH]; intros s i Hnd; simpl.
  - destruct (decide (i ∈ [])) as [H|_]; [by apply elem_of_nil in H|].
    by rewrite option_fmap_id.
  - change (list_fmap Z nat idx rest) with (idx <$> rest) in *.
    apply NoDup_cons in Hnd as [Hnotin Hnd].
    rewrite IH by done. simpl.
    rewrite update_cell_lookup, <- option_fmap_compose.
    apply option_fmap_ext. intros c. simpl.
    repeat case_decide; simpl; try done;
      rewrite elem_of_cons in *; subst; tauto.
Qed.

Lemma PinInternal_accessor_pin_counts cids timeout s pins i c :
  NoDup cids -> Forall cid_t_range cids ->
  fst (PinInternal cids timeout s) = Accessor pins ->
  cells_ s !! i = Some c ->
  pin_count_at (snd (PinInternal cids timeout s)) i
  = Some (if decide (i ∈ idx <$> cids) then pin_count (snd (pin c))
          else pin_count c).
Proof.
  intros Hnd Hrange Hacc Hc. revert Hacc. unfold PinInternal.
  destruct (existsb (cid_out_of_range s) cids) eqn:Hoor; [done|].
  assert (Forall (fun cid => (idx cid < length (cells_ s))%nat) cids) as Hin.
  { apply existsb_false_Forall in Hoor.
    eapply Forall_impl; [exact Hoor|]. intros cid. apply cid_in_range_idx. }
  pose proof (pin_all_spec cids [] ru_zero s (NoDup_idx _ Hnd Hrange) Hin
                (fun cid _ => not_elem_of_nil cid)) as Hspec.
  destruct (pin_all cids [] ru_zero s) as [[need rn] s1]. simpl in Hspec.
  destruct Hspec as (Hneed & _ & _ & _ & Hcells). simpl in Hneed.
  set (s2 := match need with [] => s1 | _ => RunLoad need rn timeout s1 end).
  destruct (collect cids s2) as [p|e|] eqn:Hcol; simpl; intros H; try done.
  apply collect_accessor in Hcol as [_ HL].
  assert (pin_count_at s2 i = pin_count_at s1 i) as ->.
  { subst s2. destruct need as [|cid0 rest] eqn:Hn; [done|].
    destruct (RunLoad_completes_or_fails (cid0 :: rest) rn timeout s1)
      as [Hpc|Hfail]; [by apply Hpc|exfalso].
    assert (cid0 ∈ need_load_subset s cids) as Hin0.
    { rewrite <- Hneed. apply elem_of_cons. by left. }
    unfold need_load_subset in Hin0.
    apply list_elem_of_filter in Hin0 as [Hnl Hcid0].
    rewrite Forall_forall in HL, Hin.
    specialize (HL _ Hcid0).
    rewrite Hfail in HL; [done|apply elem_of_cons; by left|].
    unfold cell_state. rewrite Hcells.
    rewrite decide_True by (by apply list_elem_of_fmap_2).
    unfold needs_load in Hnl.
    destruct (cells_ s !! idx cid0) as [c0|]; [|done]. simpl.
    unfold pin in *. by destruct (state_ c0). }
  unfold pin_count_at. rewrite Hcells, Hc. simpl.
  by destruct (decide (i ∈ idx <$> cids)).
Qed.

Lemma pin_count_after_pin c :
  pin_count (snd (pin c))
  = if decide (state_ c = ERROR) then 1%nat else S (pin_count c).
Proof. unfold pin. by destruct (state_ c). Qed.

(** X7.  An accessor holds exactly one pin per involved cell: after a
    [PinCells] that yields an accessor, the pin count of every involved
    cell is one more than before (one, for a cell that was in ERROR and
    was reset), and the pin count of every other cell is unchanged. *)
Theorem accessor_pins_each_cell_once
    (uids : list uid_t) (timeout : Z) s pins i c :
  Forall cid_t_range (involved_cids uids) ->
  fst (PinCells uids timeout s) = Accessor pins ->
  cells_ s !! i = Some c ->
  pin_count_at (snd (PinCells uids timeout s)) i
  = Some (if decide (i ∈ idx <$> involved_cids uids)
          then if decide (state_ c = ERROR) then 1%nat else S (pin_count c)
          else pin_count c).
Proof.
  intros Hrange Hacc Hc. unfold PinCells in *.
  rewrite (PinInternal_accessor_pin_counts _ _ _ pins i c); try done.
  - by rewrite pin_count_after_pin.
  - apply involved_cids_spec.
Qed.

(** X8.  [Warmup] holds no pin when it returns: it leaves the pin count
    of every cell that was not in ERROR as it found it, and, unless the
    policy is Disable, every cell it touched LOADED. *)
Theorem warmup_releases_its_pins s :
  Forall cid_t_range (involved_cids (iota num_cells)) ->
  fst (Warmup s) = Returns ->
  (forall i c, cells_ s !! i = Some c -> state_ c <> ERROR ->
     pin_count_at (snd (Warmup s)) i = Some (pin_count c)) /\
  (cache_warmup_policy <> CacheWarmupPolicy_Disable ->
   Forall (fun cid => cell_state (snd (Warmup s)) cid = Some LOADED)
          (involved_cids (iota num_cells))).
Proof.
  intros Hrange. unfold Warmup.
  destruct (decide (cache_warmup_policy = CacheWarmupPolicy_Disable)) as [Hd|Hd].
  { intros _. split; [|done]. intros i c Hc _. unfold pin_count_at.
    simpl. by rewrite Hc. }
  unfold pin_and_drop, PinCells.
  set (cids := involved_cids (iota num_cells)) in *.
  assert (NoDup cids) as Hnd by apply involved_cids_spec.
  pose proof (PinInternal_accessor cids default_timeout s) as Hacc.
  pose proof (PinInternal_accessor_pin_counts cids default_timeout s) as Hpc.
  destruct (PinInternal cids default_timeout s) as [[pins|e|] s1];
    simpl in *; try done.
  intros _. destruct (Hacc pins eq_refl) as [-> HL].
  destruct (drop_pins_spec cids s1) as (_ & _ & Hst).
  split.
  - intros i c Hc Hne.
    specialize (Hpc cids i c Hnd Hrange eq_refl Hc).
    unfold pin_count_at in *.
    rewrite drop_pins_lookup by (by apply NoDup_idx).
    destruct (cells_ s1 !! i) as [c1|]; [|done]. simpl in *.
    injection Hpc as Hpc. f_equal.
    destruct (decide (i ∈ idx <$> cids)); simpl; [|done].
    rewrite Hpc, pin_count_after_pin, decide_False by done. done.
  - intros _. eapply Forall_impl; [exact HL|].
    intros cid Hcid. unfold cell_state in *. by rewrite Hst.
Qed.

(** ** Manual eviction *)

Lemma manual_evict_evictable c :
  manual_evict c
  = (evictable c,
     if evictable c then mkCell NOT_LOADED 0 (size_ c) None (error_ c) else c).
Proof.
  unfold manual_evict, evictable, unload. simpl.
  destruct (bool_decide (state_ c = LOADED)); simpl; [|done].
  by destruct (pin_count c).
Qed.

Lemma ManualEvict_update cid s c :
  cells_ s !! idx cid = Some c ->
  ManualEvict cid s
  = Some (evictable c, update_cell cid (fun c => snd (manual_evict c)) s).
Proof.
  intros Hc. unfold ManualEvict, update_cell. rewrite Hc.
  by rewrite manual_evict_evictable.
Qed.

Lemma evict_loop_spec cids : forall ev s,
  NoDup (idx <$> cids) ->
  Forall (fun cid => (idx cid < length (cells_ s))%nat) cids ->
  (fst (evict_loop cids ev s) = true <->
   ev = true \/
   exists cid c, cid ∈ cids /\ cells_ s !! idx cid = Some c /\ evictable c = true) /\
  forall i, cells_ (snd (evict_loop cids ev s)) !! i
            = (if decide (i ∈ idx <$> cids)
               then fun c => snd (manual_evict c) else id) <$> cells_ s !! i.
Proof.
  induction cids as [|cid rest IH]; intros ev s Hnd Hin; simpl.
  - split.
    + split; [auto|]. intros [?|(cid & c & H & _)]; [done|].
      by apply elem_of_nil in H.
    + intros i. destruct (decide (i ∈ [])) as [H|_]; [by apply elem_of_nil in H|].
      by rewrite option_fmap_id.
  - change (list_fmap Z nat idx rest) with (idx <$> rest) in *.
    apply NoDup_cons in Hnd as [Hnotin Hnd].
    apply Forall_cons in Hin as [Hcid Hin].
    destruct (lookup_lt_is_Some_2 _ _ Hcid) as [c Hc].
    rewrite (ManualEvict_update _ _ _ Hc).
    set (s1 := update_cell cid (fun c => snd (manual_evict c)) s).
    assert (forall i, cells_ s1 !! i
                      = (if decide (i = idx cid)
                         then fun c => snd (manual_evict c) else id)
                          <$> cells_ s !! i) as Hs1.
    { intros i. apply update_cell_lookup. }
    assert (Forall (fun cid => (idx cid < length (cells_ s1))%nat) rest) as Hin1.
    { eapply Forall_impl; [exact Hin|]. intros x Hx. simpl in *.
      apply lookup_lt_is_Some_1. rewrite Hs1.
      destruct (lookup_lt_is_Some_2 _ _ Hx) as [cx ->]. by eexists. }
    assert (forall x, x ∈ rest -> cells_ s1 !! idx x = cells_ s !! idx x) as Hsame.
    { intros x Hx. rewrite Hs1, decide_False.
      - by destruct (cells_ s !! idx x).
      - intros Heq. apply Hnotin. rewrite <- Heq. by apply list_elem_of_fmap_2. }
    assert (fst (evict_loop rest (evictable c || ev) s1) = true <->
            (evictable c || ev = true) \/
            exists cid0 c0, cid0 ∈ rest /\ cells_ s1 !! idx cid0 = Some c0
                            /\ evictable c0 = true) as Hflag.
    { apply IH; done. }
    assert (forall i, cells_ (snd (evict_loop rest (evictable c || ev) s1)) !! i
              = (if decide (i ∈ idx <$> rest)
                 then fun c => snd (manual_evict c) else id) <$> cells_ s1 !! i)
      as Hcells.
    { apply IH; done. }
    assert (evict_loop rest (evictable c || ev) s1
            = (if evictable c then evict_loop rest true s1
               else evict_loop rest ev s1)) as Hloop.
    { by destruct (evictable c). }
    rewrite <- Hloop. split.
    + rewrite Hflag. split.
      * intros [Hor|(cid0 & c0 & Hin0 & Hc0 & He0)].
        -- apply orb_true_iff in Hor as [He|He]; [|by left].
           right. exists cid, c. split; [apply elem_of_cons; by left|done].
        -- right. exists cid0, c0. rewrite Hsame in Hc0 by done.
           split; [apply elem_of_cons; by right|done].
      * intros [->|(cid0 & c0 & Hin0 & Hc0 & He0)].
        -- left. apply orb_true_r.
        -- apply elem_of_cons in Hin0 as [->|Hin0].
           ++ left. rewrite Hc in Hc0. injection Hc0 as <-. by rewrite He0.
           ++ right. exists cid0, c0. by rewrite Hsame.
    + intros i. rewrite Hcells, Hs1, <- option_fmap_compose.
      apply option_fmap_ext. intros c0. simpl.
      repeat case_decide; simpl; try done;
        rewrite elem_of_cons in *; subst; tauto.
Qed.

Lemma ManualEvictAll_spec s :
  Z.of_nat (length (cells_ s)) < 2 ^ 63 ->
  (fst (ManualEvictAll s) = true <->
   exists i c, cells_ s !! i = Some c /\ evictable c = true) /\
  cells_ (snd (ManualEvictAll s))
  = (fun c => snd (manual_evict c)) <$> cells_ s.
Proof.
  intros Hn. unfold ManualEvictAll.
  set (n := length (cells_ s)) in *.
  assert (Forall cid_t_range (iota n)) as Hrange.
  { apply Forall_forall. intros cid Hcid%elem_of_iota. unfold cid_t_range. lia. }
  assert (Forall (fun cid => (idx cid < length (cells_ s))%nat) (iota n)) as Hin.
  { apply Forall_forall. intros cid Hcid%elem_of_iota. fold n.
    unfold idx. rewrite to_size_t_small by lia. lia. }
  destruct (evict_loop_spec (iota n) false s
              (NoDup_idx _ (NoDup_iota n) Hrange) Hin) as [Hflag Hcells].
  assert (forall i, (i < n)%nat -> i ∈ idx <$> iota n) as Hall.
  { intros i Hi. apply list_elem_of_fmap. exists (Z.of_nat i). split.
    - symmetry. apply idx_of_nat. lia.
    - apply elem_of_iota. lia. }
  split.
  - rewrite Hflag. split.
    + intros [?|(cid & c & _ & Hc & He)]; [done|]. eauto.
    + intros (i & c & Hc & He). right. exists (Z.of_nat i), c.
      assert (i < n)%nat as Hi by (eapply lookup_lt_Some; eauto).
      rewrite idx_of_nat by lia. split; [|done]. apply elem_of_iota. lia.
  - apply list_eq. intros i. rewrite Hcells, list_lookup_fmap.
    destruct (cells_ s !! i) as [c|] eqn:Hc; [|done].
    rewrite decide_True; [done|]. apply Hall. eapply lookup_lt_Some; eauto.
Qed.

(** X9.  [ManualEvictAll] sweeps the whole slot: it answers true iff some
    cell was LOADED and unpinned; every such cell, not only the first,
    ends NOT_LOADED without payload; pinned cells and cells in any other
    state are left exactly as they were; and a second sweep finds nothing
    to evict. *)
Theorem manual_evict_all_evicts_every_unpinned_cell s :
  Z.of_nat (length (cells_ s)) < 2 ^ 63 ->
  let r := ManualEvictAll s in
  (fst r = true <-> exists i c, cells_ s !! i = Some c /\ evictable c = true) /\
  (forall i c, cells_ s !! i = Some c ->
     cells_ (snd r) !! i
     = Some (if evictable c
             then mkCell NOT_LOADED 0 (size_ c) None (error_ c) else c)) /\
  length (cells_ (snd r)) = length (cells_ s) /\
  fst (ManualEvictAll (snd r)) = false.
Proof.
  intros Hn r. destruct (ManualEvictAll_spec s Hn) as [Hflag Hcells].
  fold r in Hflag, Hcells.
  assert (length (cells_ (snd r)) = length (cells_ s)) as Hlen.
  { by rewrite Hcells, length_fmap. }
  split; [exact Hflag|]. split; [|split; [exact Hlen|]].
  - intros i c Hc. rewrite Hcells, list_lookup_fmap, Hc. simpl.
    by rewrite manual_evict_evictable.
  - destruct (ManualEvictAll_spec (snd r)) as [Hflag' _]; [by rewrite Hlen|].
    destruct (fst (ManualEvictAll (snd r))) eqn:Hf; [|done].
    destruct Hflag' as [Hex _].
    destruct (Hex eq_refl) as (i & c' & Hc' & He).
    rewrite Hcells, list_lookup_fmap in Hc'.
    destruct (cells_ s !! i) as [c|]; [|done]. simpl in Hc'.
    injection Hc' as <-. rewrite manual_evict_evictable in He. simpl in He.
    destruct (evictable c) eqn:Hec; [done|]. congruence.
Qed.

(** X10.  [PinAllCells] addresses the cells by index and pins every one
    of them, whatever the id mapping; [Warmup] goes through [PinCells] and
    so through the id mapping: under ALWAYS_ZERO it pins cell 0 and no
    other cell, however many cells the slot has. *)
Theorem warmup_goes_through_id_mapping (timeout : Z) s :
  slot_wf s ->
  (exists load,
     events_since s (snd (PinAllCells timeout s))
     = ((fun cid => EvPin cid (needs_load s cid)) <$> iota num_cells) ++ load /\
     Forall (fun ev => is_pin ev = false) load) /\
  (cell_id_mapping_mode = ALWAYS_ZERO ->
   cache_warmup_policy <> CacheWarmupPolicy_Disable ->
   (0 < num_cells)%nat ->
   exists load,
     events_since s (snd (Warmup s)) = EvPin 0 (needs_load s 0) :: load /\
     Forall (fun ev => is_pin ev = false) load).
Proof.
  intros Hwf. split.
  - destruct (iota_in_range s Hwf) as [Hr Hex].
    unfold PinAllCells. destruct Hwf as (Hlen & _). rewrite Hlen.
    destruct (PinInternal_events (iota num_cells) timeout s
                (NoDup_iota _) Hr Hex) as (load & Ht & Hok & _).
    exists load. split; [by apply events_since_app|].
    by eapply load_event_ok_not_pin.
  - intros Hmode Hpol Hpos. unfold Warmup. rewrite decide_False by done.
    assert (involved_cids (iota num_cells) = [0]) as Hcids.
    { apply involved_cids_always_zero; [done|].
      destruct num_cells; [lia|done]. }
    unfold pin_and_drop, PinCells. rewrite Hcids.
    assert (NoDup [0]) as Hnd by (repeat constructor; by intros ?%elem_of_nil).
    assert (Forall cid_t_range [0]) as Hr.
    { repeat constructor; unfold cid_t_range; lia. }
    assert (existsb (cid_out_of_range s) [0] = false) as Hex.
    { simpl. unfold cid_out_of_range. destruct Hwf as (Hlen & _).
      rewrite Hlen, orb_false_r. apply Z.leb_gt.
      rewrite to_size_t_small; lia. }
    destruct (PinInternal_events [0] default_timeout s Hnd Hr Hex)
      as (load & Ht & Hok & _).
    destruct (PinInternal [0] default_timeout s) as [[pins|e|] s1];
      simpl in *.
    + destruct (drop_pins_spec pins s1) as (Htd & _).
      exists (load ++ (EvUnpin <$> pins)). split.
      * apply events_since_app. rewrite Htd, Ht. by rewrite <- !app_assoc.
      * apply Forall_app. split; [by eapply load_event_ok_not_pin|].
        apply Forall_fmap, Forall_forall. by intros.
    + exists load. split; [by apply events_since_app|].
      by eapply load_event_ok_not_pin.
    + exists load. split; [by apply events_since_app|].
      by eapply load_event_ok_not_pin.
Qed.

(** X29.  [ManualEvict] respects pins and undoes a load: on a cell the
    slot has it answers whether the cell was LOADED and unpinned; a cell
    that is pinned or not LOADED is left as it was; an evicted cell is
    NOT_LOADED, has no payload, and its next pin asks for a load; no other
    cell changes. *)
Theorem manual_evict_then_pin_reloads cid s c :
  cells_ s !! idx cid = Some c ->
  exists s',
    ManualEvict cid s = Some (evictable c, s') /\
    ((0 < pin_count c)%nat \/ state_ c <> LOADED -> evictable c = false) /\
    (evictable c = false -> cells_ s' = cells_ s) /\
    (evictable c = true ->
       cell_state s' cid = Some NOT_LOADED /\ get_ith_cell cid s' = None /\
       needs_load s' cid = true) /\
    (forall i, i <> idx cid -> cells_ s' !! i = cells_ s !! i).
Proof.
  intros Hc. rewrite (ManualEvict_update cid s c Hc). eexists.
  split; [reflexivity|].
  assert (cells_ (update_cell cid (fun c => snd (manual_evict c)) s) !! idx cid
          = Some (if evictable c
                  then mkCell NOT_LOADED 0 (size_ c) None (error_ c) else c))
    as Hnew.
  { rewrite update_cell_lookup, decide_True, Hc by done. simpl.
    by rewrite manual_evict_evictable. }
  split; [|split; [|split]].
  - unfold evictable. intros [Hpin|Hst].
    + destruct (pin_count c); [lia|]. apply andb_false_r.
    + by rewrite bool_decide_eq_false_2.
  - intros He. unfold update_cell. rewrite Hc. simpl.
    rewrite manual_evict_evictable, He. simpl. by apply list_insert_id.
  - intros He. rewrite He in Hnew.
    unfold cell_state, get_ith_cell, needs_load. by rewrite Hnew.
  - intros i Hi. rewrite update_cell_lookup, decide_False by done.
    by destruct (cells_ s !! i).
Qed.

End CacheSlotInvariants.

(* ===================================================================== *)
(** * The further cache properties on the three-cell slot *)

Section CacheInvariantsScenario.
Import CachingLayer CachingLayer.Scenario.

Lemma scenario_payload policy mode fetch b :
  loaded_has_payload (warm (loader policy mode fetch) b) /\
  loaded_has_payload (fresh (loader policy mode fetch) b) /\
  loaded_has_payload (loading (loader policy mode fetch) b).
Proof.
  repeat split; intros [|[|[|i]]] c; simpl; intros [= <-]; simpl;
    try discriminate; eauto.
Defined.

(** The fresh slot of three cells. *)
Lemma new_slot_witness :
  slot_wf (Tr := tr_sync) (fresh tr_sync roomy) /\
  needs_load (fresh tr_sync roomy) 2 = true.
Proof.
  destruct (new_slot_establishes_invariants (Tr := tr_sync) (Some roomy))
    as (Hwf & _ & _ & _ & Hcells).
  - simpl. lia.
  - split; [exact Hwf|]. apply (Hcells 2). simpl. lia.
Defined.

(** Uids 0, 2, 0, 1 on the slot whose cell 1 is loaded. *)
Lemma pinning_keeps_invariants_witness :
  slot_wf (Tr := tr_sync)
    (snd (PinCells (Tr := tr_sync) [0; 2; 0; 1] 5 (warm tr_sync roomy))) /\
  loaded_has_payload
    (snd (Warmup (Tr := tr_sync) (warm tr_sync roomy))).
Proof.
  destruct (pinning_keeps_slot_invariants (Tr := tr_sync) [0; 2; 0; 1] 5
              (warm tr_sync roomy)) as ((H1 & _) & _ & (_ & H2)).
  - apply scenario_wf.
  - apply scenario_payload.
  - split; [exact H1 | exact H2].
Defined.


Lemma pin_cells_success_witness :
  fst (PinCells (Tr := tr_sync) [0; 2; 0; 1] 5 (warm tr_sync roomy))
  = Accessor [0; 2; 1].
Proof.
  destruct (pin_cells_loads_missing_cells (Tr := tr_sync) [0; 2; 0; 1] 5
              (warm tr_sync roomy) [(0, 0); (2, 2)]) as (H & _).
  - apply scenario_payload.
  - change (Forall cid_t_range [0; 2; 1]).
    repeat constructor; unfold cid_t_range; lia.
  - reflexivity.
  - change (Forall (fun cid => cell_state (warm tr_sync roomy) cid
                               <> Some LOADING) [0; 2; 1]).
    repeat constructor; discriminate.
  - intros d [= <-]. reflexivity.
  - reflexivity.
  - intros cid H. exact H.
  - exact H.
Defined.

(** Cells 0 and 2 elected under the roomy budget, with a translator that
    returns them. *)
Lemma run_load_success_witness :
  events_since (loading tr_sync roomy)
    (RunLoad (Tr := tr_sync) [0; 2] (mkResourceUsage 400 0) 5
       (loading tr_sync roomy))
  = [EvReserve (mkResourceUsage 400 0) true; EvGetCells [0; 2];
     EvSetCell 0 true; EvSetCell 2 true].
Proof.
  destruct (run_load_success_keeps_reservation (Tr := tr_sync) [0; 2]
              (mkResourceUsage 400 0) 5 (loading tr_sync roomy) roomy
              [(0, 0); (2, 2)]) as (H & _).
  - reflexivity.
  - reflexivity.
  - reflexivity.
  - exact H.
Defined.

(** The same election on a slot without budget, with a translator that
    throws. *)
Lemma run_load_without_budget_witness :
  events_since (mkSlot (cells_ (loading tr_broken roomy)) None [])
    (RunLoad (Tr := tr_broken) [0; 2] (mkResourceUsage 400 0) 5
       (mkSlot (cells_ (loading tr_broken roomy)) None []))
  = [EvGetCells [0; 2]; EvSetError 0 FileReadFailed; EvSetError 2 FileReadFailed].
Proof.
  destruct (run_load_without_budget (Tr := tr_broken) [0; 2]
              (mkResourceUsage 400 0) 5
              (mkSlot (cells_ (loading tr_broken roomy)) None []))
    as (_ & _ & H & _).
  - reflexivity.
  - destruct (H FileReadFailed eq_refl) as [Hev _]. exact Hev.
Defined.

(** Cell 1, loaded and unpinned before, carries one pin under the
    accessor and none after a warmup. *)
Lemma accessor_pin_count_witness :
  pin_count_at
    (snd (PinCells (Tr := tr_sync) [0; 2; 0; 1] 5 (warm tr_sync roomy))) 1
  = Some 1%nat.
Proof.
  etrans.
  - apply (accessor_pins_each_cell_once (Tr := tr_sync) [0; 2; 0; 1] 5
             (warm tr_sync roomy) [0; 2; 1] 1%nat
             (mkCell LOADED 0 (estimate 1) (Some 1) None)).
    + change (Forall cid_t_range [0; 2; 1]).
      repeat constructor; unfold cid_t_range; lia.
    + reflexivity.
    + reflexivity.
  - reflexivity.
Defined.

Lemma warmup_balance_witness :
  pin_count_at (snd (Warmup (Tr := tr_sync) (warm tr_sync roomy))) 1
  = Some 0%nat.
Proof.
  destruct (warmup_releases_its_pins (Tr := tr_sync) (warm tr_sync roomy))
    as (H & _).
  - change (Forall cid_t_range [0; 1; 2]).
    repeat constructor; unfold cid_t_range; lia.
  - reflexivity.
  - apply (H 1%nat (mkCell LOADED 0 (estimate 1) (Some 1) None)).
    + reflexivity.
    + discriminate.
Defined.

Lemma manual_evict_all_witness :
  fst (ManualEvictAll (snd (ManualEvictAll (warm tr_sync roomy)))) = false /\
  (fst (ManualEvictAll (warm tr_sync roomy)) = true <->
   exists i c, cells_ (warm tr_sync roomy) !! i = Some c /\ evictable c = true).
Proof.
  destruct (manual_evict_all_evicts_every_unpinned_cell (warm tr_sync roomy))
    as (H1 & _ & _ & H2).
  - simpl. lia.
  - split; [exact H2 | exact H1].
Defined.

(** Cell 1 is evicted and must be loaded again. *)
Lemma manual_evict_witness :
  exists s',
    ManualEvict 1 (warm tr_sync roomy) = Some (true, s') /\
    needs_load s' 1 = true.
Proof.
  destruct (manual_evict_then_pin_reloads 1 (warm tr_sync roomy)
              (mkCell LOADED 0 (estimate 1) (Some 1) None))
    as (s' & H1 & _ & _ & H2 & _).
  - reflexivity.
  - exists s'. split; [exact H1|]. apply H2. reflexivity.
Defined.

(** A three-cell translator under ALWAYS_ZERO whose policy is Sync. *)
Lemma warmup_id_mapping_witness :
  exists load,
    events_since (fresh (loader CacheWarmupPolicy_Sync ALWAYS_ZERO fetch_ok) roomy)
      (snd (Warmup (Tr := loader CacheWarmupPolicy_Sync ALWAYS_ZERO fetch_ok)
              (fresh (loader CacheWarmupPolicy_Sync ALWAYS_ZERO fetch_ok) roomy)))
    = EvPin 0 true :: load /\
    Forall (fun ev => is_pin ev = false) load.
Proof.
  destruct (warmup_goes_through_id_mapping
              (Tr := loader CacheWarmupPolicy_Sync ALWAYS_ZERO fetch_ok) 5
              (fresh (loader CacheWarmupPolicy_Sync ALWAYS_ZERO fetch_ok) roomy))
    as (_ & H).
  - apply scenario_wf.
  - destruct H as (load & H1 & H2).
    + reflexivity.
    + discriminate.
    + simpl. lia.
    + exists load. split; [exact H1 | exact H2].
Defined.

End CacheInvariantsScenario.

(* ===================================================================== *)
(** * Further properties of the executor *)

Section ExecutorInvariants.
Import UnaryExpr.
Context {Cur : Type} {Seg : Segment Cur}.
Implicit Types (st : @Phy Cur) (T : CppType) (context : EvalCtx).

(** Unfolds the monadic primitives. *)
Ltac step :=
  cbv [bind ret get modify throw on_cursor on_cursor_res init_arg
       next_batch_size move_cursor AssertInfo real_batch_size_of].

(** ** The overflow pre-check *)

Lemma overflow_bits n (valid : TargetBitmap) (b : bool) i :
  (i < Z.to_nat n)%nat ->
  (if b then bitmap_and (bitmap_n n true) valid else bitmap_n n false) !! i
  = Some (default false (valid !! i) && b).
Proof.
  intros Hi. destruct b.
  - rewrite andb_true_r.
    apply (masked_all_true n valid i). simpl.
    unfold bitmap_and. by rewrite length_imap, length_bitmap_n.
  - rewrite andb_false_r.
    apply (all_false_cleared n valid i). simpl. by rewrite length_bitmap_n.
Qed.

Lemma overflow_bits_length n (valid : TargetBitmap) (b : bool) :
  length (if b then bitmap_and (bitmap_n n true) valid else bitmap_n n false)
  = Z.to_nat n.
Proof.
  destruct b; unfold bitmap_and; by rewrite ?length_imap, length_bitmap_n.
Qed.

Lemma numeric_min_le_max T : integral_not_bool T = true -> numeric_min T <= numeric_max T.
Proof. destruct T; simpl; intros; try discriminate; lia. Qed.

(** Against a literal outside the range of [T], a comparison has the
    same answer for every value of type [T]. *)
Lemma out_of_range_compare T op val v :
  integral_not_bool T = true ->
  out_of_range T val = true ->
  is_comparison op = true ->
  numeric_min T <= v <= numeric_max T ->
  op_holds op (v ?= val)
  = match op with
    | GreaterThan | GreaterEqual => lt_lb T val
    | LessThan | LessEqual => gt_ub T val
    | Equal => false
    | _ => true
    end.
Proof.
  intros HT Hout Hop Hv. pose proof (numeric_min_le_max T HT) as Hmm.
  unfold out_of_range, gt_ub, lt_lb in *.
  apply orb_true_iff in Hout as [Hgt|Hlt].
  - apply Z.ltb_lt in Hgt.
    rewrite (proj2 (Z.compare_lt_iff v val)) by lia.
    rewrite (proj2 (Z.ltb_lt _ _) Hgt).
    rewrite (proj2 (Z.ltb_ge val (numeric_min T))) by lia.
    by destruct op.
  - apply Z.ltb_lt in Hlt.
    rewrite (proj2 (Z.compare_gt_iff v val)) by lia.
    rewrite (proj2 (Z.ltb_lt _ _) Hlt).
    rewrite (proj2 (Z.ltb_ge (numeric_max T) val)) by lia.
    by destruct op.
Qed.

Lemma PreCheckOverflow_closed T input st :
  integral_not_bool T = true ->
  out_of_range T (GetValueFromProto_int64 (val_ (expr_ st))) = true ->
  is_comparison (op_type_ (expr_ st)) = true ->
  let val := GetValueFromProto_int64 (val_ (expr_ st)) in
  let bs := overflow_batch_size input st in
  let valid := overflow_valid T input st in
  let b := match op_type_ (expr_ st) with
           | GreaterThan | GreaterEqual => lt_lb T val
           | LessThan | LessEqual => gt_ub T val
           | Equal => false
           | _ => true
           end in
  fst (PreCheckOverflow T input st)
  = Ok (Some (mkColumnVector
                (if b then bitmap_and (bitmap_n bs true) valid
                 else bitmap_n bs false) valid)).
Proof.
  intros HT Hout Hop. unfold PreCheckOverflow, overflow_valid. rewrite HT.
  step. simpl. rewrite Hout.
  destruct input as [offsets|]; simpl.
  - destruct (ProcessChunksForValidByOffsets T (is_index_mode_ st) offsets (cur st))
      as [valid cur']. simpl.
    destruct (op_type_ (expr_ st)); try discriminate; simpl;
      try destruct (lt_lb T _); try destruct (gt_ub T _); reflexivity.
  - destruct (ProcessChunksForValid T (is_index_mode_ st) (cur st))
      as [valid cur']. simpl.
    destruct (op_type_ (expr_ st)); try discriminate; simpl;
      try destruct (lt_lb T _); try destruct (gt_ub T _); reflexivity.
Qed.

(** X11.  The overflow pre-check answers what a comparison row by row
    would answer: for a literal outside the range of the integral column
    type [T] and any value [v] of that type, bit [i] of the result is the
    valid bit of row [i] and-ed with [v OP literal]; the result has one
    bit per row of the batch. *)
Theorem overflow_precheck_agrees_with_comparison T input st v :
  integral_not_bool T = true ->
  out_of_range T (GetValueFromProto_int64 (val_ (expr_ st))) = true ->
  is_comparison (op_type_ (expr_ st)) = true ->
  numeric_min T <= v <= numeric_max T ->
  exists cv,
    fst (PreCheckOverflow T input st) = Ok (Some cv) /\
    cv_valid cv = overflow_valid T input st /\
    length (cv_data cv) = Z.to_nat (overflow_batch_size input st) /\
    forall i, (i < length (cv_data cv))%nat ->
      cv_data cv !! i
      = Some (default false (cv_valid cv !! i)
              && op_holds (op_type_ (expr_ st))
                   (v ?= GetValueFromProto_int64 (val_ (expr_ st)))).
Proof.
  intros HT Hout Hop Hv.
  rewrite (PreCheckOverflow_closed T input st HT Hout Hop).
  eexists. split; [reflexivity|]. simpl. split; [done|].
  rewrite (out_of_range_compare T _ _ v HT Hout Hop Hv).
  split; [apply overflow_bits_length|].
  intros i Hi. rewrite overflow_bits_length in Hi. by apply overflow_bits.
Qed.

Lemma int64_literal_fits st :
  int64_range (GetValueFromProto_int64 (val_ (expr_ st))) -> literal_fits t_int64 st.
Proof.
  unfold int64_range, literal_fits, out_of_range, gt_ub, lt_lb. simpl.
  intros H. right. apply orb_false_iff. split; apply Z.ltb_ge; lia.
Qed.

Lemma PreCheckOverflow_fits T input st :
  literal_fits T st -> PreCheckOverflow T input st = (Ok None, st).
Proof.
  intros [HT|Hout]; [by apply PreCheckOverflow_not_integral|].
  unfold PreCheckOverflow. destruct (integral_not_bool T); [|done].
  step. by rewrite Hout.
Qed.

(** X12.  The overflow pre-check stays out of the way of a literal that
    fits: for a column type that is not integral, for a literal within
    the range of the integral column type, and for every INT64 column
    (whose range is that of the literal), it returns null and changes
    nothing: no call, no cursor move, no advance of
    [overflow_check_pos_]. *)
Theorem overflow_precheck_skips_fitting_literal T input st :
  literal_fits T st \/
  (T = t_int64 /\ int64_range (GetValueFromProto_int64 (val_ (expr_ st)))) ->
  PreCheckOverflow T input st = (Ok None, st).
Proof.
  intros [H|[-> H]]; apply PreCheckOverflow_fits; [done|].
  by apply int64_literal_fits.
Qed.

Lemma PreCheckOverflow_advance T st :
  integral_not_bool T = true ->
  out_of_range T (GetValueFromProto_int64 (val_ (expr_ st))) = true ->
  let st' := snd (PreCheckOverflow T None st) in
  expr_ st' = expr_ st /\ active_count_ st' = active_count_ st /\
  batch_size_ st' = batch_size_ st /\
  overflow_check_pos_ st'
  = Z.min (active_count_ st) (overflow_check_pos_ st + batch_size_ st).
Proof.
  intros HT Hout. unfold PreCheckOverflow. rewrite HT. step. simpl.
  rewrite Hout. simpl.
  destruct (ProcessChunksForValid T (is_index_mode_ st) (cur st))
    as [valid cur']. simpl.
  assert (overflow_check_pos_ st
          + (if active_count_ st <=? overflow_check_pos_ st + batch_size_ st
             then active_count_ st - overflow_check_pos_ st else batch_size_ st)
          = Z.min (active_count_ st) (overflow_check_pos_ st + batch_size_ st))
    as Hpos.
  { destruct (Z.leb_spec (active_count_ st)
                (overflow_check_pos_ st + batch_size_ st)); lia. }
  destruct (op_type_ (expr_ st)); simpl;
    try destruct (lt_lb T _); try destruct (gt_ub T _); simpl;
    repeat split; exact Hpos.
Qed.

(** X13.  Successive overflow pre-checks tile the active rows: started
    at or below [active_count_] with a non-negative batch size, after [k]
    batches without offset input [overflow_check_pos_] is
    [min(active_count_, start + k * batch_size_)]; it never passes the
    active count, and stays there once it has reached it. *)
Theorem overflow_batches_tile_the_active_rows T st (k : nat) :
  integral_not_bool T = true ->
  out_of_range T (GetValueFromProto_int64 (val_ (expr_ st))) = true ->
  0 <= batch_size_ st ->
  overflow_check_pos_ st <= active_count_ st ->
  let st' := Nat.iter k (fun st => snd (PreCheckOverflow T None st)) st in
  overflow_check_pos_ st'
  = Z.min (active_count_ st)
          (overflow_check_pos_ st + Z.of_nat k * batch_size_ st) /\
  overflow_check_pos_ st' <= active_count_ st.
Proof.
  intros HT Hout Hbs Hpos st'.
  assert (expr_ st' = expr_ st /\ active_count_ st' = active_count_ st /\
          batch_size_ st' = batch_size_ st /\
          overflow_check_pos_ st'
          = Z.min (active_count_ st)
                  (overflow_check_pos_ st + Z.of_nat k * batch_size_ st)) as H.
  { subst st'. induction k as [|k IH].
    - simpl. repeat split. lia.
    - rewrite Nat.iter_succ.
      set (stk := Nat.iter k (fun st => snd (PreCheckOverflow T None st)) st) in *.
      destruct IH as (He & Ha & Hb & Hp).
      destruct (PreCheckOverflow_advance T stk HT) as (He' & Ha' & Hb' & Hp').
      { by rewrite He. }
      rewrite He', Ha', Hb', Hp', He, Ha, Hb, Hp. repeat split. nia. }
  destruct H as (_ & _ & _ & H). split; [exact H|]. rewrite H. lia.
Qed.

(** ** Cached whole-segment answers *)

Lemma text_op_slop_frame st st' :
  expr_ st' = expr_ st ->
  (op_type_ (expr_ st) = TextMatch \/
   (op_type_ (expr_ st) = PhraseMatch /\ 0 <= phrase_slop st <= UINT32_MAX)) ->
  op_type_ (expr_ st') = TextMatch \/
  (op_type_ (expr_ st') = PhraseMatch /\ 0 <= phrase_slop st' <= UINT32_MAX).
Proof. unfold phrase_slop. by intros ->. Qed.

Lemma ExecTextMatch_cached_frame st c :
  op_type_ (expr_ st) = TextMatch \/
  (op_type_ (expr_ st) = PhraseMatch /\ 0 <= phrase_slop st <= UINT32_MAX) ->
  cached_match_res_ st = Some c ->
  calls (snd (ExecTextMatch st)) = calls st /\
  cached_match_res_ (snd (ExecTextMatch st)) = Some c /\
  expr_ (snd (ExecTextMatch st)) = expr_ st.
Proof.
  intros Hop Hc. rewrite ExecTextMatch_run.
  destruct (checked_slop_accepts st Hop) as (slop & -> & _).
  destruct (with_arg_inited_frame t_string st)
    as (He & Hcalls & _ & _ & _ & Hcm & _).
  destruct (GetNextBatchSize (cur st) (use_index_ st) =? 0); simpl.
  - rewrite Hcm. auto.
  - rewrite <- Hcm in Hc.
    rewrite (bind_ok _ _ _ _ _ (materialize_text_match_cached _ slop _ _ Hc)).
    rewrite slice_batch_run. simpl. auto.
Qed.

(** X14.  The text index is asked once per expression: the first
    non-empty batch of a text or phrase match queries the index and
    caches the answer; however many batches follow, none of them calls
    the index again and the cached answer stays the same. *)
Theorem text_index_is_queried_once st (k : nat) :
  op_type_ (expr_ st) = TextMatch \/
  (op_type_ (expr_ st) = PhraseMatch /\ 0 <= phrase_slop st <= UINT32_MAX) ->
  GetNextBatchSize (cur st) (use_index_ st) <> 0 ->
  cached_match_res_ st = None ->
  let st1 := snd (ExecTextMatch st) in
  let stk := Nat.iter k (fun st => snd (ExecTextMatch st)) st1 in
  calls_since st st1
  = [match op_type_ (expr_ st) with
     | TextMatch => CallMatchQuery (text_literal st)
     | _ => CallPhraseMatchQuery (text_literal st) (phrase_slop st)
     end] /\
  is_Some (cached_match_res_ st1) /\
  calls_since st1 stk = [] /\
  cached_match_res_ stk = cached_match_res_ st1.
Proof.
  intros Hop Hn Hnone st1 stk.
  assert (exists c, cached_match_res_ st1 = Some c /\ expr_ st1 = expr_ st /\
            calls st1
            = calls st
              ++ [match op_type_ (expr_ st) with
                  | TextMatch => CallMatchQuery (text_literal st)
                  | _ => CallPhraseMatchQuery (text_literal st) (phrase_slop st)
                  end]) as (c & Hc1 & He1 & Hcalls1).
  { subst st1. rewrite ExecTextMatch_run.
    destruct (checked_slop_accepts st Hop) as (slop & -> & Hslop).
    rewrite (proj2 (Z.eqb_neq _ 0) Hn).
    destruct (with_arg_inited_frame t_string st)
      as (He & Hcalls & _ & _ & _ & Hcm & _).
    rewrite <- Hcm in Hnone.
    assert (op_type_ (expr_ (with_arg_inited t_string st)) = TextMatch \/
            op_type_ (expr_ (with_arg_inited t_string st)) = PhraseMatch) as Hop0.
    { rewrite He. destruct Hop as [|[? _]]; auto. }
    rewrite (bind_ok _ _ _ _ _
               (materialize_text_match_fresh _ slop _ Hnone Hop0)).
    rewrite slice_batch_run. simpl. eexists. split; [reflexivity|].
    split; [done|]. rewrite He, Hcalls.
    destruct Hop as [Hop|[Hop _]]; rewrite Hop; [done|].
    by rewrite (Hslop Hop). }
  split; [by apply calls_since_app|]. split; [by eexists|].
  assert (calls stk = calls st1 /\ cached_match_res_ stk = Some c /\
          expr_ stk = expr_ st1) as (Hk1 & Hk2 & _).
  { subst stk. induction k as [|k IH]; [done|].
    rewrite Nat.iter_succ. destruct IH as (IH1 & IH2 & IH3).
    destruct (ExecTextMatch_cached_frame _ c
                (text_op_slop_frame st _ (eq_trans IH3 He1) Hop) IH2)
      as (H1 & H2 & H3).
    split; [congruence|]. split; [done|congruence]. }
  split; [by apply calls_since_refl|]. congruence.
Qed.

Lemma ExecNgramMatch_cached st c :
  GetNextBatchSize (cur st) (use_index_ st) <> 0 ->
  cached_ngram_match_res_ st = Some c ->
  ExecNgramMatch st
  = slice_batch cached_ngram_match_res_
      (GetNextBatchSize (cur st) (use_index_ st)) (with_arg_inited t_string st).
Proof.
  intros Hn Hcached. unfold ExecNgramMatch.
  rewrite (bind_ok _ _ _ _ _ (init_arg_run t_string st)).
  rewrite bind_get.
  destruct (with_arg_inited_frame t_string st)
    as (He & Hcalls & Hcur & Hui & Hac & _ & Hcn & _).
  unfold next_batch_size. rewrite bind_get, Hcur, Hui.
  rewrite (proj2 (Z.eqb_neq _ 0) Hn).
  unfold materialize_ngram_match at 1. step. rewrite Hcn, Hcached.
  reflexivity.
Qed.

Lemma ExecNgramMatch_answered st res :
  GetNextBatchSize (cur st) (use_index_ st) <> 0 ->
  cached_ngram_match_res_ st = None ->
  ExecuteQuery (text_literal st) (op_type_ (expr_ st)) = Some res ->
  ExecNgramMatch st
  = slice_batch cached_ngram_match_res_
      (GetNextBatchSize (cur st) (use_index_ st))
      (set_cached_ngram res NgramIsNotNull
         (record_call
            (CallNgramExecuteQuery (text_literal st) (op_type_ (expr_ st)))
            (with_arg_inited t_string st))).
Proof.
  intros Hn Hcached Hq. unfold ExecNgramMatch.
  rewrite (bind_ok _ _ _ _ _ (init_arg_run t_string st)).
  rewrite bind_get, text_literal_inited.
  destruct (with_arg_inited_frame t_string st)
    as (He & Hcalls & Hcur & Hui & Hac & _ & Hcn & _).
  unfold next_batch_size. rewrite bind_get, Hcur, Hui.
  rewrite (proj2 (Z.eqb_neq _ 0) Hn).
  unfold materialize_ngram_match at 1. step. rewrite Hcn, Hcached, He, Hq.
  reflexivity.
Qed.

(** X15.  An n-gram index that answers settles the batch: for a LIKE
    operator without offset input on a field with an n-gram index, when
    the answer is cached or the index returns one, the batch is the slice
    of that answer at the cursor (not padded), the only call is the one
    query of a first batch, no index or data scan runs, [use_index_] is not
    touched and the cursor moves. *)
Theorem ngram_answer_short_circuits T context st ans :
  is_ngram_op (op_type_ (expr_ st)) = true ->
  has_offset_input_ st = false ->
  CanUseNgramIndex = true ->
  GetNextBatchSize (cur st) (use_index_ st) <> 0 ->
  cached_ngram_match_res_ st = Some ans \/
  (cached_ngram_match_res_ st = None /\
   ExecuteQuery (text_literal st) (op_type_ (expr_ st)) = Some ans) ->
  let n := GetNextBatchSize (cur st) (use_index_ st) in
  let pos := current_data_global_pos_ (cur st) in
  let r := ExecRangeVisitorImpl T context st in
  fst r
  = Ok (Some (mkColumnVector
                (slice ans pos n)
                (slice (match cached_ngram_match_res_ st with
                        | Some _ => cached_index_chunk_valid_res_ st
                        | None => NgramIsNotNull
                        end) pos n))) /\
  calls_since st (snd r)
  = match cached_ngram_match_res_ st with
    | Some _ => []
    | None => [CallNgramExecuteQuery (text_literal st) (op_type_ (expr_ st))]
    end /\
  cached_ngram_match_res_ (snd r) = Some ans /\
  use_index_ (snd r) = use_index_ st /\
  cur (snd r) = MoveCursor (cur st) (use_index_ st).
Proof.
  intros Hop Ho Hng Hn Hans n pos r. subst r.
  destruct (with_arg_inited_frame t_string st)
    as (He & Hcalls & Hcur & Hui & Hac & _ & Hcn & Hcv).
  assert (forall v st', ExecNgramMatch st = (Ok (Some v), st') ->
            ExecRangeVisitorImpl T context st = (Ok (Some v), st')) as Hrun.
  { intros v st' Hng'. unfold ExecRangeVisitorImpl. rewrite bind_get.
    rewrite decide_False by (intros [H|H]; rewrite H in Hop; done).
    unfold CanExecNgramMatch. rewrite bind_get, Hop, Ho, Hng. simpl.
    by rewrite (bind_ok _ _ _ _ _ Hng'). }
  destruct Hans as [Hc|[Hc Hq]].
  - erewrite Hrun;
      [|rewrite (ExecNgramMatch_cached st ans Hn Hc), slice_batch_run;
        reflexivity].
    simpl. rewrite Hcn, Hc, Hcur, Hui, Hcv. simpl.
    split; [done|]. split; [by apply calls_since_refl|]. done.
  - erewrite Hrun;
      [|rewrite (ExecNgramMatch_answered st ans Hn Hc Hq), slice_batch_run;
        reflexivity].
    simpl. rewrite Hc, Hcur, Hui. simpl.
    split; [done|]. split; [|done].
    apply calls_since_app. simpl. by rewrite Hcalls.
Qed.

(** ** Empty batches *)

Lemma literal_fits_frame T st st' :
  expr_ st' = expr_ st -> literal_fits T st -> literal_fits T st'.
Proof. unfold literal_fits. by intros ->. Qed.

Lemma ForIndex_empty T st :
  literal_fits T st ->
  GetNextBatchSize (cur st) (use_index_ st) = 0 ->
  ExecRangeVisitorImplForIndex T st
  = (Ok None, with_arg_inited (IndexInnerType T) st).
Proof.
  intros Hfit Hn. unfold ExecRangeVisitorImplForIndex.
  rewrite (bind_ok _ _ _ _ _ (init_arg_run (IndexInnerType T) st)).
  destruct (with_arg_inited_frame (IndexInnerType T) st)
    as (He & _ & Hcur & Hui & _).
  rewrite (bind_ok _ _ _ _ _
             (PreCheckOverflow_fits T None _ (literal_fits_frame T st _ He Hfit))).
  unfold next_batch_size. by rewrite bind_get, Hcur, Hui, Hn.
Qed.

Lemma ForData_empty T context st :
  literal_fits T st ->
  has_offset_input_ st = false ->
  GetNextBatchSize (cur st) (use_index_ st) = 0 ->
  ExecRangeVisitorImplForData T context st = (Ok None, st).
Proof.
  intros Hfit Ho Hn. unfold ExecRangeVisitorImplForData.
  rewrite (bind_ok _ _ _ _ _ (PreCheckOverflow_fits T _ _ Hfit)).
  assert (real_batch_size_of context st = (Ok 0, st)) as Hb.
  { unfold real_batch_size_of. rewrite bind_get, Ho.
    unfold next_batch_size, get. by rewrite Hn. }
  by rewrite (bind_ok _ _ _ _ _ Hb).
Qed.

Lemma ExecNgramMatch_empty st :
  GetNextBatchSize (cur st) (use_index_ st) = 0 ->
  ExecNgramMatch st = (Ok None, with_arg_inited t_string st).
Proof.
  intros Hn. unfold ExecNgramMatch.
  rewrite (bind_ok _ _ _ _ _ (init_arg_run t_string st)).
  rewrite bind_get.
  destruct (with_arg_inited_frame t_string st) as (_ & _ & Hcur & Hui & _).
  unfold next_batch_size. by rewrite bind_get, Hcur, Hui, Hn.
Qed.

Lemma with_arg_inited_offsets T st :
  has_offset_input_ (with_arg_inited T st) = has_offset_input_ st.
Proof. unfold with_arg_inited. by destruct (arg_inited_ st). Qed.

Lemma normal_path_empty T context st :
  has_offset_input_ st = false ->
  (forall b, GetNextBatchSize (cur st) b = 0) ->
  literal_fits T st ->
  exists st',
    normal_path T context st = (Ok None, st') /\
    calls st' = calls st /\ cur st' = cur st /\
    cached_match_res_ st' = cached_match_res_ st /\
    cached_ngram_match_res_ st' = cached_ngram_match_res_ st.
Proof.
  intros Ho Hn Hfit. rewrite normal_path_run by done.
  destruct (is_index_mode_ st && SegmentExpr_CanUseIndex T (op_type_ (expr_ st))).
  - rewrite ForIndex_empty; [|done|apply Hn].
    eexists. split; [reflexivity|].
    destruct (with_arg_inited_frame (IndexInnerType T) (set_use_index true st))
      as (_ & H1 & H2 & _ & _ & H3 & H4 & _).
    by rewrite H1, H2, H3, H4.
  - rewrite ForData_empty; [|done|done|apply Hn].
    eexists. split; [reflexivity|]. done.
Qed.

(** X16.  An empty batch costs nothing: when the cursor has no rows left
    and there is no offset input, a scalar filter whose literal fits the
    column (and whose slop, for a phrase match, is valid) returns a null
    vector without calling any index or scan, without moving the cursor
    and without filling a cache. *)
Theorem empty_batch_returns_null T context st :
  has_offset_input_ st = false ->
  (forall b, GetNextBatchSize (cur st) b = 0) ->
  literal_fits T st ->
  (op_type_ (expr_ st) = PhraseMatch -> 0 <= phrase_slop st <= UINT32_MAX) ->
  let r := ExecRangeVisitorImpl T context st in
  fst r = Ok None /\
  calls_since st (snd r) = [] /\
  cur (snd r) = cur st /\
  cached_match_res_ (snd r) = cached_match_res_ st /\
  cached_ngram_match_res_ (snd r) = cached_ngram_match_res_ st.
Proof.
  intros Ho Hn Hfit Hslop r. subst r.
  unfold ExecRangeVisitorImpl. rewrite bind_get.
  destruct (decide (op_type_ (expr_ st) = TextMatch \/
                    op_type_ (expr_ st) = PhraseMatch)) as [Htext|Hnt].
  - rewrite bind_get, Ho, ExecTextMatch_run.
    destruct (checked_slop_accepts st) as (slop & -> & _).
    { destruct Htext as [H|H]; auto. }
    rewrite Hn. simpl.
    destruct (with_arg_inited_frame t_string st)
      as (_ & H1 & H2 & _ & _ & H3 & H4 & _).
    rewrite H2, H3, H4. split; [done|]. split; [|done].
    by apply calls_since_refl.
  - unfold CanExecNgramMatch. rewrite bind_get.
    destruct (is_ngram_op (op_type_ (expr_ st)) && negb (has_offset_input_ st)
              && CanUseNgramIndex).
    + rewrite (bind_ok _ _ _ _ _ (ExecNgramMatch_empty st (Hn _))).
      destruct (with_arg_inited_frame t_string st)
        as (He & H1 & H2 & _ & _ & H3 & H4 & _).
      destruct (normal_path_empty T context (with_arg_inited t_string st))
        as (st' & -> & H1' & H2' & H3' & H4').
      { by rewrite with_arg_inited_offsets. }
      { intros b. by rewrite H2. }
      { by apply (literal_fits_frame T st). }
      simpl. split; [done|]. split; [apply calls_since_refl; congruence|].
      repeat split; congruence.
    + destruct (normal_path_empty T context st Ho Hn Hfit)
        as (st' & Hrun & H1' & H2' & H3' & H4').
      change (bind (ret None) ?k st) with (k None st). simpl.
      rewrite Hrun. simpl. split; [done|]. split; [by apply calls_since_refl|].
      done.
Qed.

(** ** Dispatch *)

(** X17.  What [Eval] refuses: a column of a data type outside its
    switch (STRING, VECTOR_ARRAY), and an ARRAY or JSON column filtered by
    a literal that carries no value, throw DataTypeInvalid before any
    index or scan is called. *)
Theorem eval_rejects_unsupported_input context st :
  let d := data_type_ (column_ (expr_ st)) in
  d = STRING \/ d = VECTOR_ARRAY \/
  (d = ARRAY /\ val_ (expr_ st) = ValNotSet) \/
  (d = JSON /\ val_ (expr_ st) = ValNotSet /\
   is_string_type (FromValCase VAL_NOT_SET) = false) ->
  fst (Eval context st) = Throw DataTypeInvalid /\
  calls_since st (snd (Eval context st)) = [].
Proof.
  intros d H. subst d. unfold Eval. rewrite bind_modify, bind_get.
  set (st1 := SetHasOffsetInput _ st).
  change (data_type_ (column_ (expr_ st1)))
    with (data_type_ (column_ (expr_ st))).
  destruct H as [Hd|[Hd|[[Hd Hv]|(Hd & Hv & Hs)]]]; rewrite Hd.
  - split; [done|]. by apply calls_since_refl.
  - split; [done|]. by apply calls_since_refl.
  - unfold Eval_array. rewrite bind_get.
    change (expr_ st1) with (expr_ st). rewrite Hv. simpl.
    split; [done|]. by apply calls_since_refl.
  - unfold Eval_json, CanExecNgramMatchForJson, CanUseIndexForJson.
    step. change (expr_ st1) with (expr_ st). rewrite Hv. simpl.
    rewrite Hs. simpl.
    destruct (HasIndex (FromValCase VAL_NOT_SET) && negb _);
      simpl; (split; [done|]); by apply calls_since_refl.
Qed.

Lemma CanUseIndexForArray_frame st :
  calls (snd (CanUseIndexForArray st)) = calls st /\
  expr_ (snd (CanUseIndexForArray st)) = expr_ st /\
  cur (snd (CanUseIndexForArray st)) = cur st.
Proof.
  unfold CanUseIndexForArray, CanUseIndexForArray_elem. step.
  destruct (negb (is_index_mode_ st)); simpl; [done|].
  by destruct (element_type_ (column_ (expr_ st))).
Qed.

Lemma logs_at_Array T context st :
  Forall slow_path
    (calls_since st (snd (ExecRangeVisitorImplArray T context st))).
Proof.
  destruct (logs_Array T context st) as (cs & Hcs & HP).
  by rewrite (calls_since_app _ _ _ Hcs).
Qed.

Lemma calls_since_frame st st0 st' :
  calls st0 = calls st -> calls_since st st' = calls_since st0 st'.
Proof. unfold calls_since. by intros ->. Qed.

Lemma ArrayForIndex_falls_back context st :
  (op_type_ (expr_ st) <> Equal /\ op_type_ (expr_ st) <> NotEqual) \/
  element_type_ (column_ (expr_ st)) = FLOAT \/
  element_type_ (column_ (expr_ st)) = DOUBLE \/
  array_size (val_ (expr_ st)) = 0%nat ->
  Forall slow_path
    (calls_since st (snd (ExecRangeVisitorImplArrayForIndex context st))).
Proof.
  intros H. unfold ExecRangeVisitorImplArrayForIndex. rewrite bind_get.
  assert (forall T reverse,
            op_type_ (expr_ st) = Equal \/ op_type_ (expr_ st) = NotEqual ->
            element_type_ (column_ (expr_ st)) <> FLOAT ->
            element_type_ (column_ (expr_ st)) <> DOUBLE ->
            Forall slow_path
              (calls_since st (snd (ExecArrayEqualForIndex T context reverse st))))
    as Heq.
  { intros T reverse Hop Hf Hd.
    destruct H as [[H1 H2]|[H|[H|H]]]; try (destruct Hop; done); try done.
    unfold ExecArrayEqualForIndex, next_batch_size. rewrite bind_get.
    destruct (_ =? 0); [by rewrite calls_since_refl|].
    rewrite bind_get, H. simpl. apply logs_at_Array. }
  destruct (op_type_ (expr_ st)) eqn:Hop;
    try apply logs_at_Array;
    (destruct (element_type_ (column_ (expr_ st))) eqn:Hel;
     try apply logs_at_Array;
     try (rewrite calls_since_refl; done);
     try (apply Heq; auto; done);
     destruct (decide (segment_type = Growing)); apply Heq; auto; done).
Qed.

Lemma CanUseIndexForArray_not_index_mode st :
  is_index_mode_ st = false ->
  CanUseIndexForArray st = (Ok false, set_use_index false st).
Proof.
  intros H. unfold CanUseIndexForArray. rewrite bind_get, H. reflexivity.
Qed.

(** X18.  When an ARRAY column does not go through the scalar index:
    with offset input, with a literal that is not an array, when
    [CanUseIndexForArray] answers false (as it does outside index mode),
    for an operator other than Equal and NotEqual, for FLOAT and DOUBLE
    elements and for an empty array literal, [Eval] makes no index call:
    every call is a data scan. *)
Theorem array_index_needs_equality_on_indexed_elements context st :
  has_offset_input_ st = true \/
  val_case (val_ (expr_ st)) <> kArrayVal \/
  is_index_mode_ st = false \/
  fst (CanUseIndexForArray st) = Ok false \/
  (op_type_ (expr_ st) <> Equal /\ op_type_ (expr_ st) <> NotEqual) \/
  element_type_ (column_ (expr_ st)) = FLOAT \/
  element_type_ (column_ (expr_ st)) = DOUBLE \/
  array_size (val_ (expr_ st)) = 0%nat ->
  Forall slow_path (calls_since st (snd (Eval_array context st))).
Proof.
  intros H. unfold Eval_array. rewrite bind_get.
  destruct (val_ (expr_ st)) as [b|z|bits|str|elems|] eqn:Hv; simpl;
    try (rewrite bind_modify,
           (calls_since_frame st (set_use_index false st)) by reflexivity;
         apply logs_at_Array).
  - rewrite bind_get.
    destruct (has_offset_input_ st) eqn:Ho; simpl.
    { change (bind (ret false) ?k st) with (k false st). simpl.
      apply logs_at_Array. }
    destruct (CanUseIndexForArray_frame st) as (Hcalls & Hexpr & _).
    destruct (CanUseIndexForArray st) as [[[|]|e] st'] eqn:Hcan; simpl in *.
    + rewrite (bind_ok _ _ _ _ _ Hcan).
      rewrite (calls_since_frame st st') by done.
      apply ArrayForIndex_falls_back. rewrite Hexpr, Hv.
      destruct H as [H|[H|[H|[H|[H|[H|[H|H]]]]]]]; try done; auto.
      rewrite (CanUseIndexForArray_not_index_mode st H) in Hcan. done.
    + rewrite (bind_ok _ _ _ _ _ Hcan).
      rewrite (calls_since_frame st st') by done. apply logs_at_Array.
    + rewrite (bind_throw _ _ _ _ _ Hcan). simpl.
      by rewrite calls_since_refl.
  - by rewrite calls_since_refl.
Qed.

(** Follows a computation call by call. *)
Ltac trace_calls :=
  repeat first
    [ apply logs_ret | apply logs_throw | apply logs_get
    | apply logs_init_arg | apply logs_AssertInfo
    | apply logs_modify; intros; reflexivity
    | apply logs_on_cursor; reflexivity
    | apply logs_on_cursor_res; reflexivity
    | apply logs_bind; [|intros]
    | match goal with
      | |- logs _ (if ?b then _ else _) => destruct b
      | |- logs _ (match ?x with _ => _ end) => destruct x
      | |- logs _ (let '(_, _) := ?x in _) => destruct x
      end ].

Lemma logs_Json_no_index_scan T context :
  logs (fun c => is_index_scan c = false) (ExecRangeVisitorImplJson T context).
Proof.
  unfold ExecRangeVisitorImplJson, ExecRangeVisitorImplJsonForIndex,
    ExecRangeVisitorImplJson_scan, scan_data, real_batch_size_of,
    next_batch_size.
  trace_calls.
Qed.

Lemma ExecNgramMatch_frame st :
  expr_ (snd (ExecNgramMatch st)) = expr_ st /\
  exists cs, calls (snd (ExecNgramMatch st)) = calls st ++ cs /\
             Forall (fun c => is_index_scan c = false) cs.
Proof.
  unfold ExecNgramMatch, materialize_ngram_match, slice_batch. step.
  destruct (arg_inited_ st); simpl;
    (destruct (_ =? 0); simpl;
     [split; [done|]; exists []; by rewrite app_nil_r|]);
    (destruct (cached_ngram_match_res_ st); simpl;
     [split; [done|]; exists []; by rewrite app_nil_r|]);
    destruct (ExecuteQuery _ _); simpl;
    (split; [done|]); eexists; (split; [reflexivity|]);
    by repeat constructor.
Qed.

(** X19.  A pattern match on a JSON path never goes through the scalar
    index of the path: for a string literal and the operators Match,
    PostfixMatch and InnerMatch, whatever indexes exist, [Eval] makes no
    [ProcessIndexChunks] call; the batch is answered by the n-gram index,
    the JSON key index or the data scan. *)
Theorem json_pattern_match_skips_scalar_index context st (s : string) :
  val_ (expr_ st) = StringVal s ->
  op_type_ (expr_ st) = Match \/ op_type_ (expr_ st) = PostfixMatch \/
  op_type_ (expr_ st) = InnerMatch ->
  is_string_type (FromValCase kStringVal) = true ->
  Forall (fun c => is_index_scan c = false)
         (calls_since st (snd (Eval_json context st))).
Proof.
  intros Hv Hop Hstr. unfold Eval_json. rewrite bind_get, Hv. simpl.
  unfold CanExecNgramMatchForJson. rewrite !bind_get.
  set (ng := _ && negb (has_offset_input_ st)).
  assert (forall st1 cs,
            expr_ st1 = expr_ st -> calls st1 = calls st ++ cs ->
            Forall (fun c => is_index_scan c = false) cs ->
            Forall (fun c => is_index_scan c = false)
              (calls_since st
                 (snd (bind (CanUseIndexForJson (FromValCase kStringVal))
                         (fun can_use_index =>
                            if can_use_index && negb (has_offset_input_ st)
                            then ExecRangeVisitorImplForIndex t_string
                            else ExecRangeVisitorImplJson t_string context)
                         st1)))) as Hrest.
  { intros st1 cs He Hc HP.
    unfold bind at 1, CanUseIndexForJson. rewrite Hstr, He.
    assert (HasIndex (FromValCase kStringVal)
            && negb (bool_decide (op_type_ (expr_ st) = Match))
            && negb (bool_decide (op_type_ (expr_ st) = PostfixMatch))
            && negb (bool_decide (op_type_ (expr_ st) = InnerMatch)) = false) as ->.
    { destruct Hop as [H | [H | H]]; rewrite H; simpl;
        by rewrite ?andb_false_r. }
    simpl.
    destruct (logs_Json_no_index_scan t_string context (set_use_index false st1))
      as (cs' & Hcs' & HP').
    erewrite calls_since_app;
      [|rewrite Hcs'; simpl; rewrite Hc, <- app_assoc; reflexivity].
    by apply Forall_app. }
  destruct ng.
  - destruct (ExecNgramMatch_frame st) as (He & cs & Hcs & HP).
    destruct (ExecNgramMatch st) as [[[v|]|e] st1] eqn:Hng; simpl in *.
    + rewrite (bind_ok _ _ _ _ _ Hng). simpl.
      by rewrite (calls_since_app _ _ _ Hcs).
    + rewrite (bind_ok _ _ _ _ _ Hng). by apply (Hrest st1 cs).
    + rewrite (bind_throw _ _ _ _ _ Hng). simpl.
      by rewrite (calls_since_app _ _ _ Hcs).
  - change (bind (ret None) ?k st) with (k None st). simpl.
    apply (Hrest st []); [done|by rewrite app_nil_r|constructor].
Qed.

End ExecutorInvariants.

(* ===================================================================== *)
(** * Further properties of the JSON sub-batch kernel *)

Section JsonKernelInvariants.
Import UnaryExpr.
Context {Json JArr : Type} {JD : JsonDoc Json JArr}.
Implicit Types (b : SubBatch (Json := Json)) (res valid_res : TargetBitmap).

Lemma insert_lookup_same {A} (l l' : list A) i x :
  l !! i = l' !! i -> <[i := x]> l !! i = <[i := x]> l' !! i.
Proof.
  intros H. destruct (l !! i) as [y|] eqn:Hl.
  - rewrite !list_lookup_insert_eq; [done| |].
    + symmetry in H. eapply lookup_lt_Some; eauto.
    + eapply lookup_lt_Some; eauto.
  - symmetry in H. rewrite !list_insert_ge; [congruence| |].
    + by apply lookup_ge_None.
    + by apply lookup_ge_None.
Qed.

(** What iteration [i] leaves. *)
Lemma row_step_unfold ft op val pointer bitmap_input pc b res valid_res i :
  row_step ft op val pointer bitmap_input pc b (res, valid_res) i
  = if row_is_null ft b i then (<[i := false]> res, <[i := false]> valid_res)
    else if row_is_skipped bitmap_input pc i then (res, valid_res)
    else (<[i := row_bit op val pointer b i (row_offset ft b i)
                    (default false (res !! i))]> res, valid_res).
Proof. reflexivity. Qed.

Lemma row_step_length ft op val pointer bitmap_input pc b res valid_res i :
  length (fst (row_step ft op val pointer bitmap_input pc b (res, valid_res) i))
  = length res /\
  length (snd (row_step ft op val pointer bitmap_input pc b (res, valid_res) i))
  = length valid_res.
Proof.
  rewrite row_step_unfold.
  destruct (row_is_null ft b i); simpl; [by rewrite !length_insert|].
  destruct (row_is_skipped bitmap_input pc i); simpl; [done|].
  by rewrite length_insert.
Qed.

Lemma row_step_other ft op val pointer bitmap_input pc b res valid_res i j :
  j <> i ->
  fst (row_step ft op val pointer bitmap_input pc b (res, valid_res) i) !! j
  = res !! j /\
  snd (row_step ft op val pointer bitmap_input pc b (res, valid_res) i) !! j
  = valid_res !! j.
Proof.
  intros Hne. rewrite row_step_unfold.
  destruct (row_is_null ft b i); simpl.
  { by rewrite !list_lookup_insert_ne. }
  destruct (row_is_skipped bitmap_input pc i); simpl; [done|].
  by rewrite list_lookup_insert_ne.
Qed.

Lemma row_step_local ft op val pointer bitmap_input pc b
    res valid_res res0 valid0 i :
  res !! i = res0 !! i -> valid_res !! i = valid0 !! i ->
  fst (row_step ft op val pointer bitmap_input pc b (res, valid_res) i) !! i
  = fst (row_step ft op val pointer bitmap_input pc b (res0, valid0) i) !! i /\
  snd (row_step ft op val pointer bitmap_input pc b (res, valid_res) i) !! i
  = snd (row_step ft op val pointer bitmap_input pc b (res0, valid0) i) !! i.
Proof.
  intros Hr Hv. rewrite !row_step_unfold.
  destruct (row_is_null ft b i); simpl.
  { split; by apply insert_lookup_same. }
  destruct (row_is_skipped bitmap_input pc i); simpl; [done|].
  rewrite Hr. split; [by apply insert_lookup_same|done].
Qed.

(** Rows are independent: after the loop over [n] rows, bit [i] is what
    iteration [i] alone would have left, and rows from [n] on are
    untouched. *)
Lemma rows_fold ft op val pointer bitmap_input pc b res valid_res (n : nat) :
  let step := row_step ft op val pointer bitmap_input pc b in
  let r := fold_left step (seq 0 n) (res, valid_res) in
  length (fst r) = length res /\ length (snd r) = length valid_res /\
  (forall i, (n <= i)%nat ->
     fst r !! i = res !! i /\ snd r !! i = valid_res !! i) /\
  (forall i, (i < n)%nat ->
     fst r !! i = fst (step (res, valid_res) i) !! i /\
     snd r !! i = snd (step (res, valid_res) i) !! i).
Proof.
  intros step. cbv zeta. induction n as [|n IH].
  - simpl. repeat split; intros; lia.
  - rewrite seq_S, fold_left_app. simpl.
    destruct (fold_left step (seq 0 n) (res, valid_res)) as [res1 valid1].
    simpl in IH. destruct IH as (Hl1 & Hl2 & Hge & Hlt).
    destruct (row_step_length ft op val pointer bitmap_input pc b res1 valid1 n)
      as [Hs1 Hs2].
    fold step in Hs1, Hs2.
    split; [congruence|]. split; [congruence|]. split.
    + intros i Hi.
      destruct (row_step_other ft op val pointer bitmap_input pc b
                  res1 valid1 n i) as [H1 H2]; [lia|].
      fold step in H1, H2. rewrite H1, H2. apply Hge. lia.
    + intros i Hi. destruct (decide (i = n)) as [->|Hne].
      * destruct (Hge n (Nat.le_refl n)) as [Hr Hv].
        apply (row_step_local ft op val pointer bitmap_input pc b
                 res1 valid1 res valid_res n Hr Hv).
      * destruct (row_step_other ft op val pointer bitmap_input pc b
                    res1 valid1 n i Hne) as [H1 H2].
        fold step in H1, H2. rewrite H1, H2. apply Hlt. lia.
Qed.

Lemma execute_sub_batch_rows ft op val pointer bitmap_input pc b res valid_res :
  is_text_op op = false ->
  exists res' valid',
    execute_sub_batch ft op val pointer bitmap_input pc b res valid_res
    = Ok (res', valid', (pc + sb_size b)%nat) /\
    length res' = length res /\ length valid' = length valid_res /\
    (forall i, (sb_size b <= i)%nat ->
       res' !! i = res !! i /\ valid' !! i = valid_res !! i) /\
    (forall i, (i < sb_size b)%nat ->
       res' !! i
       = fst (row_step ft op val pointer bitmap_input pc b (res, valid_res) i) !! i /\
       valid' !! i
       = snd (row_step ft op val pointer bitmap_input pc b (res, valid_res) i) !! i).
Proof.
  intros Hop.
  pose proof (rows_fold ft op val pointer bitmap_input pc b res valid_res
                (sb_size b)) as H.
  simpl in H. unfold execute_sub_batch.
  destruct (fold_left _ (seq 0 (sb_size b)) (res, valid_res)) as [res' valid'].
  exists res', valid'. split; [by destruct op|exact H].
Qed.

Lemma live_row ft op val pointer bitmap_input pc b res valid_res i :
  is_text_op op = false ->
  (i < sb_size b)%nat -> (i < length res)%nat ->
  row_is_null ft b i = false ->
  row_is_skipped bitmap_input pc i = false ->
  exists res' valid',
    execute_sub_batch ft op val pointer bitmap_input pc b res valid_res
    = Ok (res', valid', (pc + sb_size b)%nat) /\
    res' !! i = Some (row_bit op val pointer b i (row_offset ft b i)
                        (default false (res !! i))) /\
    valid' !! i = valid_res !! i.
Proof.
  intros Hop Hi Hlen Hnull Hskip.
  destruct (execute_sub_batch_rows ft op val pointer bitmap_input pc b
              res valid_res Hop) as (res' & valid' & Hrun & _ & _ & _ & Hrows).
  exists res', valid'. split; [exact Hrun|].
  destruct (Hrows i Hi) as [-> ->].
  rewrite row_step_unfold, Hnull, Hskip. simpl.
  by rewrite list_lookup_insert_eq.
Qed.

Lemma not_null_row ft b i :
  sb_valid_data b = None \/
  (exists valid_data, sb_valid_data b = Some valid_data /\
                      valid_data !! row_offset ft b i = Some true) ->
  row_is_null ft b i = false.
Proof.
  unfold row_is_null. intros [->|(vd & -> & Hv)]; [done|]. by rewrite Hv.
Qed.

Lemma not_skipped_row (bitmap_input : TargetBitmap) pc i :
  bitmap_input = [] \/ bitmap_input !! (i + pc)%nat = Some true ->
  row_is_skipped bitmap_input pc i = false.
Proof.
  unfold row_is_skipped. intros [->|H]; [done|].
  rewrite H. simpl. apply andb_false_r.
Qed.






(** X25.  An integer literal is compared with a JSON double as a double:
    on a row that is evaluated, when the pointer holds a number that does
    not read as an int64 but reads as the double [x], a comparison with
    the integer literal [z] answers [x OP z] computed on doubles. *)
Theorem json_scan_int_literal_against_double
    ft op (z x : Z) pointer bitmap_input pc b res valid_res i doc :
  is_comparison op = true ->
  (i < sb_size b)%nat -> (i < length res)%nat ->
  sb_valid_data b = None \/
  (exists valid_data, sb_valid_data b = Some valid_data /\
                      valid_data !! row_offset ft b i = Some true) ->
  bitmap_input = [] \/ bitmap_input !! (i + pc)%nat = Some true ->
  sb_data b !! row_offset ft b i = Some doc ->
  at_int64 doc pointer = None ->
  at_double doc pointer = Some x ->
  exists res' valid',
    execute_sub_batch ft op (Int64Val z) pointer bitmap_input pc b
      res valid_res
    = Ok (res', valid', (pc + sb_size b)%nat) /\
    res' !! i = Some (double_cmp_int64 op x z) /\
    valid' !! i = valid_res !! i.
Proof.
  intros Hop Hi Hlen Hvalid Hbit Hdoc Hint Hdbl.
  assert (is_text_op op = false) as Hnt by (by destruct op).
  destruct (live_row ft op (Int64Val z) pointer bitmap_input pc b
              res valid_res i Hnt Hi Hlen (not_null_row ft b i Hvalid)
              (not_skipped_row bitmap_input pc i Hbit))
    as (res' & valid' & Hrun & Hres & Hv).
  exists res', valid'. split; [exact Hrun|]. split; [|exact Hv].
  rewrite Hres. f_equal.
  rewrite (json_int64_retries_as_double op z pointer b i _ _ doc x) by done.
  by destruct op.
Qed.

End JsonKernelInvariants.

(* ===================================================================== *)
(** * Splitting a JSON pointer at its first array index *)

Section SplitFacts.
Import UnaryExpr.
Local Open Scope string_scope.

Lemma split_cons c rest :
  starts_slash_digit (String c rest) = false ->
  SplitAtFirstSlashDigit (String c rest)
  = (String c (fst (SplitAtFirstSlashDigit rest)),
     snd (SplitAtFirstSlashDigit rest)).
Proof.
  intros H. cbn [SplitAtFirstSlashDigit]. rewrite H.
  by destruct (SplitAtFirstSlashDigit rest).
Qed.

(** X26.  [SplitAtFirstSlashDigit] cuts the pointer without losing a
    character, at the leftmost place where a slash is followed by a
    digit: the two parts concatenate to the input; the second part is
    empty or starts with such a slash; no suffix of the input that starts
    inside the first part starts with one; and the second part is empty
    exactly when the input holds no slash followed by a digit. *)
Theorem split_at_first_slash_digit_spec (input : string) :
  let firstPart := fst (SplitAtFirstSlashDigit input) in
  let secondPart := snd (SplitAtFirstSlashDigit input) in
  firstPart ++ secondPart = input /\
  (secondPart = "" \/ starts_slash_digit secondPart = true) /\
  (forall a b, input = a ++ b ->
     (String.length a < String.length firstPart)%nat ->
     starts_slash_digit b = false) /\
  (secondPart = "" <->
   forall a b, input = a ++ b -> starts_slash_digit b = false).
Proof.
  cbv zeta.
  assert (fst (SplitAtFirstSlashDigit input) ++ snd (SplitAtFirstSlashDigit input)
          = input /\
          (snd (SplitAtFirstSlashDigit input) = "" \/
           starts_slash_digit (snd (SplitAtFirstSlashDigit input)) = true) /\
          (forall a b, input = a ++ b ->
             (String.length a
              < String.length (fst (SplitAtFirstSlashDigit input)))%nat ->
             starts_slash_digit b = false)) as (H1 & H2 & H3).
  { induction input as [|c rest IH].
    - simpl. split; [done|]. split; [by left|]. intros a b _ H. lia.
    - destruct (starts_slash_digit (String c rest)) eqn:Hs.
      + cbn [SplitAtFirstSlashDigit]. rewrite Hs. simpl.
        split; [done|]. split; [by right|]. intros a b _ H. lia.
      + rewrite (split_cons c rest Hs). simpl.
        destruct IH as (IH1 & IH2 & IH3).
        split; [by rewrite IH1|]. split; [exact IH2|].
        intros [|c' a] b Hab Hlen; simpl in *.
        * by rewrite <- Hab.
        * injection Hab as -> Hrest. apply (IH3 a b Hrest). lia. }
  split; [exact H1|]. split; [exact H2|]. split; [exact H3|]. split.
  - intros Hempty a b Hab.
    destruct (decide (String.length a
                      < String.length (fst (SplitAtFirstSlashDigit input)))%nat)
      as [Hlt|Hge]; [by apply (H3 a b)|].
    rewrite Hempty in H1.
    assert (String.length input = (String.length a + String.length b)%nat) as Hl.
    { rewrite Hab. clear. induction a; simpl; [done|]. by rewrite IHa. }
    assert (String.length (fst (SplitAtFirstSlashDigit input) ++ "")
            = String.length (fst (SplitAtFirstSlashDigit input))) as Hl'.
    { clear. induction (fst (SplitAtFirstSlashDigit input)); simpl; [done|].
      by rewrite IHs. }
    rewrite H1 in Hl'.
    assert (String.length b = 0%nat) as Hb by lia.
    by destruct b.
  - intros Hnone. destruct H2 as [H2|H2]; [exact H2|].
    rewrite (Hnone _ _ (eq_sym H1)) in H2. done.
Qed.

End SplitFacts.

(* ===================================================================== *)
(** * Offsets into a chunked column *)

Section ChunkedColumnFacts.
Import ChunkedColumn.
Context {Col : ChunkedColumnInterface}.

Lemma offset_in_range (o : Z) :
  - 2 ^ 63 <= o < 2 ^ 63 ->
  offset_out_of_range o = false <-> 0 <= o < NumRows.
Proof.
  intros Hr. unfold offset_out_of_range. rewrite orb_false_iff.
  rewrite Z.ltb_ge, Z.leb_gt. split.
  - intros [H0 H]. rewrite to_size_t_small in H by lia. lia.
  - intros H. split; [lia|]. rewrite to_size_t_small; lia.
Qed.

(** X27.  [ToChunkIdAndOffset] checks before it translates: a null
    [offsets] fails the assertion; among the first [count] offsets, one
    that is negative or not below [NumRows] makes the call throw
    OutOfRange; and the call is [GetChunkIDsByOffsets] on the same
    arguments exactly when each of them lies in [0, NumRows). *)
Theorem to_chunk_id_and_offset_validates (offs : list Z) (count : Z) :
  0 <= count <= Z.of_nat (length offs) ->
  Forall (fun o => - 2 ^ 63 <= o < 2 ^ 63) offs ->
  ToChunkIdAndOffset None count = inl UnknownError /\
  ((exists i o, (i < Z.to_nat count)%nat /\ offs !! i = Some o /\
                (o < 0 \/ NumRows <= o)) ->
   ToChunkIdAndOffset (Some offs) count = inl OutOfRange) /\
  ((forall i o, (i < Z.to_nat count)%nat -> offs !! i = Some o ->
                0 <= o < NumRows) <->
   ToChunkIdAndOffset (Some offs) count
   = inr (GetChunkIDsByOffsets offs count)).
Proof.
  intros Hcount Hrange. rewrite Forall_forall in Hrange.
  assert (existsb offset_out_of_range (take (Z.to_nat count) offs) = false <->
          forall i o, (i < Z.to_nat count)%nat -> offs !! i = Some o ->
                      0 <= o < NumRows) as Hall.
  { split.
    - intros Hex i o Hi Ho.
      apply offset_in_range; [apply Hrange; by eapply list_elem_of_lookup_2|].
      apply existsb_false_Forall in Hex. rewrite Forall_forall in Hex.
      apply Hex. apply (list_elem_of_lookup_2 _ i).
      by rewrite lookup_take_lt.
    - intros H. apply Forall_existsb_false, Forall_forall.
      intros o Ho. apply list_elem_of_lookup in Ho as [i Hi].
      apply lookup_take_Some in Hi as [Hi Hlt].
      apply offset_in_range; [apply Hrange; by eapply list_elem_of_lookup_2|].
      by apply (H i). }
  split; [done|]. split.
  - intros (i & o & Hi & Ho & Hbad). unfold ToChunkIdAndOffset.
    destruct (existsb _ _) eqn:Hex; [done|].
    destruct Hall as [Hall _]. specialize (Hall eq_refl i o Hi Ho). lia.
  - unfold ToChunkIdAndOffset. rewrite <- Hall.
    destruct (existsb _ _); split; intros; done.
Qed.

End ChunkedColumnFacts.

(* ===================================================================== *)
(** * The choice between index scan and data scan *)

Section ExecutorDispatch.
Import UnaryExpr.
Context {Cur : Type} {Seg : Segment Cur}.
Implicit Types (st : @Phy Cur) (T : CppType) (context : EvalCtx).

Lemma ForIndex_fits T st :
  literal_fits T st ->
  let st0 := with_arg_inited (IndexInnerType T) st in
  let n := GetNextBatchSize (cur st) (use_index_ st) in
  ExecRangeVisitorImplForIndex T st
  = if n =? 0 then (Ok None, st0)
    else
      let r := ProcessIndexChunks T (op_type_ (expr_ st)) (value_arg_ st0) (cur st) in
      let st' := set_cur (snd r)
                   (record_call (CallProcessIndexChunks T (op_type_ (expr_ st))) st0) in
      match fst r with
      | Ok res =>
          if Z.of_nat (length (cv_data res)) =? n then (Ok (Some res), st')
          else (Throw UnknownError, st')
      | Throw e => (Throw e, st')
      end.
Proof.
  intros Hfit st0 n. unfold ExecRangeVisitorImplForIndex.
  rewrite (bind_ok _ _ _ _ _ (init_arg_run _ st)). fold st0.
  destruct (with_arg_inited_frame (IndexInnerType T) st)
    as (He & Hcalls & Hcur & Hui & _).
  rewrite (bind_ok _ _ _ _ _
             (PreCheckOverflow_fits T None st0
                (literal_fits_frame T st st0 He Hfit))).
  unfold next_batch_size. rewrite bind_get. fold st0 in He, Hcur, Hui.
  rewrite Hcur, Hui. fold n. destruct (n =? 0); [done|].
  cbv [bind get on_cursor_res AssertInfo ret throw]. simpl. rewrite ?He, ?Hcur.
  destruct (ProcessIndexChunks _ _ _ _) as [[res|e] cur']; simpl; [|done].
  by destruct (_ =? n).
Qed.

Lemma ForData_fits T context st :
  literal_fits T st ->
  has_offset_input_ st = false ->
  let n := GetNextBatchSize (cur st) (use_index_ st) in
  ExecRangeVisitorImplForData T context st
  = if n =? 0 then (Ok None, st)
    else scan_data (ScalarScan T)
           (Some (IndexInnerType T, val_ (expr_ st))) context n
           (with_arg_inited (IndexInnerType T) st).
Proof.
  intros Hfit Ho n. unfold ExecRangeVisitorImplForData.
  rewrite (bind_ok _ _ _ _ _ (PreCheckOverflow_fits T _ st Hfit)).
  assert (Hn : real_batch_size_of context st = (Ok n, st)).
  { unfold real_batch_size_of. rewrite bind_get, Ho. reflexivity. }
  rewrite (bind_ok _ _ _ _ _ Hn).
  destruct (n =? 0); [done|].
  rewrite (bind_ok _ _ _ _ _ (init_arg_run _ st)). rewrite bind_get.
  destruct (with_arg_inited_frame (IndexInnerType T) st) as (He & _).
  by rewrite He.
Qed.

(** X28.  A scalar filter takes the index scan exactly when the
    expression is in index mode and the index supports the operator:
    without offset input, for an operator that is neither a text match nor
    served by an n-gram index, with a literal that fits and a batch that
    is not empty, [ExecRangeVisitorImpl] records that decision in
    [use_index_] and makes one call, [ProcessIndexChunks] if the decision
    is to use the index and [ProcessDataChunks] otherwise; it never
    returns null, and a vector that comes back from the index scan has
    exactly one bit per row of the batch. *)
Theorem scalar_filter_prefers_the_index T context st :
  is_text_op (op_type_ (expr_ st)) = false ->
  CanUseNgramIndex = false \/ is_ngram_op (op_type_ (expr_ st)) = false ->
  has_offset_input_ st = false ->
  literal_fits T st ->
  let b := is_index_mode_ st && SegmentExpr_CanUseIndex T (op_type_ (expr_ st)) in
  GetNextBatchSize (cur st) b <> 0 ->
  let r := ExecRangeVisitorImpl T context st in
  use_index_ (snd r) = b /\
  calls_since st (snd r)
  = [if b then CallProcessIndexChunks T (op_type_ (expr_ st))
     else CallProcessDataChunks (ScalarScan T)] /\
  fst r <> Ok None /\
  (forall cv, b = true -> fst r = Ok (Some cv) ->
     Z.of_nat (length (cv_data cv)) = GetNextBatchSize (cur st) true).
Proof.
  intros Htext Hngram Ho Hfit b Hn r. subst r.
  assert (ExecRangeVisitorImpl T context st = normal_path T context st) as ->.
  { unfold ExecRangeVisitorImpl. rewrite bind_get.
    rewrite decide_False by (intros [H|H]; rewrite H in Htext; done).
    unfold CanExecNgramMatch. rewrite bind_get.
    assert (is_ngram_op (op_type_ (expr_ st)) && negb (has_offset_input_ st)
            && CanUseNgramIndex = false) as ->.
    { destruct Hngram as [->| ->]; [apply andb_false_r|done]. }
    reflexivity. }
  rewrite normal_path_run by done. fold b.
  apply Z.eqb_neq in Hn.
  destruct b eqn:Hb.
  - rewrite ForIndex_fits by done. simpl. rewrite Hn.
    destruct (with_arg_inited_frame (IndexInnerType T) (set_use_index true st))
      as (_ & Hcalls & _ & Hui & _).
    destruct (ProcessIndexChunks _ _ _ _) as [[res|e] cur'] eqn:Hp; simpl.
    + destruct (Z.of_nat (length (cv_data res)) =? _) eqn:Hlen; simpl;
        (split; [exact Hui|]);
        (split; [apply calls_since_app; simpl; by rewrite Hcalls|]);
        (split; [done|]); intros cv _ Hcv; [|done].
      injection Hcv as <-. by apply Z.eqb_eq.
    + split; [exact Hui|].
      split; [apply calls_since_app; simpl; by rewrite Hcalls|]. done.
  - rewrite ForData_fits by done. simpl. rewrite Hn.
    rewrite scan_data_run by (by rewrite with_arg_inited_offsets).
    destruct (with_arg_inited_frame (IndexInnerType T) (set_use_index false st))
      as (_ & Hcalls & _ & Hui & _).
    destruct (ProcessDataChunks _ _ _ _ _ _ _) as [[[p v]|e] cur'] eqn:Hp; simpl.
    + destruct (p =? _); simpl;
        (split; [exact Hui|]);
        (split; [apply calls_since_app; simpl; by rewrite Hcalls|]);
        (split; [done|]); intros cv Hf; done.
    + split; [exact Hui|].
      split; [apply calls_since_app; simpl; by rewrite Hcalls|]. done.
Qed.

End ExecutorDispatch.

(* ===================================================================== *)
(** * The further executor properties on the ten-row segment *)

Section ExecutorInvariantsScenario.
Import UnaryExpr UnaryExpr.Scenario.

(** [int8 >= 1000]: four rows, none of which matches. *)
Lemma overflow_agrees_witness :
  exists cv,
    fst (PreCheckOverflow (Seg := plain) t_int8 None (start int8_ge_1000))
    = Ok (Some cv) /\
    length (cv_data cv) = 4%nat.
Proof.
  destruct (overflow_precheck_agrees_with_comparison (Seg := plain)
              t_int8 None (start int8_ge_1000) 5)
    as (cv & H1 & _ & H2 & _).
  - reflexivity.
  - reflexivity.
  - reflexivity.
  - simpl. lia.
  - exists cv. split; [exact H1 | exact H2].
Defined.

Lemma overflow_skips_witness :
  PreCheckOverflow (Seg := plain) t_int64 None
    (start (mkExpr (column INT64) GreaterEqual (Int64Val 1000) []))
  = (Ok None, start (mkExpr (column INT64) GreaterEqual (Int64Val 1000) [])).
Proof.
  apply (overflow_precheck_skips_fitting_literal (Seg := plain)).
  right. split; [reflexivity|]. unfold int64_range. simpl. lia.
Defined.

(** Ten active rows in batches of four: 4, 8, 10. *)
Lemma overflow_tiles_witness :
  overflow_check_pos_
    (Nat.iter 3 (fun st => snd (PreCheckOverflow (Seg := plain) t_int8 None st))
       (start int8_ge_1000))
  = 10.
Proof.
  destruct (overflow_batches_tile_the_active_rows (Seg := plain)
              t_int8 (start int8_ge_1000) 3) as [H _].
  - reflexivity.
  - reflexivity.
  - simpl. unfold batch. lia.
  - simpl. unfold rows. lia.
  - exact H.
Defined.

Lemma text_index_once_witness :
  calls_since (snd (ExecTextMatch (Seg := plain) (start text_match)))
    (Nat.iter 2 (fun st => snd (ExecTextMatch (Seg := plain) st))
       (snd (ExecTextMatch (Seg := plain) (start text_match))))
  = [].
Proof.
  destruct (text_index_is_queried_once (Seg := plain) (start text_match) 2)
    as (_ & _ & H & _).
  - left. reflexivity.
  - simpl. discriminate.
  - reflexivity.
  - exact H.
Defined.

(** An n-gram index that answers for the first seven rows. *)
Lemma ngram_answer_witness :
  calls_since (start inner_match)
    (snd (ExecRangeVisitorImpl
            (Seg := segment false true
                      (Some [true; false; true; false; false; true; false]))
            t_string no_offsets (start inner_match)))
  = [CallNgramExecuteQuery "ab" InnerMatch].
Proof.
  destruct (ngram_answer_short_circuits
              (Seg := segment false true
                        (Some [true; false; true; false; false; true; false]))
              t_string no_offsets (start inner_match)
              [true; false; true; false; false; true; false])
    as (_ & H & _).
  - reflexivity.
  - reflexivity.
  - reflexivity.
  - simpl. discriminate.
  - right. split; reflexivity.
  - exact H.
Defined.

(** The cursor at the end of the ten rows. *)
Lemma empty_batch_witness :
  fst (ExecRangeVisitorImpl (Seg := indexed) t_string no_offsets
         (mkPhy inner_match true rows batch 10 false false false None 0
                None None [] []))
  = Ok None.
Proof.
  destruct (empty_batch_returns_null (Seg := indexed) t_string no_offsets
              (mkPhy inner_match true rows batch 10 false false false None 0
                     None None [] [])) as (H & _).
  - reflexivity.
  - intros b. reflexivity.
  - left. reflexivity.
  - intros Hop. discriminate Hop.
  - exact H.
Defined.

Lemma eval_rejects_witness :
  fst (Eval (Seg := plain) no_offsets
         (start (mkExpr (column STRING) Equal (StringVal "a") [])))
  = Throw DataTypeInvalid.
Proof.
  destruct (eval_rejects_unsupported_input (Seg := plain) no_offsets
              (start (mkExpr (column STRING) Equal (StringVal "a") [])))
    as (H & _).
  - left. reflexivity.
  - exact H.
Defined.

(** [array > [1]] on an indexed ARRAY column of INT32. *)
Lemma array_index_witness :
  Forall slow_path
    (calls_since
       (start (mkExpr (mkColumnInfo ARRAY INT32 []) GreaterThan
                 (ArrayVal [Int64Val 1]) []))
       (snd (Eval_array (Seg := indexed) no_offsets
               (start (mkExpr (mkColumnInfo ARRAY INT32 []) GreaterThan
                         (ArrayVal [Int64Val 1]) []))))).
Proof.
  apply (array_index_needs_equality_on_indexed_elements (Seg := indexed)).
  do 4 right. left. split; discriminate.
Defined.

Lemma json_pattern_witness :
  Forall (fun c => is_index_scan c = false)
    (calls_since
       (start (mkExpr (column JSON) InnerMatch (StringVal "ab") []))
       (snd (Eval_json (Seg := indexed) no_offsets
               (start (mkExpr (column JSON) InnerMatch (StringVal "ab") []))))).
Proof.
  apply (json_pattern_match_skips_scalar_index (Seg := indexed) no_offsets
           (start (mkExpr (column JSON) InnerMatch (StringVal "ab") [])) "ab").
  - reflexivity.
  - right. right. reflexivity.
  - reflexivity.
Defined.

(** [int32 >= 5] on a field with a scalar index, in index mode. *)
Lemma index_preferred_witness :
  calls_since (start (mkExpr (column INT32) GreaterEqual (Int64Val 5) []))
    (snd (ExecRangeVisitorImpl (Seg := indexed) t_int32 no_offsets
            (start (mkExpr (column INT32) GreaterEqual (Int64Val 5) []))))
  = [CallProcessIndexChunks t_int32 GreaterEqual].
Proof.
  destruct (scalar_filter_prefers_the_index (Seg := indexed) t_int32 no_offsets
              (start (mkExpr (column INT32) GreaterEqual (Int64Val 5) [])))
    as (_ & H & _).
  - reflexivity.
  - right. reflexivity.
  - reflexivity.
  - right. reflexivity.
  - simpl. discriminate.
  - exact H.
Defined.

End ExecutorInvariantsScenario.

(* ===================================================================== *)
(** * The further kernel and column properties on concrete rows *)

Section KernelInvariantsScenario.
Import UnaryExpr UnaryExpr.Scenario.






(** [{"k":1.0}] against [== 1]. *)
Lemma json_widening_witness :
  exists res' valid',
    execute_sub_batch sequential Equal (Int64Val 1) "/k" [] 0 four_rows
      [false; false; false; false] [true; true; true; true]
    = Ok (res', valid', 4%nat) /\
    res' !! 2%nat = Some true /\ valid' !! 2%nat = Some true.
Proof.
  destruct (json_scan_int_literal_against_double sequential Equal 1 1 "/k" []
              0%nat four_rows [false; false; false; false]
              [true; true; true; true] 2%nat [("/k", FloatVal 1)]%string)
    as (res' & valid' & H1 & H2 & H3).
  - reflexivity.
  - simpl. lia.
  - simpl. lia.
  - left. reflexivity.
  - left. reflexivity.
  - reflexivity.
  - reflexivity.
  - reflexivity.
  - exists res', valid'. split; [exact H1|]. split; [exact H2 | exact H3].
Defined.

End KernelInvariantsScenario.

Section ChunkedColumnScenario.
Import ChunkedColumn ChunkedColumn.Scenario.

(** Offsets 0, 9 and 10 into the column of ten rows. *)
Lemma to_chunk_id_and_offset_witness :
  ToChunkIdAndOffset (Some [0; 9; 10]) 3 = inl OutOfRange /\
  ToChunkIdAndOffset (Some [0; 9; 10]) 2 = inr ([0; 2], [0; 1]).
Proof.
  split.
  - destruct (to_chunk_id_and_offset_validates [0; 9; 10] 3) as (_ & H & _).
    + simpl. lia.
    + repeat constructor; lia.
    + apply H. exists 2%nat, 10. split; [simpl; lia|].
      split; [reflexivity|]. right. simpl. lia.
  - destruct (to_chunk_id_and_offset_validates [0; 9; 10] 2) as (_ & _ & H).
    + simpl. lia.
    + repeat constructor; lia.
    + apply H. intros [|[|i]] o Hi Ho; simpl in *;
        try lia; injection Ho as <-; lia.
Defined.

End ChunkedColumnScenario.
